(** * Chat Branches: the branch tree reconciliation engine

    A shallow embedding of the reconciliation core of the chat-branches
    extension (StorageRebuilder.js, ChatTreeView.js, ChatRenameHandler.js,
    ChatMigrator.js, and the parts of MessageViewerPopup.js and index.js
    that work on the same data) and the proofs of its specification.

    JavaScript strings are modelled as [string], a [Map] that is only looked
    up as a [gmap], a [Set] as a [gset], a [Map] that is iterated as an
    association list in insertion order, objects that are shared and mutated
    (tree nodes) as cells of a heap addressed by allocation order, and every
    asynchronous call to the host application as an oracle. *)

From stdpp Require Import gmap strings list fin_maps sorting.

#[global] Set Warnings "-register-all,-clear-no-such-hyp".

(** ** JavaScript primitives *)

Module JS.

(** [if (s)] on a string: only the empty string is falsy. *)
Definition str_truthy (s : string) : bool := bool_decide (s ≠ "").

(** [if (v)] on a string that may be [null] or [undefined]. *)
Definition truthy (v : option string) : bool :=
  match v with
  | Some s => str_truthy s
  | None => false
  end.

(** [s.includes(sub)]. *)
Fixpoint includes (s sub : string) : bool :=
  String.prefix sub s ||
  match s with
  | EmptyString => false
  | String _ s' => includes s' sub
  end.

(** [map.has(k)]. *)
Definition has {V} (m : gmap string V) (k : string) : bool :=
  bool_decide (is_Some (m !! k)).

(** [Math.ceil(n / d)] on natural numbers. *)
Definition ceil_div (n d : nat) : nat :=
  if n mod d =? 0 then n / d else S (n / d).

(** [arr.slice(start, end)] for [start <= end <= arr.length]. *)
Definition slice {A} (start stop : nat) (l : list A) : list A :=
  take (stop - start) (drop start l).

(** [s.replace(/\.jsonl$/g, '')]: drops one trailing [.jsonl]. *)
Definition strip_jsonl (s : string) : string :=
  let n := String.length s in
  if bool_decide (String.substring (n - 6) 6 s = ".jsonl" ∧ 6 ≤ n)
  then String.substring 0 (n - 6) s
  else s.

(** Code units, read as Latin-1. *)
Definition code (a : Ascii.ascii) : nat := Ascii.nat_of_ascii a.

(** White space and line terminators removed by [trim] (below 256: TAB, LF,
    VT, FF, CR, SP and NBSP). *)
Definition is_white (a : Ascii.ascii) : bool :=
  bool_decide (code a ∈ [9; 10; 11; 12; 13; 32; 160]).

Fixpoint trimStart (s : string) : string :=
  match s with
  | String a s' => if is_white a then trimStart s' else s
  | EmptyString => EmptyString
  end.

(** [s.trim()]. *)
Definition trim (s : string) : string :=
  String.rev (trimStart (String.rev (trimStart s))).

(** Lower case of one code unit: [A]-[Z], and the capital letters of the
    upper half of Latin-1 but the multiplication sign. *)
Definition lower (a : Ascii.ascii) : Ascii.ascii :=
  let n := code a in
  if bool_decide (65 ≤ n ≤ 90 ∨ (192 ≤ n ≤ 222 ∧ n ≠ 215))
  then Ascii.ascii_of_nat (n + 32) else a.

(** [s.toLowerCase()]. *)
Fixpoint toLowerCase (s : string) : string :=
  match s with
  | String a s' => String (lower a) (toLowerCase s')
  | EmptyString => EmptyString
  end.

(** A [Map] that is iterated: the entries in insertion order. *)
Definition ordered_map (V : Type) : Type := list (string * V).

(** [map.set(k, v)]: an existing key keeps its place. *)
Fixpoint map_set {V} (k : string) (v : V) (m : ordered_map V) : ordered_map V :=
  match m with
  | [] => [(k, v)]
  | (k', v') :: m' =>
      if decide (k' = k) then (k, v) :: m' else (k', v') :: map_set k v m'
  end.

(** [map.get(k)]. *)
Fixpoint map_get {V} (k : string) (m : ordered_map V) : option V :=
  match m with
  | [] => None
  | (k', v) :: m' => if decide (k' = k) then Some v else map_get k m'
  end.

End JS.

(** ** StorageRebuilder.js *)

Module StorageRebuilder.

(** [created_at: chatData.create_date || Date.now()]. *)
Inductive timestamp :=
  | FromFile (create_date : string)
  | FromClock (now : Z).

(** The branch data object pushed onto [branchDataList]. *)
Record branch := Branch {
  uuid : string;
  parent_uuid : option string;
  root_uuid : string;
  character_id : string;
  chat_name : string;
  branch_point : option Z;
  created_at : timestamp
}.

(** Lines written to the console. *)
Inductive console :=
  | OrphanedBranch (name parent : string)
  | FixedOrphaned (orphanedCount : nat)
  | CircularDependency (u : string)
  | BranchNotFound (u : string)
  | SkippingCheckpoint (name : string)
  | DuplicateUUID (u existing name : string)
  | ErrorReadingChat (name : string)
  | Collected (branches skipped : nat)
  | ErrorRegistering (name : string)
  | ErrorChecking (name : string)
  | CouldNotFetch (name : string)
  | ErrorMigrating (name : string).

(** [isCheckpointChat]: [chatName && chatName.includes('Checkpoint #')]. *)
Definition isCheckpointChat (chatName : string) : bool :=
  JS.str_truthy chatName && JS.includes chatName "Checkpoint #".

(** [{ ...branch, parent_uuid: null }]. *)
Definition with_parent_null (b : branch) : branch :=
  {| uuid := uuid b; parent_uuid := None; root_uuid := root_uuid b;
     character_id := character_id b; chat_name := chat_name b;
     branch_point := branch_point b; created_at := created_at b |}.

(** State of the loop of [validateAndFixBranches]. *)
Record validate_state := ValidateState {
  validated : list branch;
  orphanedCount : nat;
  validate_out : list console
}.

(** One iteration of [for (const branch of branches)]. *)
Definition validate_step (uuidToChatName : gmap string string)
    (st : validate_state) (b : branch) : validate_state :=
  match parent_uuid b with
  | Some p =>
      if JS.str_truthy p && negb (JS.has uuidToChatName p) then
        {| validated := validated st ++ [with_parent_null b];
           orphanedCount := S (orphanedCount st);
           validate_out := validate_out st ++ [OrphanedBranch (chat_name b) p] |}
      else
        {| validated := validated st ++ [b];
           orphanedCount := orphanedCount st;
           validate_out := validate_out st |}
  | None =>
      {| validated := validated st ++ [b];
         orphanedCount := orphanedCount st;
         validate_out := validate_out st |}
  end.

Definition validateAndFixBranches (branches : list branch)
    (uuidToChatName : gmap string string) : list branch * list console :=
  let st := foldl (validate_step uuidToChatName) (ValidateState [] 0 []) branches in
  (validated st,
   if bool_decide (0 < orphanedCount st)
   then validate_out st ++ [FixedOrphaned (orphanedCount st)]
   else validate_out st).

(** [new Map(branches.map(b => [b.uuid, b]))]: a later entry replaces an
    earlier one with the same key. *)
Definition branchMap_of (branches : list branch) : gmap string branch :=
  foldl (λ m b, <[uuid b := b]> m) ∅ branches.

(** The variables captured by the closure [visit]. *)
Record sort_state := SortState {
  visited : gset string;
  temp : gset string;
  sorted : list branch;
  sort_out : list console
}.

Definition sort_warn (c : console) (st : sort_state) : sort_state :=
  {| visited := visited st; temp := temp st; sorted := sorted st;
     sort_out := sort_out st ++ [c] |}.

Definition temp_add (u : string) (st : sort_state) : sort_state :=
  {| visited := visited st; temp := {[u]} ∪ temp st; sorted := sorted st;
     sort_out := sort_out st |}.

(** [temp.delete(uuid); visited.add(uuid); sorted.push(branch)]. *)
Definition finish (u : string) (b : branch) (st : sort_state) : sort_state :=
  {| visited := {[u]} ∪ visited st; temp := temp st ∖ {[u]};
     sorted := sorted st ++ [b]; sort_out := sort_out st |}.

(** The recursive closure [visit]; [fuel] bounds the depth of the recursion,
    [None] stands for a recursion that has not returned within it. *)
Fixpoint visit (branchMap : gmap string branch) (fuel : nat) (u : string)
    (st : sort_state) : option sort_state :=
  match fuel with
  | O => None
  | S fuel' =>
      if decide (u ∈ visited st) then Some st
      else if decide (u ∈ temp st) then Some (sort_warn (CircularDependency u) st)
      else
        match branchMap !! u with
        | None => Some (sort_warn (BranchNotFound u) st)
        | Some b =>
            let st1 := temp_add u st in
            st2 ← (match parent_uuid b with
                   | Some p => if JS.str_truthy p then visit branchMap fuel' p st1
                               else Some st1
                   | None => Some st1
                   end);
            Some (finish u b st2)
        end
  end.

(** [for (const branch of branches) visit(branch.uuid)]. *)
Definition visit_all (branchMap : gmap string branch) (fuel : nat)
    (branches : list branch) (st : sort_state) : option sort_state :=
  foldl (λ acc b, st' ← acc; visit branchMap fuel (uuid b) st') (Some st) branches.

(** Every level of the recursion adds a key of [branchMap] to [temp], so the
    depth never exceeds the number of branches plus one. *)
Definition sortBranchesForRegistration (branches : list branch)
    : option (list branch * list console) :=
  st ← visit_all (branchMap_of branches) (S (length branches)) branches
         (SortState ∅ ∅ [] []);
  Some (sorted st, sort_out st).

(** *** The bulk operation [rebuildStorageFromChats] *)

(** Calls that reach the host application or the console. *)
Inductive effect :=
  | Register (b : branch)
  | Save (avatar chatName : string)
  | Log (c : console).

(** What an observer of a bulk operation sees: [updateProgress(current,
    total, ...)], the length of each [batch] as it is sliced, the
    [setTimeout] pause, and the effects of the items. *)
Inductive event :=
  | Progress (current total : nat)
  | Chunk (size : nat)
  | Sleep (ms : nat)
  | Effect (e : effect).

Definition BATCH_SIZE : nat := 50.

(** The batch loop shared by [rebuildStorageFromChats] and
    [ChatMigrator.migrateAllChats]; [process] is the body of the [try] block
    of one item, with its [catch]. *)
Section Driver.
Context {item St : Type} (process : item → St → St * list effect).

(** [for (let i = 0; i < batch.length; i++)], with
    [globalIndex = startIdx + i]. *)
Fixpoint process_batch (total globalIndex : nat) (batch : list item) (s : St)
    : St * list event :=
  match batch with
  | [] => (s, [])
  | x :: rest =>
      let '(s1, effs) := process x s in
      let '(s2, tr) := process_batch total (S globalIndex) rest s1 in
      (s2, [Progress globalIndex total] ++ (Effect <$> effs) ++
           [Progress (globalIndex + 1) total] ++ tr)
  end.

(** One iteration of [for (let batchIndex = 0; batchIndex < totalBatches;
    batchIndex++)]. *)
Definition run_batch (items : list item) (totalBatches : nat)
    (acc : St * list event) (batchIndex : nat) : St * list event :=
  let startIdx := batchIndex * BATCH_SIZE in
  let endIdx := (startIdx + BATCH_SIZE) `min` length items in
  let batch := JS.slice startIdx endIdx items in
  let '(s1, tr) := process_batch (length items) startIdx batch acc.1 in
  (s1, acc.2 ++ [Chunk (length batch); Progress startIdx (length items)] ++ tr ++
       (if batchIndex <? totalBatches - 1
        then [Progress endIdx (length items); Sleep 500]
        else [])).

Definition run_batches (items : list item) (s : St) : St * list event :=
  let totalBatches := JS.ceil_div (length items) BATCH_SIZE in
  foldl (run_batch items totalBatches) (s, []) (seq 0 totalBatches).

End Driver.

(** An entry of the chat list of the host application. *)
Record chatData := ChatData {
  file_name : string;
  create_date : option string
}.

(** [firstEntry.chat_metadata]. *)
Record chat_metadata := ChatMetadata {
  meta_uuid : option string;
  meta_parent_uuid : option string;
  meta_root_uuid : option string;
  meta_branch_point : option Z
}.

(** What [fetchFullChatData] yields: it throws, it yields something that is
    not a non-empty array, or an array whose first entry may carry
    [chat_metadata]. *)
Inductive fetched :=
  | FetchThrows
  | NoEntries
  | FirstEntry (metadata : option chat_metadata).

Record character := Character {
  avatar : string;
  char_name : string
}.

(** [fetchAllChats]: it throws, or yields the list ([null] is the empty list). *)
Inductive fetched_chats :=
  | ChatsThrow (message : string)
  | Chats (chats : list chatData).

Record rebuild_result := RebuildResult {
  processedCount : nat;
  skippedCount : nat;
  rebuild_error : option string
}.

Section Rebuild.
(** The host application: its state [W] and the calls the rebuilder awaits. *)
Context {W : Type}.
Context (fetchAllChats : character → W → fetched_chats * W).
Context (fetchFullChatData : character → string → W → fetched * W).
Context (registerBranchWithPlugin : branch → W → bool * W).
Context (dateNow : W → Z).

(** [x || null] on a number. *)
Definition nonzero (z : option Z) : option Z :=
  match z with
  | Some n => if bool_decide (n = 0%Z) then None else Some n
  | None => None
  end.

(** [x || null] on a string. *)
Definition or_null (v : option string) : option string :=
  if JS.truthy v then v else None.

Record collect_state := CollectState {
  branchDataList : list branch;
  uuidToChatName : gmap string string;
  collect_skipped : nat;
  collect_trace : list event;
  collect_world : W
}.

Definition collect_emit (evs : list event) (skip : nat) (w : W)
    (st : collect_state) : collect_state :=
  {| branchDataList := branchDataList st; uuidToChatName := uuidToChatName st;
     collect_skipped := skip + collect_skipped st;
     collect_trace := collect_trace st ++ evs; collect_world := w |}.

(** One iteration of the first pass, [for (let i = 0; i < chats.length; i++)]. *)
Definition collect_step (ch : character) (total : nat) (st : collect_state)
    (ic : nat * chatData) : collect_state :=
  let '(i, chatData) := ic in
  let chatName := JS.strip_jsonl (file_name chatData) in
  let progress := Progress i total in
  if isCheckpointChat chatName then
    collect_emit [progress; Effect (Log (SkippingCheckpoint chatName))] 1
      (collect_world st) st
  else
    let '(full, w) := fetchFullChatData ch chatName (collect_world st) in
    match full with
    | FetchThrows =>
        collect_emit [progress; Effect (Log (ErrorReadingChat chatName))] 1 w st
    | NoEntries => collect_emit [progress] 1 w st
    | FirstEntry None => collect_emit [progress] 1 w st
    | FirstEntry (Some md) =>
        match meta_uuid md with
        | Some u =>
            if JS.str_truthy u then
              match uuidToChatName st !! u with
              | Some existing =>
                  collect_emit
                    [progress; Effect (Log (DuplicateUUID u existing chatName))] 1 w st
              | None =>
                  {| branchDataList := branchDataList st ++
                       [{| uuid := u;
                           parent_uuid := or_null (meta_parent_uuid md);
                           root_uuid := default u (or_null (meta_root_uuid md));
                           character_id := avatar ch;
                           chat_name := chatName;
                           branch_point := nonzero (meta_branch_point md);
                           created_at :=
                             match or_null (create_date chatData) with
                             | Some d => FromFile d
                             | None => FromClock (dateNow w)
                             end |}];
                     uuidToChatName := <[u := chatName]> (uuidToChatName st);
                     collect_skipped := collect_skipped st;
                     collect_trace := collect_trace st ++ [progress];
                     collect_world := w |}
              end
            else collect_emit [progress] 1 w st
        | None => collect_emit [progress] 1 w st
        end
    end.

(** The body of the registration loop: [registerBranchWithPlugin] resolves
    ([true]) or rejects ([false]). The state is the host and the two counters. *)
Definition register_item (b : branch) (s : W * (nat * nat))
    : W * (nat * nat) * list effect :=
  let '(w, (processed, skipped)) := s in
  let '(ok, w') := registerBranchWithPlugin b w in
  if ok then ((w', (S processed, skipped)), [Register b])
  else ((w', (processed, S skipped)),
        [Register b; Log (ErrorRegistering (chat_name b))]).

(** [rebuildStorageFromChats(character, progressPopup)]: the result and the
    trace of events; [None] only if the sequencer ran out of fuel. *)
Definition rebuildStorageFromChats (ch : character) (w : W)
    : option (rebuild_result * list event * W) :=
  let start := [Progress 0 0] in
  match fetchAllChats ch w with
  | (ChatsThrow msg, w0) => Some (RebuildResult 0 0 (Some msg), start, w0)
  | (Chats [], w0) => Some (RebuildResult 0 0 None, start, w0)
  | (Chats chats, w0) =>
      let n := length chats in
      let st := foldl (collect_step ch n)
                  (CollectState [] ∅ 0
                     (start ++ [Progress 0 n; Progress 0 n]) w0)
                  (imap pair chats) in
      let collected := branchDataList st in
      let '(validatedBranches, vlog) :=
        validateAndFixBranches collected (uuidToChatName st) in
      '(sortedBranches, slog) ← sortBranchesForRegistration validatedBranches;
      let '(w1, (processed, skipped), tr) :=
        run_batches register_item sortedBranches
          (collect_world st, (0, collect_skipped st)) in
      Some (RebuildResult processed skipped None,
            collect_trace st ++
            [Effect (Log (Collected (length collected) (collect_skipped st)));
             Progress 0 (length collected)] ++
            (Effect ∘ Log <$> vlog) ++
            [Progress 0 (length validatedBranches)] ++
            (Effect ∘ Log <$> slog) ++ tr,
            w1)
  end.

End Rebuild.

End StorageRebuilder.

(** ** ChatMigrator.js *)

Module ChatMigrator.
Import StorageRebuilder.

Record migrate_result := MigrateResult {
  successCount : nat;
  errorCount : nat;
  migrate_error : option string
}.

Section Migrate.
Context {W : Type}.
Context (fetchAllChats : character → W → fetched_chats * W).
Context (fetchFullChatData : character → string → W → fetched * W).
Context (uuidv4 : W → string * W).
(** [migrateChatMetadata] catches its own errors and answers [false]. *)
Context (migrateChatMetadata : string → string → W → bool * W).
Context (registerBranchWithPlugin : branch → W → bool * W).
Context (dateNow : W → Z).

(** [chatNeedsMigration]: a failed fetch or missing metadata means yes. *)
Definition chatNeedsMigration (ch : character) (chatName : string) (w : W)
    : bool * W * list effect :=
  let '(full, w') := fetchFullChatData ch chatName w in
  match full with
  | FetchThrows => (true, w', [Log (ErrorChecking chatName)])
  | NoEntries | FirstEntry None => (true, w', [])
  | FirstEntry (Some md) =>
      (negb (JS.truthy (meta_uuid md)) || negb (JS.truthy (meta_root_uuid md)),
       w', [])
  end.

Definition migrated_branch (ch : character) (chatData : chatData)
    (chatName u root : string) (parent : option string) (w : W) : branch :=
  {| uuid := u; parent_uuid := or_null parent; root_uuid := root;
     character_id := avatar ch; chat_name := chatName; branch_point := None;
     created_at := match or_null (create_date chatData) with
                   | Some d => FromFile d
                   | None => FromClock (dateNow w)
                   end |}.

Definition failed (chatName : string) (w : W) (counts : nat * nat)
    : W * (nat * nat) * list effect :=
  ((w, (counts.1, S counts.2)), [Log (ErrorMigrating chatName)]).

(** The [try] block of the migration loop for one chat, after the check. *)
Definition migrate_checked (ch : character) (chatData : chatData)
    (chatName : string) (needsMigration : bool) (w1 : W) (counts : nat * nat)
    : W * (nat * nat) * list effect :=
  let '(full, w2) := fetchFullChatData ch chatName w1 in
  if needsMigration then
    match full with
    | FetchThrows => failed chatName w2 counts
    | NoEntries => ((w2, (counts.1, S counts.2)), [Log (CouldNotFetch chatName)])
    | FirstEntry md =>
        let '(u, w3) :=
          match or_null (md ≫= meta_uuid) with
          | Some u => (u, w2)
          | None => uuidv4 w2
          end in
        let root := default u (or_null (md ≫= meta_root_uuid)) in
        let '(success, w4) := migrateChatMetadata (avatar ch) chatName w3 in
        if success then
          let b := migrated_branch ch chatData chatName u root
                     (md ≫= meta_parent_uuid) w4 in
          let '(ok, w5) := registerBranchWithPlugin b w4 in
          if ok then ((w5, (S counts.1, counts.2)),
                      [Save (avatar ch) chatName; Register b])
          else ((w5, (counts.1, S counts.2)),
                [Save (avatar ch) chatName; Register b; Log (ErrorMigrating chatName)])
        else ((w4, (counts.1, S counts.2)), [Save (avatar ch) chatName])
    end
  else
    match full with
    | FetchThrows => failed chatName w2 counts
    | NoEntries | FirstEntry None => ((w2, counts), [])
    | FirstEntry (Some md) =>
        match or_null (meta_uuid md) with
        | Some u =>
            let b := migrated_branch ch chatData chatName u
                       (default u (or_null (meta_root_uuid md)))
                       (meta_parent_uuid md) w2 in
            let '(ok, w3) := registerBranchWithPlugin b w2 in
            if ok then ((w3, counts), [Register b])
            else ((w3, (counts.1, S counts.2)),
                  [Register b; Log (ErrorMigrating chatName)])
        | None => ((w2, counts), [])
        end
    end.

(** The body of the migration loop for one chat, with its [catch]. *)
Definition migrate_item (ch : character) (chatData : chatData)
    (s : W * (nat * nat)) : W * (nat * nat) * list effect :=
  let chatName := JS.strip_jsonl (file_name chatData) in
  let '(needsMigration, w1, checked) := chatNeedsMigration ch chatName s.1 in
  let '(s', effs) := migrate_checked ch chatData chatName needsMigration w1 s.2 in
  (s', checked ++ effs).

(** [migrateAllChats(character, progressPopup)]. *)
Definition migrateAllChats (ch : character) (w : W)
    : migrate_result * list event * W :=
  let start := [Progress 0 0] in
  match fetchAllChats ch w with
  | (ChatsThrow msg, w0) => (MigrateResult 0 0 (Some msg), start, w0)
  | (Chats [], w0) => (MigrateResult 0 0 None, start, w0)
  | (Chats chats, w0) =>
      let '(w1, (success, errors), tr) :=
        run_batches (migrate_item ch) chats (w0, (0, 0)) in
      (MigrateResult success errors None,
       start ++ [Progress 0 (length chats)] ++ tr, w1)
  end.

End Migrate.

End ChatMigrator.

(** ** ChatTreeView.js *)

Module ChatTreeView.

(** A node of the tree the plugin answers with. *)
Inductive tnode :=
  | TNode (t_uuid t_chat_name : string) (t_parent_uuid : option string)
          (t_children : list tnode).

Definition t_uuid (t : tnode) : string := let 'TNode u _ _ _ := t in u.
Definition t_chat_name (t : tnode) : string := let 'TNode _ n _ _ := t in n.
Definition t_children (t : tnode) : list tnode := let 'TNode _ _ _ cs := t in cs.

(** A chat of the legacy path, after [hydrateChatMetadata]. *)
Record legacy_chat := LegacyChat {
  cleanName : string;
  metadata_uuid : option string;
  metadata_parent_uuid : option string
}.

Inductive node_data :=
  | TreeData (t : tnode)
  | LegacyData (c : legacy_chat).

(** The internal node object. Nodes refer to each other, so they live in a
    heap: a reference is the index of the object in allocation order. *)
Record inode := INode {
  n_id : string;
  n_name : string;
  n_parentId : option string;
  n_children : list nat;
  n_data : node_data;
  n_parent : option nat
}.

(** The fields of the view that the tree logic reads and writes. *)
Record view := View {
  heap : list inode;
  nodeMap : JS.ordered_map nat;
  allTreeRoots : list nat;
  treeRoots : list nat;
  currentNode : option nat;
  currentRootNode : option nat;
  currentChatFile : string;
  currentChatUUID : option string
}.

(** [internalNode.children.push(childNode)] on the object at [a]. *)
Definition push_child (a child : nat) (h : list inode) : list inode :=
  alter (λ nd, {| n_id := n_id nd; n_name := n_name nd;
                  n_parentId := n_parentId nd;
                  n_children := n_children nd ++ [child];
                  n_data := n_data nd; n_parent := n_parent nd |}) a h.

(** The closure [processNode(node, parent)]: it allocates the internal node,
    enters it in [nodeMap], then processes the children in order. *)
Fixpoint processNode (node : tnode) (parent : option nat)
    (s : list inode * JS.ordered_map nat) : nat * (list inode * JS.ordered_map nat) :=
  match node with
  | TNode u name pu cs =>
      let a := length s.1 in
      let s0 := (s.1 ++ [INode u name pu [] (TreeData node) parent],
                 JS.map_set u a s.2) in
      (a, foldl (λ s1 child,
                   let '(c, s2) := processNode child (Some a) s1 in
                   (push_child a c s2.1, s2.2))
                s0 cs)
  end.

(** [treeArray.map(root => processNode(root))]. *)
Definition process_roots (treeArray : list tnode)
    (s : list inode * JS.ordered_map nat)
    : list nat * (list inode * JS.ordered_map nat) :=
  foldl (λ acc root, let '(r, s') := processNode root None acc.2 in
                     (acc.1 ++ [r], s'))
        ([], s) treeArray.

Definition id_of (h : list inode) (a : nat) : option string := n_id <$> h !! a.

(** [self.findIndex(r => r.id === root.id)]. *)
Definition findIndex_id (h : list inode) (self : list nat) (root : nat)
    : option nat :=
  fst <$> list_find (λ r, id_of h r = id_of h root) self.

(** [roots.filter((root, index, self) => self.findIndex(...) === index)]. *)
Definition dedupe_roots (h : list inode) (roots : list nat) : list nat :=
  omap (λ ir, if bool_decide (findIndex_id h roots ir.2 = Some ir.1)
              then Some ir.2 else None)
       (imap pair roots).

Definition buildNodeMapFromTree (treeArray : list tnode) (st : view) : view :=
  let '(roots, (h, m)) := process_roots treeArray (heap st, []) in
  let roots' := dedupe_roots h roots in
  {| heap := h; nodeMap := m; allTreeRoots := roots'; treeRoots := roots';
     currentNode := currentNode st; currentRootNode := currentRootNode st;
     currentChatFile := currentChatFile st;
     currentChatUUID := currentChatUUID st |}.

Definition name_of (h : list inode) (a : nat) : string :=
  from_option n_name "" (h !! a).

(** [for (const [uuid, node] of this.nodeMap) if (test(node)) return node]. *)
Fixpoint first_node (test : nat → bool) (m : JS.ordered_map nat) : option nat :=
  match m with
  | [] => None
  | (_, node) :: m' => if test node then Some node else first_node test m'
  end.

Definition set_currentNode (n : option nat) (st : view) : view :=
  {| heap := heap st; nodeMap := nodeMap st; allTreeRoots := allTreeRoots st;
     treeRoots := treeRoots st; currentNode := n;
     currentRootNode := currentRootNode st;
     currentChatFile := currentChatFile st;
     currentChatUUID := currentChatUUID st |}.

(** [findCurrentNode()], without its console output. Each stage either
    returns ([inl]) or falls through to the next one ([inr]). *)
Definition find_by_uuid (st : view) : view + view :=
  match currentChatUUID st with
  | Some u =>
      if JS.str_truthy u then
        match JS.map_get u (nodeMap st) with
        | Some node => inl (set_currentNode (Some node) st)
        | None => inr st
        end
      else inr st
  | None => inr st
  end.

Definition find_by_name (st : view) : view + view :=
  match first_node (λ n, bool_decide (name_of (heap st) n = currentChatFile st))
                   (nodeMap st) with
  | Some node => inl (set_currentNode (Some node) st)
  | None => inr st
  end.

Definition find_ignoring_case (st : view) : view + view :=
  if bool_decide (currentNode st = None) then
    let currentFileLower := JS.trim (JS.toLowerCase (currentChatFile st)) in
    match first_node
            (λ n, bool_decide
                    (JS.trim (JS.toLowerCase (name_of (heap st) n)) = currentFileLower))
            (nodeMap st) with
    | Some node => inl (set_currentNode (Some node) st)
    | None => inr st
    end
  else inr st.

Definition find_partial (st : view) : view :=
  if bool_decide (currentNode st = None) then
    let currentFileLower := JS.trim (JS.toLowerCase (currentChatFile st)) in
    match first_node
            (λ n, let nodeNameLower := JS.trim (JS.toLowerCase (name_of (heap st) n)) in
                  JS.includes nodeNameLower currentFileLower ||
                  JS.includes currentFileLower nodeNameLower)
            (nodeMap st) with
    | Some node => set_currentNode (Some node) st
    | None => st
    end
  else st.

Definition find_fallback (st : view) : view :=
  if bool_decide (currentNode st = None) then
    match nodeMap st with
    | (_, firstNode) :: _ => set_currentNode (Some firstNode) st
    | [] => st
    end
  else st.

Definition findCurrentNode (st : view) : view :=
  let st := set_currentNode None st in
  match find_by_uuid st with
  | inl done => done
  | inr st =>
      match find_by_name st with
      | inl done => done
      | inr st =>
          match find_ignoring_case st with
          | inl done => done
          | inr st => find_fallback (find_partial st)
          end
      end
  end.

(** [while (root.parent) root = root.parent]; [None] when the loop has not
    ended within [fuel] steps. *)
Fixpoint climb (h : list inode) (fuel : nat) (root : nat) : option nat :=
  match fuel with
  | O => None
  | S fuel' =>
      match h !! root with
      | Some nd =>
          match n_parent nd with
          | Some p => climb h fuel' p
          | None => Some root
          end
      | None => None
      end
  end.

(** [isolateActiveTree()]. A parent is allocated before its children, so
    the climb takes at most as many steps as there are objects. *)
Definition isolateActiveTree (st : view) : option view :=
  match currentNode st with
  | None =>
      Some {| heap := heap st; nodeMap := nodeMap st;
              allTreeRoots := allTreeRoots st; treeRoots := allTreeRoots st;
              currentNode := currentNode st;
              currentRootNode := currentRootNode st;
              currentChatFile := currentChatFile st;
              currentChatUUID := currentChatUUID st |}
  | Some node =>
      root ← climb (heap st) (S (length (heap st))) node;
      Some {| heap := heap st; nodeMap := nodeMap st;
              allTreeRoots := allTreeRoots st; treeRoots := [root];
              currentNode := currentNode st; currentRootNode := Some root;
              currentChatFile := currentChatFile st;
              currentChatUUID := currentChatUUID st |}
  end.

(** *** The legacy path: [buildGraphLegacy] *)

(** [c.metadata.uuid || `legacy_${c.cleanName}`]. *)
Definition legacy_id (c : legacy_chat) : string :=
  match metadata_uuid c with
  | Some u => if JS.str_truthy u then u else "legacy_" +:+ cleanName c
  | None => "legacy_" +:+ cleanName c
  end.

(** Pass 1: one node per chat, entered in [nodeMap] and [nodesByName]. *)
Definition legacy_create (s : list inode * JS.ordered_map nat * JS.ordered_map nat)
    (c : legacy_chat) : list inode * JS.ordered_map nat * JS.ordered_map nat :=
  let '(h, m, byName) := s in
  let a := length h in
  (h ++ [INode (legacy_id c) (cleanName c) (metadata_parent_uuid c) []
               (LegacyData c) None],
   JS.map_set (legacy_id c) a m, JS.map_set (cleanName c) a byName).

Definition set_parent (a parent : nat) (h : list inode) : list inode :=
  alter (λ nd, {| n_id := n_id nd; n_name := n_name nd;
                  n_parentId := n_parentId nd; n_children := n_children nd;
                  n_data := n_data nd; n_parent := Some parent |}) a h.

(** Pass 2: [for (const node of this.nodeMap.values())]. *)
Definition legacy_link (m : JS.ordered_map nat) (s : list inode * list nat)
    (node : nat) : list inode * list nat :=
  let '(h, roots) := s in
  match h !! node ≫= n_parentId with
  | Some pid =>
      if JS.str_truthy pid then
        match JS.map_get pid m with
        | Some parent => (set_parent node parent (push_child parent node h), roots)
        | None => (h, roots ++ [node])
        end
      else (h, roots ++ [node])
  | None => (h, roots ++ [node])
  end.

Definition buildGraphLegacy (chats : list legacy_chat) (st : view) : view :=
  let '(h, m, byName) := foldl legacy_create (heap st, [], []) chats in
  let '(h', roots) := foldl (legacy_link m) (h, []) (snd <$> m) in
  {| heap := h'; nodeMap := m; allTreeRoots := allTreeRoots st;
     treeRoots := roots;
     currentNode := JS.map_get (currentChatFile st) byName;
     currentRootNode := currentRootNode st;
     currentChatFile := currentChatFile st;
     currentChatUUID := currentChatUUID st |}.

(** *** The expanded set *)

(** The fields of the view that say which nodes are expanded and which
    node, if any, is being renamed. *)
Record ui := UI {
  expandedUUIDs : gset string;
  isRenaming : bool;
  renameNode : option nat
}.

(** The loop of [expandActivePath]: [if (curr.parent) add(curr.parent.id);
    curr = curr.parent], [None] when it has not ended within [fuel] steps. *)
Fixpoint expand_path (h : list inode) (fuel : nat) (curr : nat)
    (expanded : gset string) : option (gset string) :=
  match fuel with
  | O => None
  | S fuel' =>
      match h !! curr with
      | Some nd =>
          match n_parent nd with
          | Some p =>
              match id_of h p with
              | Some pid => expand_path h fuel' p ({[pid]} ∪ expanded)
              | None => None
              end
          | None => Some expanded
          end
      | None => None
      end
  end.

(** [expandActivePath()]. *)
Definition expandActivePath (st : view) (u : ui) : option ui :=
  match currentNode st with
  | None => Some u
  | Some curr =>
      expanded ← expand_path (heap st) (S (length (heap st))) curr (expandedUUIDs u);
      Some {| expandedUUIDs := expanded; isRenaming := isRenaming u;
              renameNode := renameNode u |}
  end.

(** [expandAllNodes()], before it renders. *)
Definition expandAllNodes (st : view) (u : ui) : ui :=
  {| expandedUUIDs :=
       foldl (λ expanded node,
                match heap st !! node with
                | Some nd => if 0 <? length (n_children nd)
                             then {[n_id nd]} ∪ expanded else expanded
                | None => expanded
                end)
             (expandedUUIDs u) (snd <$> nodeMap st);
     isRenaming := isRenaming u; renameNode := renameNode u |}.

(** *** [verifyChatExists] *)

(** One turn of the loop of [findChatInTree]: the node, then its children. *)
Fixpoint chat_in_node (chatName : string) (node : tnode) : bool :=
  match node with
  | TNode _ chat_name _ children =>
      bool_decide (chat_name = chatName) || existsb (chat_in_node chatName) children
  end.

(** The closure [findChatInTree(nodes)] of [verifyChatExists]. *)
Definition findChatInTree (chatName : string) (nodes : list tnode) : bool :=
  existsb (chat_in_node chatName) nodes.

(** The body of the answer to [GET /tree/:characterId]: [json()] throws,
    the body reports no success or carries no tree, or it carries a tree. *)
Inductive tree_body :=
  | BodyThrows
  | BodyFailure
  | BodyTree (tree : list tnode).

(** The answer itself: [fetch] throws, or there is a response. *)
Inductive tree_response :=
  | NoResponse
  | Response (ok : bool) (body : tree_body).

(** An entry of [character.chat_items]: a string, or an object (not [null])
    with or without a [file] that is a string. *)
Inductive chat_item :=
  | ItemString (file : string)
  | ItemObject (file : option string).

(** [typeof chat === 'object' ? chat.file : chat]. *)
Definition chatFile (chat : chat_item) : option string :=
  match chat with ItemString f => Some f | ItemObject f => f end.

(** [verifyChatExists(chatName)]: [character] is [characters[this_chid]]
    with its [chat_items], when it has an array there. *)
Definition verifyChatExists (character : option (option (list chat_item)))
    (fetchTree : tree_response) (chatName : string) : bool :=
  match character with
  | None => false
  | Some chat_items =>
      if existsb (λ chat, bool_decide (chatFile chat = Some chatName))
                 (default [] chat_items)
      then true
      else match fetchTree with
           | Response true (BodyTree tree) => findChatInTree chatName tree
           | _ => false
           end
  end.

End ChatTreeView.

(** ** ChatRenameHandler.js *)

Module ChatRenameHandler.

(** A node of the tree handed to the validator, which only reads it. *)
Inductive rnode :=
  | RNode (r_id r_name : string) (r_children : list rnode).

(** The one field of the handler that changes: [INVALID_CHARS] carries the
    [g] flag, so [test] reads and writes its [lastIndex]. *)
Record handler := Handler {
  lastIndex : nat
}.

Definition MAX_FILENAME_LENGTH : nat := 255.

(** The character class of the pattern: less-than, greater-than, colon,
    double quote, slash, backslash, bar, question mark and asterisk. *)
Definition invalid_char (a : Ascii.ascii) : bool :=
  bool_decide (JS.code a ∈ [60; 62; 58; 34; 47; 92; 124; 63; 42]).

(** Index of the first code unit of [s] in the class. *)
Fixpoint search (s : string) : option nat :=
  match s with
  | EmptyString => None
  | String a s' => if invalid_char a then Some 0 else S <$> search s'
  end.

(** [String.prototype.substring(i)]. *)
Fixpoint string_drop (i : nat) (s : string) : string :=
  match i, s with
  | S i', String _ s' => string_drop i' s'
  | _, _ => s
  end.

(** [this.INVALID_CHARS.test(s)]: the search starts at [lastIndex]; a match
    leaves [lastIndex] after it, a failure resets it to 0. *)
Definition INVALID_CHARS_test (s : string) (h : handler) : bool * handler :=
  if bool_decide (String.length s < lastIndex h) then (false, Handler 0)
  else
    match search (string_drop (lastIndex h) s) with
    | Some j => (true, Handler (lastIndex h + j + 1))
    | None => (false, Handler 0)
    end.

(** Upper case of an ASCII letter, as the [i] flag compares. *)
Definition upper (a : Ascii.ascii) : Ascii.ascii :=
  let n := JS.code a in
  if bool_decide (97 ≤ n ≤ 122) then Ascii.ascii_of_nat (n - 32) else a.

Fixpoint toUpper (s : string) : string :=
  match s with
  | String a s' => String (upper a) (toUpper s')
  | EmptyString => EmptyString
  end.

(** [this.RESERVED_NAMES.test(s)], for
    [/^(CON|PRN|AUX|NUL|COM[1-9]|LPT[1-9])$/i]. *)
Definition RESERVED_NAMES_test (s : string) : bool :=
  bool_decide (toUpper s ∈
    ["CON"; "PRN"; "AUX"; "NUL";
     "COM1"; "COM2"; "COM3"; "COM4"; "COM5"; "COM6"; "COM7"; "COM8"; "COM9";
     "LPT1"; "LPT2"; "LPT3"; "LPT4"; "LPT5"; "LPT6"; "LPT7"; "LPT8"; "LPT9"]).

(** [checkNodeForDuplicate(node, newName, excludeUuid)]. *)
Fixpoint checkNodeForDuplicate (node : rnode) (newName : string)
    (excludeUuid : option string) : bool :=
  match node with
  | RNode id name children =>
      if bool_decide (Some id ≠ excludeUuid) && bool_decide (name = newName)
      then true
      else existsb (λ child, checkNodeForDuplicate child newName excludeUuid)
                   children
  end.

(** [hasDuplicateName(newName, treeRoots, excludeUuid)]. *)
Definition hasDuplicateName (newName : string) (treeRoots : list rnode)
    (excludeUuid : option string) : bool :=
  existsb (λ root, checkNodeForDuplicate root newName excludeUuid) treeRoots.

(** [{ valid, error }]. *)
Record validation := Validation {
  valid : bool;
  error : option string
}.

(** [validateName(newName, treeRoots, excludeUuid)], with the handler before
    and after the call. *)
Definition validateName (newName : string) (treeRoots : list rnode)
    (excludeUuid : option string) (h : handler) : validation * handler :=
  if negb (JS.str_truthy newName) || (String.length (JS.trim newName) =? 0) then
    (Validation false (Some "Chat name cannot be empty"), h)
  else
    let trimmedName := JS.trim newName in
    if MAX_FILENAME_LENGTH <? String.length trimmedName then
      (Validation false (Some "Name too long (max 255 characters)"), h)
    else
      let '(invalid, h') := INVALID_CHARS_test trimmedName h in
      if invalid then
        (Validation false
           (Some ("Name contains invalid characters: < > : " +:+
                  String (Ascii.ascii_of_nat 34) " / \ | ? *")), h')
      else if RESERVED_NAMES_test trimmedName then
        (Validation false (Some "Name is reserved by the system"), h')
      else if hasDuplicateName trimmedName treeRoots excludeUuid then
        (Validation false (Some "A chat with this name already exists"), h')
      else (Validation true None, h').

End ChatRenameHandler.

(** ** MessageViewerPopup.js *)

Module MessageViewerPopup.

(** [s.replace(/c/g, by)] for a pattern of one character. *)
Fixpoint replace_all (c : Ascii.ascii) (by_ : string) (s : string) : string :=
  match s with
  | EmptyString => EmptyString
  | String a s' =>
      if Ascii.eqb a c then by_ +:+ replace_all c by_ s'
      else String a (replace_all c by_ s')
  end.

(** The five characters, by code: ampersand, less-than, greater-than,
    double quote and apostrophe. *)
Definition amp : Ascii.ascii := Ascii.ascii_of_nat 38.
Definition less : Ascii.ascii := Ascii.ascii_of_nat 60.
Definition greater : Ascii.ascii := Ascii.ascii_of_nat 62.
Definition quot : Ascii.ascii := Ascii.ascii_of_nat 34.
Definition apos : Ascii.ascii := Ascii.ascii_of_nat 39.

(** [escapeHtml(text)], on a string. *)
Definition escapeHtml (text : string) : string :=
  if negb (JS.str_truthy text) then ""
  else
    replace_all apos "&#039;"
      (replace_all quot "&quot;"
         (replace_all greater "&gt;"
            (replace_all less "&lt;"
               (replace_all amp "&amp;" text)))).

End MessageViewerPopup.

(** ** index.js *)

Module Index.

Import ChatTreeView.

(** [for (const x of l) { const r = f(x); if (r) return r; } return null]. *)
Definition first_result {A B} (f : A → option B) : list A → option B :=
  fix loop (l : list A) : option B :=
    match l with
    | [] => None
    | x :: rest => match f x with Some r => Some r | None => loop rest end
    end.

(** One turn of the loop of [findAndDelete]: the uuid handed to
    [deleteBranchFromPlugin(node.uuid, true)], if any. *)
Fixpoint delete_in_node (chatName : string) (node : tnode) : option string :=
  match node with
  | TNode uuid chat_name _ children =>
      if bool_decide (chat_name = chatName) then Some uuid
      else first_result (delete_in_node chatName) children
  end.

(** The closure [findAndDelete(nodes)] of the [CHAT_DELETED] handler. *)
Definition findAndDelete (chatName : string) (nodes : list tnode) : option string :=
  first_result (delete_in_node chatName) nodes.

(** A [DELETE /branch/:uuid?cascade=...] request. *)
Inductive delete_request := DeleteBranch (uuid : string) (cascade : bool).

(** [deleteBranchFromPlugin(uuid, cascade)]: the request it sends. *)
Definition deleteBranchFromPlugin (enabled pluginRunning : bool) (uuid : string)
    (cascade : bool) : list delete_request :=
  if negb enabled || negb pluginRunning || negb (JS.str_truthy uuid) then []
  else [DeleteBranch uuid cascade].

(** The handler of [CHAT_DELETED]: the [DELETE] requests it sends.
    [character] is [characters[this_chid]] with its [avatar]. *)
Definition on_chat_deleted (selected_group enabled pluginRunning : bool)
    (character : option (option string)) (fetchTree : tree_response)
    (chatName : string) : list delete_request :=
  if selected_group then []
  else if negb enabled then []
  else
    match character with
    | None => []
    | Some characterId =>
        if negb (JS.truthy characterId) then []
        else
          match fetchTree with
          | Response _ (BodyTree tree) =>
              match findAndDelete chatName tree with
              | Some uuid => deleteBranchFromPlugin enabled pluginRunning uuid true
              | None => []
              end
          | _ => []
          end
    end.

End Index.

(** ** Specification vocabulary for the registration sequencer *)

Section Graph.
Import StorageRebuilder.

(** [chain R l]: consecutive elements of [l] are related by [R]. *)
Fixpoint chain {A} (R : A → A → Prop) (l : list A) : Prop :=
  match l with
  | x :: (y :: _) as t => R x y ∧ chain R t
  | _ => True
  end.

(** Record [c] names [p] as its (non-null) parent. *)
Definition parent_link (bs : list branch) (c p : string) : Prop :=
  ∃ b, b ∈ bs ∧ uuid b = c ∧ parent_uuid b = Some p.

(** [cyc] is a cycle of parent links of [bs]. *)
Definition parent_cycle (bs : list branch) (cyc : list string) : Prop :=
  ∃ c rest, cyc = c :: rest ∧ chain (parent_link bs) cyc ∧
            parent_link bs (List.last cyc c) c.

Definition acyclic (bs : list branch) : Prop := ∀ cyc, ¬ parent_cycle bs cyc.

(** Every non-null parent is the uuid of a record of the list. *)
Definition parents_resolve (bs : list branch) : Prop :=
  ∀ b p, b ∈ bs → parent_uuid b = Some p → ∃ pb, pb ∈ bs ∧ uuid pb = p.

(** In [out], the parent record of every record with a non-null parent
    stands at a strictly smaller index. *)
Definition parents_first (out : list branch) : Prop :=
  ∀ j b p, out !! j = Some b → parent_uuid b = Some p →
    ∃ i pb, i < j ∧ out !! i = Some pb ∧ uuid pb = p.

(** The same for the records with a non-null, non-empty parent. *)
Definition nonempty_parents_first (out : list branch) : Prop :=
  ∀ j b p, out !! j = Some b → parent_uuid b = Some p → p ≠ "" →
    ∃ i pb, i < j ∧ out !! i = Some pb ∧ uuid pb = p.

End Graph.

Import StorageRebuilder ChatMigrator ChatTreeView ChatRenameHandler.

#[global] Instance timestamp_eq_dec : EqDecision timestamp.
Proof. solve_decision. Defined.
#[global] Instance branch_eq_dec : EqDecision branch.
Proof. solve_decision. Defined.
#[global] Instance console_eq_dec : EqDecision console.
Proof. solve_decision. Defined.
#[global] Instance effect_eq_dec : EqDecision effect.
Proof. solve_decision. Defined.
#[global] Instance event_eq_dec : EqDecision event.
Proof. solve_decision. Defined.

(** ** Specification vocabulary for the orphan repair *)

(** The parent is non-null and not a key of the known universe. *)
Definition orphaned_nonnull (known : gmap string string) (b : branch) : bool :=
  match parent_uuid b with
  | Some p => negb (JS.has known p)
  | None => false
  end.

(** The same, for a parent the code takes for a value: a non-empty one. *)
Definition orphaned (known : gmap string string) (b : branch) : bool :=
  match parent_uuid b with
  | Some p => JS.str_truthy p && negb (JS.has known p)
  | None => false
  end.

(** The diagnostic issued for an orphan. *)
Definition orphan_warning (b : branch) : console :=
  OrphanedBranch (chat_name b) (default "" (parent_uuid b)).

Definition is_orphan_warning (c : console) : bool :=
  match c with OrphanedBranch _ _ => true | _ => false end.

(** The known universe of a batch: uuid to chat name. *)
Definition universe_of (bs : list branch) : gmap string string :=
  foldl (λ m b, <[uuid b := chat_name b]> m) ∅ bs.

(** The repair as the specification words it, for every non-null parent
    outside the universe. *)
Definition repairs_nonnull_orphans (bs : list branch) (known : gmap string string) : Prop :=
  (validateAndFixBranches bs known).1
    = map (λ b, if orphaned_nonnull known b then with_parent_null b else b) bs ∧
  length (filter (λ c, is_orphan_warning c = true) (validateAndFixBranches bs known).2)
    = length (filter (λ b, orphaned_nonnull known b = true) bs).

(** ** Invariants of the registration sequencer *)

(** In the branch map [m], the record [c] has the non-empty parent [p]: the
    links [visit] follows. *)
Definition follows (m : gmap string branch) (c p : string) : Prop :=
  ∃ b, m !! c = Some b ∧ parent_uuid b = Some p ∧ p ≠ "".

(** [u] lies on a cycle of such links. *)
Definition on_cycle (m : gmap string branch) (u : string) : Prop :=
  ∃ l x, chain (follows m) (u :: l) ∧ last (u :: l) = Some x ∧ follows m x u.

(** What holds of the state between two calls of [visit]. *)
Record sort_inv (m : gmap string branch) (st : sort_state) : Prop := SortInv {
  inv_nodup : NoDup ((uuid <$> sorted st));
  inv_map : ∀ b, b ∈ sorted st → m !! uuid b = Some b;
  inv_visited : ∀ u, u ∈ visited st ↔ u ∈ (uuid <$> sorted st);
  inv_order : ∀ l1 b l2 p, sorted st = l1 ++ b :: l2 → parent_uuid b = Some p →
    p ≠ "" → is_Some (m !! p) →
    p ∈ (uuid <$> l1) ∨ CircularDependency p ∈ sort_out st;
  inv_cycle : ∀ p, CircularDependency p ∈ sort_out st → on_cycle m p
}.

(** [temp] holds the records on the recursion stack [stk], which is a chain
    of links. *)
Definition stack_ok (m : gmap string branch) (st : sort_state) (stk : list string) : Prop :=
  (∀ u, u ∈ temp st ↔ u ∈ stk) ∧ chain (follows m) stk.

(** The cycle diagnostic as the specification words it, for one input. *)
Definition cycle_reported (bs : list branch) : Prop :=
  ∀ cyc, parent_cycle bs cyc →
    ∃ out log, sortBranchesForRegistration bs = Some (out, log) ∧ out ≡ₚ bs ∧
               ∃ u, u ∈ cyc ∧ CircularDependency u ∈ log.

(** ** Observations of a trace of the batch driver *)

Definition chunk_sizes (tr : list event) : list nat :=
  omap (λ e, match e with Chunk n => Some n | _ => None end) tr.

Definition pauses (tr : list event) : list nat :=
  omap (λ e, match e with Sleep ms => Some ms | _ => None end) tr.

Definition progress_counts (tr : list event) : list nat :=
  omap (λ e, match e with Progress c _ => Some c | _ => None end) tr.

Definition effects (tr : list event) : list effect :=
  omap (λ e, match e with Effect x => Some x | _ => None end) tr.

(** [climbs a l b]: starting from [a], the counts [l] never decrease and end at [b]. *)
Fixpoint climbs (a : nat) (l : list nat) (b : nat) : Prop :=
  match l with
  | [] => a = b
  | x :: l' => a ≤ x ∧ climbs x l' b
  end.

(** The size of chunk [k] of [n] items. *)
Definition chunk_size (n k : nat) : nat := ((k * 50 + 50) `min` n) - k * 50.

(** The items handled one after the other, with no chunking. *)
Section Sequential.
Context {item St : Type} (process : item → St → St * list effect).

Fixpoint sequential (items : list item) (s : St) : St * list effect :=
  match items with
  | [] => (s, [])
  | x :: rest =>
      ((sequential rest (process x s).1).1,
       (process x s).2 ++ (sequential rest (process x s).1).2)
  end.

End Sequential.

(** ** The run of the batch driver, as the specification words it *)

Section Chunked.
Context {item St : Type} (process : item → St → St * list effect).

(** The items cut into chunks of 50, the last one holding what is left. *)
Fixpoint chunks (fuel : nat) (items : list item) : list (list item) :=
  match fuel, items with
  | S fuel', _ :: _ => take 50 items :: chunks fuel' (drop 50 items)
  | _, _ => []
  end.

(** What is observed of the items of one chunk, [done] items being handled
    before it: for each item in turn, the progress report before it, its
    effects, and the progress report after it. *)
Fixpoint handled (total done : nat) (chunk : list item) (s : St) : list event :=
  match chunk with
  | [] => []
  | x :: rest =>
      [Progress done total] ++ (Effect <$> (process x s).2) ++
      [Progress (done + 1) total] ++ handled total (S done) rest (process x s).1
  end.

(** What is observed of a run: the chunks one after the other, each
    announced with its size and handled item by item from the state the
    chunks before it have left, and a pause of 500 ms, with its progress
    report, after every chunk but the last. *)
Fixpoint chunked (total done : nat) (cs : list (list item)) (s : St) : list event :=
  match cs with
  | [] => []
  | c :: rest =>
      [Chunk (length c); Progress done total] ++ handled total done c s ++
      match rest with
      | [] => []
      | _ :: _ => [Progress (done + length c) total; Sleep 500]
      end ++
      chunked total (done + length c) rest (sequential process c s).1
  end.

End Chunked.

(** ** Invariant of the collecting pass of the rebuild *)

(** The chat is a checkpoint (bookmark). *)
Definition is_checkpoint_file (c : chatData) : bool :=
  isCheckpointChat (JS.strip_jsonl (file_name c)).

(** Between two iterations of the collecting pass: no checkpoint has been
    collected, the collected uuids are distinct and are the keys of the
    universe, and nothing has been registered. *)
Record collect_inv {W : Type} (st : collect_state (W := W)) : Prop := CollectInv {
  ci_names : ∀ b, b ∈ branchDataList st → isCheckpointChat (chat_name b) = false;
  ci_nodup : NoDup (uuid <$> branchDataList st);
  ci_map : ∀ u, is_Some (uuidToChatName st !! u) ↔ u ∈ uuid <$> branchDataList st;
  ci_trace : ∀ b, Effect (Register b) ∉ collect_trace st
}.

(** ** Specification vocabulary for the current-node search *)

(** The nodes of the map, in iteration order. *)
Definition candidates (st : view) : list nat := snd <$> nodeMap st.

Definition exact_name (st : view) (n : nat) : Prop :=
  name_of (heap st) n = currentChatFile st.

Definition same_ignoring_case (st : view) (n : nat) : Prop :=
  JS.trim (JS.toLowerCase (name_of (heap st) n)) =
  JS.trim (JS.toLowerCase (currentChatFile st)).

Definition substring_either_way (st : view) (n : nat) : Prop :=
  JS.includes (JS.trim (JS.toLowerCase (name_of (heap st) n)))
              (JS.trim (JS.toLowerCase (currentChatFile st))) = true ∨
  JS.includes (JS.trim (JS.toLowerCase (currentChatFile st)))
              (JS.trim (JS.toLowerCase (name_of (heap st) n))) = true.

Global Instance exact_name_dec st n : Decision (exact_name st n).
Proof. unfold exact_name. apply _. Defined.

Global Instance same_ignoring_case_dec st n : Decision (same_ignoring_case st n).
Proof. unfold same_ignoring_case. apply _. Defined.

Global Instance substring_either_way_dec st n : Decision (substring_either_way st n).
Proof. unfold substring_either_way. apply _. Defined.

(** The node whose key is the current identifier, whenever one is given. *)
Definition uuid_match (st : view) : option nat :=
  currentChatUUID st ≫= λ u, JS.map_get u (nodeMap st).

(** The same, attempted only for a non-empty current identifier. *)
Definition nonempty_uuid_match (st : view) : option nat :=
  currentChatUUID st ≫= λ u, if JS.str_truthy u then JS.map_get u (nodeMap st) else None.

(** The fallback chain as the specification words it: the first stage that
    succeeds decides. *)
Definition locate (by_uuid : view → option nat) (st : view) : option nat :=
  by_uuid st ∪
  head (filter (exact_name st) (candidates st)) ∪
  head (filter (same_ignoring_case st) (candidates st)) ∪
  head (filter (substring_either_way st) (candidates st)) ∪
  head (candidates st).

(** ** Trees in the heap *)

(** The records of a tree in the order [processNode] meets them. *)
Fixpoint preorder (t : tnode) : list tnode :=
  match t with
  | TNode _ _ _ cs => t :: flat_map preorder cs
  end.

Definition add_child (c : nat) (nd : inode) : inode :=
  {| n_id := n_id nd; n_name := n_name nd; n_parentId := n_parentId nd;
     n_children := n_children nd ++ [c]; n_data := n_data nd;
     n_parent := n_parent nd |}.

(** A block of the heap holding one processed tree: [blk] starts at address
    [base], its first object is the root, children and parents point at each
    other and stay inside the block, and a parent stands before its child. *)
Record block (base : nat) (parent : option nat) (blk : list inode) : Prop := Block {
  blk_root : ∃ nd0, blk !! 0 = Some nd0 ∧ n_parent nd0 = parent;
  blk_children : ∀ i nd c, blk !! i = Some nd → c ∈ n_children nd →
    ∃ k cn, c = base + k ∧ i < k ∧ blk !! k = Some cn ∧ n_parent cn = Some (base + i);
  blk_parents : ∀ k cn, 0 < k → blk !! k = Some cn →
    ∃ i nd, i < k ∧ n_parent cn = Some (base + i) ∧ blk !! i = Some nd ∧
            base + k ∈ n_children nd
}.

(** An internal node agrees with the record it was made from. *)
Definition node_matches (nd : inode) : Prop :=
  match n_data nd with
  | TreeData t => n_id nd = t_uuid t ∧ n_name nd = t_chat_name t
  | LegacyData c => n_id nd = legacy_id c ∧ n_name nd = cleanName c
  end.

(** What [processNode] does to the heap and to [nodeMap]. *)
Definition processNode_spec (node : tnode) : Prop :=
  ∀ parent h m, ∃ blk m',
    processNode node parent (h, m) = (length h, (h ++ blk, m')) ∧
    block (length h) parent blk ∧
    n_data <$> blk = TreeData <$> preorder node ∧
    Forall node_matches blk ∧
    (∀ kv, kv ∈ m' → kv ∈ m ∨ length h ≤ kv.2 < length h + length blk).

Definition parent_of (h : list inode) (c p : nat) : Prop :=
  ∃ nd, h !! c = Some nd ∧ n_parent nd = Some p.

Definition is_root (h : list inode) (r : nat) : Prop :=
  ∃ nd, h !! r = Some nd ∧ n_parent nd = None.

Definition child_of (h : list inode) (p c : nat) : Prop :=
  ∃ nd, h !! p = Some nd ∧ c ∈ n_children nd.

(** [r] is reached from [a] by following [parent] until there is none. *)
Definition root_of (h : list inode) (a r : nat) : Prop :=
  rtc (parent_of h) a r ∧ is_root h r.

(** [n] is [r] or one of its descendants. *)
Definition in_subtree (h : list inode) (r n : nat) : Prop := rtc (child_of h) r n.

(** The heap after [process_roots]: the old heap followed by one block per
    root, each root being the first address of its block. *)
Inductive forest_heap (h0 : list inode) : list nat → list inode → Prop :=
  | forest_nil : forest_heap h0 [] h0
  | forest_snoc roots h blk :
      forest_heap h0 roots h → block (length h) None blk →
      forest_heap h0 (roots ++ [length h]) (h ++ blk).

(** Identifier, name and source record of an internal node. *)
Definition node_record (nd : inode) : string * string * node_data :=
  (n_id nd, n_name nd, n_data nd).

(** ** Specification vocabulary for the name validator *)

(** Identifier and name of every node of a tree. *)
Fixpoint labels (t : rnode) : list (string * string) :=
  match t with
  | RNode id name cs => (id, name) :: flat_map labels cs
  end.

(** Some node other than the excluded one bears [name]. *)
Definition name_taken (name : string) (treeRoots : list rnode)
    (excludeUuid : option string) : Prop :=
  ∃ id, (id, name) ∈ flat_map labels treeRoots ∧ Some id ≠ excludeUuid.

(** [name] contains a character of the forbidden set. *)
Definition has_invalid_char (name : string) : Prop :=
  ∃ a, a ∈ String.list_ascii_of_string name ∧ invalid_char a = true.

(** ** Sample inputs *)

(** A branch record of the character of the samples. *)
Definition mk (u : string) (p : option string) (name : string) : branch :=
  Branch u p u "avatar.png" name None (FromClock 0).

(** A record whose parent is the empty string, before the record whose uuid
    is the empty string. *)
Definition late_parent_input : list branch :=
  [mk "B" (Some "") "chat B"; mk "" None "chat E"].

(** A child listed before its parent. *)
Definition child_first_input : list branch :=
  [mk "c" (Some "r") "child"; mk "r" None "root"].

(** Two records naming each other as parent. *)
Definition two_cycle_input : list branch :=
  [mk "A" (Some "B") "chat A"; mk "B" (Some "A") "chat B"].

(** The same cycle, with one of its records listed twice. *)
Definition duplicate_cycle_input : list branch :=
  [mk "A" (Some "B") "chat A"; mk "B" (Some "A") "chat B"; mk "A" (Some "B") "chat A"].

(** A record that is its own parent, under the empty uuid. *)
Definition empty_loop_input : list branch := [mk "" (Some "") "chat E"].

(** A record whose parent is the empty string. *)
Definition branch_x : branch :=
  Branch "x" (Some "") "x" "avatar.png" "chat x" None (FromClock 0).

(** A view as the constructor leaves it, for the given current chat. *)
Definition new_view (chat : string) (chatUUID : option string) : view :=
  View [] [] [] [] None None chat chatUUID.

(** Two roots, the first with the empty identifier; the current chat has
    the empty identifier too and the name of the second. *)
Definition empty_uuid_view : view :=
  buildNodeMapFromTree [TNode "" "other" None []; TNode "b" "current" None []]
    (new_view "current" (Some "")).

(** A tree with a branch, and a second tree. *)
Definition two_trees : list tnode :=
  [TNode "r1" "main" None [TNode "c1" "branch" (Some "r1") []];
   TNode "r2" "other" None []].

(** Records without an identifier. *)
Definition unidentified_chat : legacy_chat := LegacyChat "old chat" None None.
Definition unidentified_tree : tnode := TNode "" "old chat" None [].

(** A host with one chat file, whose first entry has no metadata, and whose
    calls all succeed. *)
Section Host.
Context (file : string).

Definition host_chats (_ : character) (_ : unit) : fetched_chats * unit :=
  (Chats [ChatData file None], tt).
Definition host_fetch (_ : character) (_ : string) (_ : unit) : fetched * unit :=
  (FirstEntry None, tt).
Definition host_uuidv4 (_ : unit) : string * unit := ("uuid-1", tt).
Definition host_save (_ _ : string) (_ : unit) : bool * unit := (true, tt).
Definition host_register (_ : branch) (_ : unit) : bool * unit := (true, tt).
Definition host_now (_ : unit) : Z := 0.

Definition host_migrate : migrate_result * list event * unit :=
  migrateAllChats host_chats host_fetch host_uuidv4 host_save host_register host_now
    (Character "avatar.png" "Seraphina") tt.

Definition host_rebuild : option (rebuild_result * list event * unit) :=
  rebuildStorageFromChats host_chats host_fetch host_register host_now
    (Character "avatar.png" "Seraphina") tt.

End Host.

(** The branch the migration makes of the checkpoint chat of that host. *)
Definition checkpoint_branch : branch :=
  Branch "uuid-1" None "uuid-1" "avatar.png" "main - Checkpoint #1" None (FromClock 0).

Import MessageViewerPopup Index.

(** ** More vocabulary for the registration sequencer *)

(** The last record of [bs] with uuid [u]. *)
Definition last_with (bs : list branch) (u : string) : option branch :=
  last (filter (λ b, uuid b = u) bs).

(** Every non-empty parent that is the uuid of a record of the list stands at
    a strictly smaller index. *)
Definition present_parents_first (bs : list branch) : Prop :=
  ∀ j b p, bs !! j = Some b → parent_uuid b = Some p → p ≠ "" →
    p ∈ uuid <$> bs → ∃ i, i < j ∧ (uuid <$> bs) !! i = Some p.

(** The diagnostic says that a parent is not in the list. *)
Definition is_not_found (c : console) : Prop :=
  match c with BranchNotFound _ => True | _ => False end.

(** ** Observations of a trace of the rebuild *)

(** The branches handed to [registerBranchWithPlugin], in the order of the calls. *)
Definition registered (tr : list event) : list branch :=
  omap (λ e, match e with Effect (Register b) => Some b | _ => None end) tr.

(** The event is not a missing-branch warning of the sequencer. *)
Definition quiet (e : event) : Prop :=
  match e with Effect (Log (BranchNotFound _)) => False | _ => True end.

(** A progress report does not count beyond its total. *)
Definition progress_ok (e : event) : Prop :=
  match e with Progress current total => current ≤ total | _ => True end.

(** What holds of the collected records between two iterations of the
    collecting pass: uuids are not empty, a parent is [null] or not empty. *)
Record collect_wf {W : Type} (st : collect_state (W := W)) : Prop := CollectWf {
  cw_uuid : ∀ b, b ∈ branchDataList st → uuid b ≠ "";
  cw_parent : ∀ b, b ∈ branchDataList st → parent_uuid b ≠ Some "";
  cw_progress : Forall progress_ok (collect_trace st);
  cw_quiet : Forall quiet (collect_trace st)
}.

(** ** Observations of a trace of the migration *)

(** The chats written back by [migrateChatMetadata], in the order of the calls. *)
Definition saved (tr : list event) : list (string * string) :=
  omap (λ e, match e with Effect (Save a n) => Some (a, n) | _ => None end) tr.

(** The same observations, on the effects of one item of a batch. *)
Definition registrations (effs : list effect) : list branch :=
  omap (λ e, match e with Register b => Some b | _ => None end) effs.

Definition saves (effs : list effect) : list (string * string) :=
  omap (λ e, match e with Save a n => Some (a, n) | _ => None end) effs.

(** ** Keys of the node map *)

(** Every entry of the map leads to a node that bears its key. *)
Definition keyed (h : list inode) (m : JS.ordered_map nat) : Prop :=
  ∀ k a, (k, a) ∈ m → id_of h a = Some k.

(** The uuids of all the records of a forest. *)
Definition uuids_of (treeArray : list tnode) : list string :=
  t_uuid <$> flat_map preorder treeArray.

(** What [processNode] does to [nodeMap]: the entries keep leading to nodes
    that bear their key, the keys gain the uuids of the tree, and the heap
    only grows. *)
Definition processNode_keys (node : tnode) : Prop :=
  ∀ parent h m, keyed h m →
    let r := processNode node parent (h, m) in
    keyed r.2.1 r.2.2 ∧
    (∀ k, k ∈ r.2.2.*1 ↔ k ∈ m.*1 ∨ k ∈ t_uuid <$> preorder node) ∧
    (∀ x, x < length h → id_of r.2.1 x = id_of h x) ∧
    length h ≤ length r.2.1 ∧
    id_of r.2.1 r.1 = Some (t_uuid node).

(** ** Records by name *)

(** The records of the forest that bear the name. *)
Definition named (chatName : string) (nodes : list tnode) : list tnode :=
  filter (λ t, t_chat_name t = chatName) (flat_map preorder nodes).

(** ** Entities *)

(** The entity that stands for a character, or the character itself. *)
Definition entity (a : Ascii.ascii) : string :=
  if Ascii.eqb a amp then "&amp;"
  else if Ascii.eqb a less then "&lt;"
  else if Ascii.eqb a greater then "&gt;"
  else if Ascii.eqb a quot then "&quot;"
  else if Ascii.eqb a apos then "&#039;"
  else String a "".

(** Every character of [s] replaced by [f] of it. *)
Fixpoint substitute (f : Ascii.ascii → string) (s : string) : string :=
  match s with
  | EmptyString => EmptyString
  | String a s' => f a +:+ substitute f s'
  end.

(** The characters that open or close markup or an attribute value. *)
Definition markup_char (a : Ascii.ascii) : Prop :=
  a = less ∨ a = greater ∨ a = quot ∨ a = apos.

(** ** Repeated validation *)

(** The number of forbidden characters in [s]. *)
Fixpoint invalid_chars (s : string) : nat :=
  match s with
  | EmptyString => 0
  | String a s' => (if invalid_char a then 1 else 0) + invalid_chars s'
  end.

(** The handler after [n] calls of the validator with the same arguments. *)
Fixpoint retried (n : nat) (newName : string) (treeRoots : list rnode)
    (excludeUuid : option string) (h : handler) : handler :=
  match n with
  | O => h
  | S n' => retried n' newName treeRoots excludeUuid
                    (validateName newName treeRoots excludeUuid h).2
  end.

(** ** Links of the legacy graph *)

(** The node that the parent identifier of the node at [a] leads to. *)
Definition legacy_target (h : list inode) (m : JS.ordered_map nat) (a : nat)
    : option nat :=
  pid ← h !! a ≫= n_parentId;
  if JS.str_truthy pid then JS.map_get pid m else None.

(** The fields of the nodes that the linking pass reads and leaves alone. *)
Definition link_keys (h : list inode) : list (string * option string) :=
  (λ nd, (n_id nd, n_parentId nd)) <$> h.

(** The linking pass after the nodes [linked] are processed: each of them
    is under its parent or among the roots, the others are untouched. *)
Definition legacy_inv (m : JS.ordered_map nat) (base : nat) (h1 : list inode)
    (linked : list nat) (h : list inode) (roots : list nat) : Prop :=
  link_keys h = link_keys h1 ∧
  (∀ a, a ∈ linked → ∃ nd, h !! a = Some nd ∧
     match legacy_target h1 m a with
     | Some p => n_parent nd = Some p ∧ child_of h p a
     | None => n_parent nd = None ∧ a ∈ roots
     end) ∧
  (∀ a nd, base ≤ a → a ∉ linked → h !! a = Some nd → n_parent nd = None) ∧
  (∀ r, r ∈ roots → r ∈ linked ∧ legacy_target h1 m r = None) ∧
  (∀ p c, base ≤ p → child_of h p c → c ∈ linked ∧ legacy_target h1 m c = Some p).

(** The map after the creating pass: every entry leads to a new node that
    bears its key, and no node is entered twice. *)
Definition legacy_map_ok (base : nat) (h : list inode) (m : JS.ordered_map nat) : Prop :=
  (∀ k a, (k, a) ∈ m → base ≤ a < length h ∧ id_of h a = Some k) ∧
  NoDup m.*1 ∧ NoDup m.*2.

(** ** More sample inputs *)

(** A parent listed before its child. *)
Definition parent_first_input : list branch :=
  [mk "r" None "root"; mk "c" (Some "r") "child"].

(** A child whose parent is not in the list, and a root. *)
Definition orphan_input : list branch :=
  [mk "c" (Some "gone") "child"; mk "r" None "root"].

(** * Proofs *)

(** ** The orphan repair *)

Lemma validate_step_spec known st b :
  validate_step known st b =
  {| validated := validated st ++ [if orphaned known b then with_parent_null b else b];
     orphanedCount := orphanedCount st + (if orphaned known b then 1 else 0);
     validate_out := validate_out st ++ (if orphaned known b then [orphan_warning b] else []) |}.
Proof.
  unfold validate_step, orphaned, orphan_warning.
  destruct (parent_uuid b) as [p|]; simpl.
  - destruct (JS.str_truthy p && negb (JS.has known p)); simpl.
    + f_equal. lia.
    + by rewrite Nat.add_0_r, app_nil_r.
  - by rewrite Nat.add_0_r, app_nil_r.
Qed.

Lemma validate_loop known bs st :
  foldl (validate_step known) st bs =
  {| validated := validated st ++ map (λ b, if orphaned known b then with_parent_null b else b) bs;
     orphanedCount := orphanedCount st + length (filter (λ b, orphaned known b = true) bs);
     validate_out := validate_out st ++ map orphan_warning (filter (λ b, orphaned known b = true) bs) |}.
Proof.
  revert st. induction bs as [|b bs IH]; intros st; simpl.
  - destruct st; simpl. by rewrite !app_nil_r, Nat.add_0_r.
  - rewrite IH, validate_step_spec. simpl. rewrite filter_cons.
    destruct (orphaned known b) eqn:Ho.
    + rewrite decide_True by done. simpl. f_equal; [by rewrite <- app_assoc | lia | by rewrite <- app_assoc].
    + rewrite decide_False by done. simpl. rewrite !app_nil_r, Nat.add_0_r.
      f_equal. by rewrite <- app_assoc.
Qed.

(** On any records, [validateAndFixBranches] returns them in input order,
    each one unchanged except that a parent that is non-null, non-empty and
    not a key of the known universe becomes null; the other fields are
    kept. It logs one orphan warning per repaired record, in order,
    followed by the count when there is one. *)
Lemma validateAndFixBranches_repairs (bs : list branch) (known : gmap string string) :
  let orphans := filter (λ b, orphaned known b = true) bs in
  (validateAndFixBranches bs known).1
    = map (λ b, if orphaned known b then with_parent_null b else b) bs ∧
  (validateAndFixBranches bs known).2
    = map orphan_warning orphans ++
      (if bool_decide (0 < length orphans) then [FixedOrphaned (length orphans)] else []) ∧
  filter (λ c, is_orphan_warning c = true) (validateAndFixBranches bs known).2
    = map orphan_warning orphans ∧
  (∀ b, uuid (with_parent_null b) = uuid b ∧ parent_uuid (with_parent_null b) = None ∧
        root_uuid (with_parent_null b) = root_uuid b ∧
        character_id (with_parent_null b) = character_id b ∧
        chat_name (with_parent_null b) = chat_name b ∧
        branch_point (with_parent_null b) = branch_point b ∧
        created_at (with_parent_null b) = created_at b).
Proof.
  intros orphans. unfold validateAndFixBranches. rewrite validate_loop. simpl.
  fold orphans. split; [done|]. split.
  - case_bool_decide; [done | by rewrite app_nil_r].
  - split; [|done].
    assert (Hw : filter (λ c, is_orphan_warning c = true) (map orphan_warning orphans)
                 = map orphan_warning orphans).
    { clear. induction orphans as [|b l IH]; [done|]. simpl.
      rewrite filter_cons. rewrite decide_True by done. by rewrite IH. }
    case_bool_decide; [|done].
    rewrite filter_app, Hw. rewrite filter_cons, decide_False by done.
    by rewrite filter_nil, app_nil_r.
Qed.

Lemma orphaned_nonnull_eq known b :
  parent_uuid b ≠ Some "" → orphaned known b = orphaned_nonnull known b.
Proof.
  unfold orphaned, orphaned_nonnull. destruct (parent_uuid b) as [p|]; [|done].
  intros Hp. unfold JS.str_truthy. rewrite bool_decide_eq_true_2; [done|].
  by intros ->.
Qed.

Lemma map_orphaned_nonnull known (bs : list branch) :
  (∀ b, b ∈ bs → parent_uuid b ≠ Some "") →
  map (λ b, if orphaned known b then with_parent_null b else b) bs =
  map (λ b, if orphaned_nonnull known b then with_parent_null b else b) bs.
Proof.
  intros Hbs. apply map_ext_in. intros b Hb%list_elem_of_In.
  by rewrite orphaned_nonnull_eq by by apply Hbs.
Qed.

Lemma filter_orphaned_nonnull known (bs : list branch) :
  (∀ b, b ∈ bs → parent_uuid b ≠ Some "") →
  filter (λ b, orphaned known b = true) bs =
  filter (λ b, orphaned_nonnull known b = true) bs.
Proof.
  induction bs as [|b bs IH]; intros Hbs; [done|].
  rewrite !filter_cons, IH by (intros b' Hb'; apply Hbs; by right).
  rewrite orphaned_nonnull_eq by (apply Hbs; by left).
  by destruct (orphaned_nonnull known b).
Qed.

(** Claim C3. For records whose parent is null or a non-empty identifier,
    as [rebuildStorageFromChats] stores them, and any known universe,
    [validateAndFixBranches] returns the records in input order, each one
    unchanged except that a parent that is non-null and not a key of the
    universe becomes null, the other fields being kept; it logs one orphan
    warning per such record, in order, followed by their count when there
    is one. It reads nothing but its two arguments. *)
Theorem validateAndFixBranches_repairs_orphans (bs : list branch) (known : gmap string string) :
  (∀ b, b ∈ bs → parent_uuid b ≠ Some "") →
  let orphans := filter (λ b, orphaned_nonnull known b = true) bs in
  (validateAndFixBranches bs known).1
    = map (λ b, if orphaned_nonnull known b then with_parent_null b else b) bs ∧
  length (validateAndFixBranches bs known).1 = length bs ∧
  (validateAndFixBranches bs known).2
    = map orphan_warning orphans ++
      (if bool_decide (0 < length orphans) then [FixedOrphaned (length orphans)] else []) ∧
  filter (λ c, is_orphan_warning c = true) (validateAndFixBranches bs known).2
    = map orphan_warning orphans ∧
  repairs_nonnull_orphans bs known ∧
  (∀ b, uuid (with_parent_null b) = uuid b ∧ parent_uuid (with_parent_null b) = None ∧
        root_uuid (with_parent_null b) = root_uuid b ∧
        character_id (with_parent_null b) = character_id b ∧
        chat_name (with_parent_null b) = chat_name b ∧
        branch_point (with_parent_null b) = branch_point b ∧
        created_at (with_parent_null b) = created_at b).
Proof.
  intros Hbs orphans.
  destruct (validateAndFixBranches_repairs bs known) as (H1 & H2 & H3 & H4).
  rewrite (filter_orphaned_nonnull known bs Hbs) in H2, H3. fold orphans in H2, H3.
  rewrite (map_orphaned_nonnull known bs Hbs) in H1.
  split_and!; [done| |done|done| |done].
  - by rewrite H1, length_map.
  - split; [done|]. rewrite H3, length_map. done.
Qed.

(** Claim C3, witness: a child whose parent is not in the batch. *)
Lemma validateAndFixBranches_repairs_orphans_witness :
  (validateAndFixBranches orphan_input (universe_of orphan_input)).1
    = [mk "c" None "child"; mk "r" None "root"] ∧
  filter (λ c, is_orphan_warning c = true)
         (validateAndFixBranches orphan_input (universe_of orphan_input)).2
    = [OrphanedBranch "child" "gone"].
Proof.
  destruct (validateAndFixBranches_repairs_orphans orphan_input (universe_of orphan_input))
    as (H1 & _ & _ & H4 & _).
  - intros b Hb. unfold orphan_input in Hb.
    repeat (apply elem_of_cons in Hb as [->|Hb]); [done..|]. by apply elem_of_nil in Hb.
  - split; [exact H1|exact H4].
Defined.

(** The hypothesis on the parents is not idle: a parent that is the empty
    string is non-null and outside the universe of its batch, and is left
    in place with no diagnostic. *)
Lemma validateAndFixBranches_keeps_empty_parent :
  ¬ repairs_nonnull_orphans [branch_x] (universe_of [branch_x]).
Proof.
  unfold repairs_nonnull_orphans. intros [H _]. vm_compute in H. discriminate H.
Qed.

(** ** The registration sequencer *)

Lemma chain_mono {A} (R S : A → A → Prop) (l : list A) :
  (∀ x y, R x y → S x y) → chain R l → chain S l.
Proof.
  intros HRS. induction l as [|x [|y l] IH]; simpl; [done..|].
  intros [? ?]. split; [by apply HRS | by apply IH].
Qed.

Lemma chain_app_r {A} (R : A → A → Prop) (l1 l2 : list A) :
  chain R (l1 ++ l2) → chain R l2.
Proof.
  induction l1 as [|x l1 IH]; [done|].
  destruct l1 as [|y l1]; simpl.
  - destruct l2; [done|]. by intros [_ ?].
  - intros [_ ?]. by apply IH.
Qed.

Lemma chain_snoc {A} (R : A → A → Prop) (l : list A) (u : A) :
  chain R l → (∀ x, last l = Some x → R x u) → chain R (l ++ [u]).
Proof.
  induction l as [|x [|y l] IH]; simpl; [done| |].
  - intros _ H. split; [by apply H | done].
  - intros [Hxy Hc] H. split; [done|]. apply IH; [done|]. intros z Hz. by apply H.
Qed.

Section Visit.
Context (m : gmap string branch).

Lemma str_truthy_true p : JS.str_truthy p = true ↔ p ≠ "".
Proof. unfold JS.str_truthy. by rewrite bool_decide_eq_true. Qed.

Lemma visit_total fuel u st :
  size (dom m ∖ temp st) < fuel → is_Some (visit m fuel u st).
Proof.
  revert u st. induction fuel as [|fuel IH]; intros u st Hf; [lia|]. simpl.
  destruct (decide (u ∈ visited st)); [done|].
  destruct (decide (u ∈ temp st)); [done|].
  destruct (m !! u) as [b|] eqn:Hb; [|done].
  assert (Hlt : size (dom m ∖ temp (temp_add u st)) < fuel).
  { assert (Hsub : dom m ∖ temp (temp_add u st) ⊂ dom m ∖ temp st).
    { simpl. apply elem_of_dom_2 in Hb. set_solver. }
    apply subset_size in Hsub. lia. }
  destruct (parent_uuid b) as [p|]; simpl; [|done].
  destruct (JS.str_truthy p); [|done].
  destruct (IH p _ Hlt) as [st2 ->]. done.
Qed.

Hypothesis Hm : ∀ u b, m !! u = Some b → uuid b = u.

Lemma sort_inv_finish u b st :
  sort_inv m st → m !! u = Some b → u ∉ visited st →
  (∀ p, parent_uuid b = Some p → p ≠ "" → is_Some (m !! p) →
        p ∈ visited st ∨ CircularDependency p ∈ sort_out st) →
  sort_inv m (finish u b st).
Proof.
  intros [Hnd Hmap Hvis Hord Hcyc] Hb Hu Hpar.
  assert (Hub : uuid b = u) by by apply Hm.
  split; simpl.
  - rewrite fmap_app. simpl. apply NoDup_app. split; [done|]. split.
    + intros x Hx. rewrite Hub. rewrite list_elem_of_singleton. intros ->.
      by apply Hu, Hvis.
    + apply NoDup_singleton.
  - intros b' [Hb'|Hb']%elem_of_app; [by apply Hmap|].
    apply list_elem_of_singleton in Hb' as ->. by rewrite Hub.
  - intros x. rewrite fmap_app, elem_of_app, elem_of_union, elem_of_singleton. simpl.
    rewrite list_elem_of_singleton, Hvis, Hub. tauto.
  - intros l1 b' l2 p Heq Hp Hne Hin.
    destruct l2 as [|z l2 _] using rev_ind.
    + apply app_inj_tail in Heq as [Hl1 <-].
      destruct (Hpar p Hp Hne Hin) as [Hv|Hc]; [|by right].
      left. rewrite <- Hl1. by apply Hvis.
    + rewrite app_comm_cons, app_assoc in Heq.
      apply app_inj_tail in Heq as [Heq _].
      by apply (Hord l1 b' l2 p).
  - done.
Qed.

Lemma sort_inv_warn_other c st :
  (∀ p, c ≠ CircularDependency p) → sort_inv m st → sort_inv m (sort_warn c st).
Proof.
  intros Hc [Hnd Hmap Hvis Hord Hcyc]. split; simpl; [done..| |].
  - intros l1 b l2 p Heq Hp Hne Hin.
    destruct (Hord l1 b l2 p Heq Hp Hne Hin) as [?|?]; [by left|right].
    apply elem_of_app. by left.
  - intros p [Hp|Hp]%elem_of_app; [by apply Hcyc|].
    apply list_elem_of_singleton in Hp. by destruct (Hc p).
Qed.

Lemma sort_inv_warn_cycle u st :
  on_cycle m u → sort_inv m st → sort_inv m (sort_warn (CircularDependency u) st).
Proof.
  intros Hu [Hnd Hmap Hvis Hord Hcyc]. split; simpl; [done..| |].
  - intros l1 b l2 p Heq Hp Hne Hin.
    destruct (Hord l1 b l2 p Heq Hp Hne Hin) as [?|?]; [by left|right].
    apply elem_of_app. by left.
  - intros p [Hp|Hp]%elem_of_app; [by apply Hcyc|].
    apply list_elem_of_singleton in Hp. by simplify_eq.
Qed.

Lemma sort_inv_temp_add u st : sort_inv m st → sort_inv m (temp_add u st).
Proof. intros [Hnd Hmap Hvis Hord Hcyc]. by split. Qed.

(** What one call of [visit] establishes. *)
Lemma visit_spec fuel u st stk st' :
  visit m fuel u st = Some st' →
  sort_inv m st → stack_ok m st stk →
  (∀ x, last stk = Some x → follows m x u) →
  sort_inv m st' ∧ temp st' = temp st ∧ visited st ⊆ visited st' ∧
  (∀ x, x ∈ temp st → x ∈ visited st' → x ∈ visited st) ∧
  (∀ c, c ∈ sort_out st → c ∈ sort_out st') ∧
  (u ∈ visited st' ∨ (u ∈ temp st ∧ CircularDependency u ∈ sort_out st') ∨ m !! u = None).
Proof.
  revert u st stk st'. induction fuel as [|fuel IH]; intros u st stk st' Hv Hinv Hstk Hlast;
    [done|]. simpl in Hv.
  destruct (decide (u ∈ visited st)) as [Hvis|Hvis].
  { simplify_eq. split_and!; auto. }
  destruct (decide (u ∈ temp st)) as [Htmp|Htmp].
  { simplify_eq. split_and!; simpl; auto.
    - apply sort_inv_warn_cycle; [|done].
      destruct Hstk as [Hmem Hch]. apply Hmem in Htmp.
      apply list_elem_of_split in Htmp as (l1 & l2 & ->).
      assert (is_Some (last (l1 ++ u :: l2))) as [x Hx].
      { rewrite last_is_Some. by destruct l1. }
      exists l2, x. split; [by apply chain_app_r in Hch|]. split.
      + rewrite <- Hx. by rewrite last_app_cons.
      + by apply Hlast.
    - intros c Hc. apply elem_of_app. by left.
    - right. left. split; [done|]. apply elem_of_app. right. by apply list_elem_of_singleton. }
  destruct (m !! u) as [b|] eqn:Hb.
  2:{ simplify_eq. split_and!; simpl; auto.
      - by apply sort_inv_warn_other.
      - intros c Hc. apply elem_of_app. by left. }
  assert (Hstk1 : stack_ok m (temp_add u st) (stk ++ [u])).
  { destruct Hstk as [Hmem Hch]. split.
    - intros x. simpl. rewrite elem_of_union, elem_of_singleton, elem_of_app,
        list_elem_of_singleton, Hmem. tauto.
    - by apply chain_snoc. }
  assert (∃ st2, (match parent_uuid b with
             | Some p => if JS.str_truthy p then visit m fuel p (temp_add u st)
                         else Some (temp_add u st)
             | None => Some (temp_add u st) end) = Some st2 ∧ st' = finish u b st2)
    as (st2 & Hrec & ->).
  { destruct (match parent_uuid b with Some _ => _ | None => _ end) as [st2|];
      simpl in Hv; [|done]. exists st2. by simplify_eq. }
  assert (Hpost : sort_inv m st2 ∧ temp st2 = temp (temp_add u st) ∧
            visited st ⊆ visited st2 ∧
            (∀ x, x ∈ temp (temp_add u st) → x ∈ visited st2 → x ∈ visited st) ∧
            (∀ c, c ∈ sort_out st → c ∈ sort_out st2) ∧
            (∀ p, parent_uuid b = Some p → p ≠ "" → is_Some (m !! p) →
               p ∈ visited st2 ∨ CircularDependency p ∈ sort_out st2)).
  { destruct (parent_uuid b) as [p|] eqn:Hp.
    - destruct (JS.str_truthy p) eqn:Ht.
      + apply str_truthy_true in Ht.
        destruct (IH p (temp_add u st) (stk ++ [u]) st2 Hrec) as (H1 & H2 & H3 & H4 & H5 & H6).
        * by apply sort_inv_temp_add.
        * done.
        * intros x Hx. rewrite last_snoc in Hx. simplify_eq. by exists b.
        * split_and!; auto.
          intros p' ? _ [bp Hbp]. simplify_eq.
          destruct H6 as [?|[[_ ?]|?]]; [by left|by right|congruence].
      + simplify_eq. apply not_true_iff_false in Ht. rewrite str_truthy_true in Ht.
        split_and!; auto using sort_inv_temp_add.
        intros p' ? Hne _. simplify_eq. by destruct Ht.
    - simplify_eq. split_and!; auto using sort_inv_temp_add. intros; simplify_eq. }
  destruct Hpost as (H1 & H2 & H3 & H4 & H5 & H6).
  assert (Hu2 : u ∉ visited st2).
  { intros Hu. apply Hvis, H4; [|done]. simpl. set_solver. }
  split_and!.
  - by apply sort_inv_finish.
  - simpl. rewrite H2. simpl. apply set_eq. intros x.
    rewrite elem_of_difference, elem_of_union, !elem_of_singleton.
    split; [intros [[?|?] ?]; by simplify_eq|]. intros Hx. split; [by right|]. by intros ->.
  - simpl. set_solver.
  - simpl. intros x Hx [Hxu|Hx2]%elem_of_union.
    + apply elem_of_singleton in Hxu as ->. done.
    + apply H4; [|done]. simpl. set_solver.
  - simpl. auto.
  - left. simpl. set_solver.
Qed.

End Visit.

(** The map built from the list. *)
Lemma branchMap_acc_lookup bs (acc : gmap string branch) u b :
  foldl (λ m b, <[uuid b := b]> m) acc bs !! u = Some b →
  (b ∈ bs ∧ uuid b = u) ∨ acc !! u = Some b.
Proof.
  revert acc. induction bs as [|x bs IH]; intros acc; simpl; [by right|].
  intros [[? ?]|H]%IH.
  - left. split; [by right|done].
  - destruct (decide (uuid x = u)) as [<-|Hne].
    + rewrite lookup_insert_eq in H. simplify_eq. left. split; [by left|done].
    + rewrite lookup_insert_ne in H by done. by right.
Qed.

Lemma branchMap_lookup bs u b :
  branchMap_of bs !! u = Some b → b ∈ bs ∧ uuid b = u.
Proof.
  intros [?|H]%branchMap_acc_lookup; [done|]. by rewrite lookup_empty in H.
Qed.

Lemma branchMap_acc_fresh bs (acc : gmap string branch) u :
  u ∉ uuid <$> bs → foldl (λ m b, <[uuid b := b]> m) acc bs !! u = acc !! u.
Proof.
  revert acc. induction bs as [|x bs IH]; intros acc Hu; simpl; [done|].
  rewrite fmap_cons, not_elem_of_cons in Hu. destruct Hu as [Hne Hu].
  rewrite IH by done. by rewrite lookup_insert_ne.
Qed.

Lemma branchMap_acc_NoDup bs (acc : gmap string branch) b :
  NoDup (uuid <$> bs) → b ∈ bs →
  foldl (λ m b, <[uuid b := b]> m) acc bs !! uuid b = Some b.
Proof.
  revert acc. induction bs as [|x bs IH]; intros acc Hnd Hb; [by apply elem_of_nil in Hb|].
  rewrite fmap_cons in Hnd. apply NoDup_cons in Hnd as [Hx Hnd].
  apply elem_of_cons in Hb as [->|Hb]; simpl.
  - rewrite branchMap_acc_fresh by done. by rewrite lookup_insert_eq.
  - by apply IH.
Qed.

Lemma branchMap_NoDup bs b :
  NoDup (uuid <$> bs) → b ∈ bs → branchMap_of bs !! uuid b = Some b.
Proof. apply branchMap_acc_NoDup. Qed.

Lemma branchMap_acc_size bs (acc : gmap string branch) :
  size (dom (foldl (λ m b, <[uuid b := b]> m) acc bs)) ≤ size (dom acc) + length bs.
Proof.
  revert acc. induction bs as [|x bs IH]; intros acc; simpl; [lia|].
  etrans; [apply IH|]. rewrite dom_insert_L.
  assert (size ({[uuid x]} ∪ dom acc) ≤ S (size (dom acc))); [|lia].
  rewrite size_union_alt, size_singleton.
  assert (size (dom acc ∖ {[uuid x]}) ≤ size (dom acc)); [|lia].
  apply subseteq_size. set_solver.
Qed.

Lemma branchMap_size bs : size (dom (branchMap_of bs)) < S (length bs).
Proof.
  pose proof (branchMap_acc_size bs ∅) as H. rewrite dom_empty_L, size_empty in H.
  unfold branchMap_of. lia.
Qed.

Section Loop.
Context (m : gmap string branch).
Hypothesis Hm : ∀ u b, m !! u = Some b → uuid b = u.
Context (fuel : nat).
Hypothesis Hfuel : size (dom m) < fuel.

Lemma visit_all_spec bs st :
  sort_inv m st → temp st = ∅ →
  ∃ st', visit_all m fuel bs st = Some st' ∧ sort_inv m st' ∧ temp st' = ∅ ∧
         visited st ⊆ visited st' ∧
         (∀ b, b ∈ bs → is_Some (m !! uuid b) → uuid b ∈ visited st').
Proof.
  unfold visit_all. revert st. induction bs as [|x bs IH]; intros st Hinv Htmp; simpl.
  - exists st. split_and!; auto. intros b Hb. by apply elem_of_nil in Hb.
  - destruct (visit_total m fuel (uuid x) st) as [st1 Hst1].
    { rewrite Htmp, difference_empty_L. done. }
    rewrite Hst1.
    destruct (visit_spec m Hm fuel (uuid x) st [] st1 Hst1 Hinv) as (H1 & H2 & H3 & H4 & H5 & H6).
    { split; [|done]. intros u. rewrite Htmp. set_solver. }
    { done. }
    destruct (IH st1 H1) as (st' & Hst' & I1 & I2 & I3 & I4); [congruence|].
    exists st'. split_and!; auto.
    + set_solver.
    + intros b [->|Hb]%elem_of_cons Hsome; [|by apply I4].
      apply I3. destruct H6 as [?|[[Hin _]|Hnone]]; [done| |].
      * rewrite Htmp in Hin. set_solver.
      * rewrite Hnone in Hsome. by destruct Hsome.
Qed.

End Loop.

Lemma sort_inv_init m : sort_inv m (SortState ∅ ∅ [] []).
Proof.
  split; simpl.
  - apply NoDup_nil_2.
  - intros b Hb. by apply elem_of_nil in Hb.
  - intros u. set_solver.
  - intros l1 b l2 p Heq. by destruct l1.
  - intros p Hp. by apply elem_of_nil in Hp.
Qed.

(** The sequencer returns on every input. *)
Lemma sortBranchesForRegistration_run bs :
  ∃ st, sortBranchesForRegistration bs = Some (sorted st, sort_out st) ∧
        sort_inv (branchMap_of bs) st ∧
        (∀ b, b ∈ bs → is_Some (branchMap_of bs !! uuid b) → uuid b ∈ visited st).
Proof.
  unfold sortBranchesForRegistration.
  destruct (visit_all_spec (branchMap_of bs)
              (λ u b H, proj2 (branchMap_lookup bs u b H))
              (S (length bs)) (branchMap_size bs) bs (SortState ∅ ∅ [] [])
              (sort_inv_init _) eq_refl) as (st & -> & Hinv & _ & _ & Hall).
  exists st. by split_and!.
Qed.

Lemma sortBranchesForRegistration_total bs : is_Some (sortBranchesForRegistration bs).
Proof. destruct (sortBranchesForRegistration_run bs) as (st & -> & _). done. Qed.

(** With pairwise distinct uuids the output is a rearrangement of the input. *)
Lemma sorted_permutation bs st :
  NoDup (uuid <$> bs) → sort_inv (branchMap_of bs) st →
  (∀ b, b ∈ bs → is_Some (branchMap_of bs !! uuid b) → uuid b ∈ visited st) →
  sorted st ≡ₚ bs.
Proof.
  intros Hnd [Hnd' Hmap Hvis _ _] Hall.
  apply NoDup_Permutation.
  - by apply NoDup_fmap_1 in Hnd'.
  - by apply NoDup_fmap_1 in Hnd.
  - intros b. split.
    + intros Hb. apply Hmap in Hb. by apply branchMap_lookup in Hb as [? _].
    + intros Hb. pose proof (branchMap_NoDup bs b Hnd Hb) as Hlk.
      assert (Hv : uuid b ∈ visited st) by (apply Hall; [done|by rewrite Hlk]).
      apply Hvis, list_elem_of_fmap in Hv as (b' & Hu & Hb').
      pose proof (Hmap b' Hb') as Hlk'. rewrite <- Hu in Hlk'. by simplify_eq.
Qed.

Lemma last_default {A} (l : list A) (x d : A) :
  last l = Some x → List.last l d = x.
Proof.
  induction l as [|y [|z l] IH]; intros H; [done| |].
  - simpl in *. by simplify_eq.
  - rewrite last_cons_cons in H. by apply IH.
Qed.

(** A cycle found by the sequencer is a cycle of parent links of the input. *)
Lemma on_cycle_parent_cycle bs u :
  on_cycle (branchMap_of bs) u → ∃ l, parent_cycle bs (u :: l).
Proof.
  intros (l & x & Hch & Hlast & Hx).
  assert (Hmono : ∀ c p, follows (branchMap_of bs) c p → parent_link bs c p).
  { intros c p (b & Hb & Hp & _). apply branchMap_lookup in Hb as [? ?]. by exists b. }
  exists l, u, l. split; [done|]. split; [by eapply chain_mono|].
  apply Hmono. by rewrite (last_default (u :: l) x u).
Qed.

(** For records with pairwise distinct uuids, no cycle of parent links and
    every non-null parent in the list, [sortBranchesForRegistration] returns
    a rearrangement of its input in which every record with a non-null,
    non-empty parent stands after the record of that parent. *)
Lemma sortBranchesForRegistration_orders (bs : list branch) :
  NoDup (uuid <$> bs) → acyclic bs → parents_resolve bs →
  ∃ out log, sortBranchesForRegistration bs = Some (out, log) ∧
             out ≡ₚ bs ∧ nonempty_parents_first out.
Proof.
  intros Hnd Hacyc Hres.
  destruct (sortBranchesForRegistration_run bs) as (st & Hrun & Hinv & Hall).
  pose proof (sorted_permutation bs st Hnd Hinv Hall) as Hperm.
  exists (sorted st), (sort_out st). split_and!; [done..|].
  intros j b p Hj Hp Hne.
  assert (Hb : b ∈ bs) by (rewrite <- Hperm; by eapply list_elem_of_lookup_2).
  destruct (Hres b p Hb Hp) as (pb & Hpb & Hu).
  pose proof (branchMap_NoDup bs pb Hnd Hpb) as Hlk. rewrite Hu in Hlk.
  destruct (inv_order _ _ Hinv (take j (sorted st)) b (drop (S j) (sorted st)) p)
    as [Hin|Hc]; [by rewrite take_drop_middle|done..|by rewrite Hlk| |].
  - apply list_elem_of_fmap in Hin as (pb' & Hu' & Hin).
    apply list_elem_of_lookup in Hin as [i Hi].
    apply lookup_take_Some in Hi as [Hi Hlt]. by exists i, pb'.
  - apply (inv_cycle _ _ Hinv) in Hc. apply on_cycle_parent_cycle in Hc as [l Hl].
    by destruct (Hacyc _ Hl).
Qed.

(** Claim C1. For records with pairwise distinct, non-empty uuids, no cycle
    of parent links and every non-null parent in the list,
    [sortBranchesForRegistration] returns a rearrangement of its input in
    which every record with a non-null parent stands after the record of
    that parent. *)
Theorem sortBranchesForRegistration_parents_first (bs : list branch) :
  NoDup (uuid <$> bs) → (∀ b, b ∈ bs → uuid b ≠ "") →
  acyclic bs → parents_resolve bs →
  ∃ out log, sortBranchesForRegistration bs = Some (out, log) ∧
             out ≡ₚ bs ∧ parents_first out.
Proof.
  intros Hnd Hid Hacyc Hres.
  destruct (sortBranchesForRegistration_orders bs Hnd Hacyc Hres)
    as (out & log & Hrun & Hperm & Hord).
  exists out, log. split_and!; [done..|].
  intros j b p Hj Hp. apply (Hord j b p Hj Hp).
  assert (Hb : b ∈ bs) by (rewrite <- Hperm; by eapply list_elem_of_lookup_2).
  destruct (Hres b p Hb Hp) as (pb & Hpb & <-). by apply Hid.
Qed.

Lemma chain_mono_in {A} (R S : A → A → Prop) (l : list A) :
  (∀ x y, x ∈ l → y ∈ l → R x y → S x y) → chain R l → chain S l.
Proof.
  induction l as [|x [|y l] IH]; simpl; [done..|].
  intros HRS [Hxy Hc]. split.
  - apply HRS; [by left|right; by left|done].
  - apply IH; [|done]. intros a b Ha Hb. apply HRS; by right.
Qed.

(** Indices fall along a chain of "the parent stands earlier" steps. *)
Lemma chain_earlier (ids : list string) (l : list string) x z jx :
  NoDup ids →
  chain (λ c p, ∃ i j, i < j ∧ ids !! i = Some p ∧ ids !! j = Some c) (x :: l) →
  last (x :: l) = Some z → ids !! jx = Some x →
  ∃ jz, jz ≤ jx ∧ ids !! jz = Some z.
Proof.
  intros Hnd. revert x jx. induction l as [|y l IH]; intros x jx Hch Hlast Hjx.
  - simpl in Hlast. simplify_eq. by exists jx.
  - destruct Hch as [(i & j & Hij & Hi & Hj) Hch].
    rewrite last_cons_cons in Hlast.
    assert (j = jx) as -> by (by eapply NoDup_lookup).
    destruct (IH y i Hch Hlast Hi) as (jz & Hle & Hjz).
    exists jz. split; [lia|done].
Qed.

Lemma parent_cycle_links bs cyc u :
  parent_cycle bs cyc → u ∈ cyc → ∃ p, parent_link bs u p ∧ p ∈ cyc.
Proof.
  intros (c & rest & -> & Hch & Hwrap) Hu.
  assert (Hgen : ∀ l x, chain (parent_link bs) (x :: l) → u ∈ x :: l →
            (∃ p, parent_link bs u p ∧ p ∈ x :: l) ∨ u = List.last (x :: l) c).
  { clear. induction l as [|y l IH]; intros x Hch Hu.
    - apply list_elem_of_singleton in Hu as ->. by right.
    - destruct Hch as [Hxy Hch]. apply elem_of_cons in Hu as [->|Hu].
      + left. exists y. split; [done|]. right. by left.
      + destruct (IH y Hch Hu) as [(p & Hp & Hin)|Hl].
        * left. exists p. split; [done|by right].
        * by right. }
  destruct (Hgen rest c Hch Hu) as [? | ->]; [done|].
  exists c. split; [done|by left].
Qed.

(** Claim C2. For records with pairwise distinct uuids, as the rebuild
    collects them, and a cycle of parent links through non-empty uuids,
    [sortBranchesForRegistration] returns, its output is a rearrangement of
    its input, and it logs a circular-dependency diagnostic that names a
    record of the cycle. *)
Theorem sortBranchesForRegistration_reports_cycle (bs : list branch) (cyc : list string) :
  NoDup (uuid <$> bs) → parent_cycle bs cyc → "" ∉ cyc →
  ∃ out log, sortBranchesForRegistration bs = Some (out, log) ∧ out ≡ₚ bs ∧
             ∃ u, u ∈ cyc ∧ CircularDependency u ∈ log.
Proof.
  intros Hnd Hcyc Hne.
  destruct (sortBranchesForRegistration_run bs) as (st & Hrun & Hinv & Hall).
  pose proof (sorted_permutation bs st Hnd Hinv Hall) as Hperm.
  exists (sorted st), (sort_out st). split_and!; [done..|].
  destruct (decide (Exists (λ u, CircularDependency u ∈ sort_out st) cyc)) as [Hex|Hno].
  { apply Exists_exists in Hex as (u & ? & ?). by exists u. }
  exfalso. rewrite <- Forall_Exists_neg, Forall_forall in Hno.
  set (ids := uuid <$> sorted st).
  assert (Hids : NoDup ids) by (by destruct Hinv).
  assert (Hstep : ∀ c p, c ∈ cyc → p ∈ cyc → parent_link bs c p →
            ∃ i j, i < j ∧ ids !! i = Some p ∧ ids !! j = Some c).
  { intros c p Hc Hp (b & Hb & Hu & Hpar).
    destruct (parent_cycle_links bs cyc p Hcyc Hp) as (q & (pb & Hpb & Hpu & _) & _).
    pose proof (branchMap_NoDup bs pb Hnd Hpb) as Hlk. rewrite Hpu in Hlk.
    rewrite <- Hperm in Hb. apply list_elem_of_lookup in Hb as [j Hj].
    destruct (inv_order _ _ Hinv (take j (sorted st)) b (drop (S j) (sorted st)) p)
      as [Hin|Hcd]; [by rewrite take_drop_middle|done| |by rewrite Hlk| |].
    - intros ->. done.
    - apply list_elem_of_lookup in Hin as [i Hi].
      rewrite fmap_take in Hi. apply lookup_take_Some in Hi as [Hi Hlt].
      exists i, j. split_and!; [done..|]. unfold ids. by rewrite list_lookup_fmap, Hj, <- Hu.
    - by destruct (Hno p Hp). }
  destruct Hcyc as (c & rest & -> & Hch & Hwrap).
  assert (is_Some (last (c :: rest))) as [z Hz] by (by apply last_is_Some).
  rewrite (last_default _ z c Hz) in Hwrap.
  assert (Hzin : z ∈ c :: rest).
  { clear -Hz. revert c Hz. induction rest as [|y l IH]; intros c Hz.
    - simpl in Hz. simplify_eq. by left.
    - rewrite last_cons_cons in Hz. right. by apply IH. }
  destruct (Hstep z c Hzin ltac:(by left) Hwrap) as (i & j & Hij & Hi & Hj).
  destruct (chain_earlier ids rest c z i Hids) as (jz & Hle & Hjz); [|done..|].
  { eapply chain_mono_in; [|exact Hch]. simpl. auto. }
  pose proof (NoDup_lookup _ _ _ _ Hids Hj Hjz). lia.
Qed.

Ltac by_compute := apply (bool_decide_unpack _); vm_compute; exact I.

Create HintDb samples.
#[local] Hint Unfold late_parent_input child_first_input two_cycle_input
  duplicate_cycle_input empty_loop_input : samples.

Ltac inv_elem :=
  autounfold with samples in *;
  repeat match goal with
  | H : _ ∈ [] |- _ => by apply elem_of_nil in H
  | H : _ ∈ _ :: _ |- _ => apply elem_of_cons in H as [H|H]
  end; simplify_eq/=.

Ltac no_link H := destruct H as (? & ? & ? & ?); inv_elem.

(** The hypothesis on the uuids is not idle. The parent of the first record
    is the empty string, which is the uuid of the second record: the input
    has distinct uuids, no cycle and every parent resolves, and the output
    keeps the child before its parent. *)
Lemma sortBranchesForRegistration_empty_parent_late :
  NoDup (uuid <$> late_parent_input) ∧ acyclic late_parent_input ∧
  parents_resolve late_parent_input ∧
  ∃ out log, sortBranchesForRegistration late_parent_input = Some (out, log) ∧
             ¬ parents_first out.
Proof.
  split_and!.
  - by_compute.
  - intros cyc Hcyc.
    assert (∃ c, c ∈ cyc) as [c Hc].
    { destruct Hcyc as (c & rest & -> & _). exists c. by left. }
    destruct (parent_cycle_links _ _ c Hcyc Hc) as (p & Hl & Hp). no_link Hl.
    destruct (parent_cycle_links _ _ "" Hcyc Hp) as (q & Hl & Hq). no_link Hl.
  - intros b p Hb Hp. inv_elem. eexists. split; [right; by left|done].
  - eexists _, _. split; [by vm_compute|].
    intros H. destruct (H 0 _ "" eq_refl eq_refl) as (i & ? & ? & _). lia.
Qed.

(** Claim C1, witness: a child listed before its parent. *)
Lemma sortBranchesForRegistration_parents_first_witness :
  ∃ out log, sortBranchesForRegistration child_first_input = Some (out, log) ∧
             out ≡ₚ child_first_input ∧ parents_first out.
Proof.
  apply (sortBranchesForRegistration_parents_first child_first_input).
  - by_compute.
  - intros b Hb. by inv_elem.
  - intros cyc Hcyc.
    assert (∃ c, c ∈ cyc) as [c Hc].
    { destruct Hcyc as (c & rest & -> & _). exists c. by left. }
    destruct (parent_cycle_links _ _ c Hcyc Hc) as (p & Hl & Hp). no_link Hl.
    destruct (parent_cycle_links _ _ "r" Hcyc Hp) as (q & Hl & Hq). no_link Hl.
  - intros b p Hb Hp. inv_elem. eexists. split; [right; by left|done].
Defined.

(** Claim C2, witness: the two records that name each other. *)
Lemma sortBranchesForRegistration_reports_cycle_witness :
  ∃ out log, sortBranchesForRegistration two_cycle_input = Some (out, log) ∧
             out ≡ₚ two_cycle_input ∧
             ∃ u, u ∈ ["A"; "B"] ∧ CircularDependency u ∈ log.
Proof.
  apply (sortBranchesForRegistration_reports_cycle two_cycle_input ["A"; "B"]).
  - by_compute.
  - exists "A", ["B"]. split_and!; [done| |].
    + split; [|done]. eexists. split_and!; [by left|done..].
    + eexists. split_and!; [right; by left|done..].
  - intros H. inv_elem.
Defined.

(** The hypotheses on the uuids are not idle. With a record of the cycle
    listed twice the output is shorter than the input; with a record that
    is its own parent under the empty uuid nothing is logged. *)
Lemma sortBranchesForRegistration_cycle_not_reported :
  ¬ cycle_reported duplicate_cycle_input ∧ ¬ cycle_reported empty_loop_input.
Proof.
  split; intros H.
  - destruct (H ["A"; "B"]) as (out & log & Hrun & Hperm & _).
    + exists "A", ["B"]. split_and!; [done| |].
      * split; [|done]. eexists. split_and!; [by left|done..].
      * eexists. split_and!; [right; by left|done..].
    + vm_compute in Hrun. simplify_eq. apply Permutation_length in Hperm. done.
  - destruct (H [""]) as (out & log & Hrun & _ & u & _ & Hu).
    + exists "", []. split_and!; [done..|]. eexists. split_and!; [by left|done..].
    + vm_compute in Hrun. simplify_eq. by apply elem_of_nil in Hu.
Qed.

(** ** The batch driver *)

Lemma climbs_app a l b l' c : climbs a l b → climbs b l' c → climbs a (l ++ l') c.
Proof.
  revert a. induction l as [|x l IH]; intros a; simpl.
  - by intros ->.
  - intros [? ?] ?. split; [done|]. by apply IH.
Qed.

Lemma climbs_sorted a l b : climbs a l b → Sorted le (a :: l) ∧ last (a :: l) = Some b.
Proof.
  revert a. induction l as [|x l IH]; intros a; simpl.
  - intros ->. split; [by repeat constructor|done].
  - intros [Hle Hc]. destruct (IH x Hc) as [Hs Hl]. split.
    + constructor; [done|]. by constructor.
    + done.
Qed.

Lemma omap_effects {B} (f : event → option B) (effs : list effect) :
  (∀ e, f (Effect e) = None) → omap f (Effect <$> effs) = [].
Proof. intros Hf. induction effs as [|e effs IH]; [done|]. simpl. by rewrite Hf. Qed.

Lemma omap_cons_match {A B} (f : A → option B) x l :
  omap f (x :: l) = match f x with Some y => y :: omap f l | None => omap f l end.
Proof. done. Qed.

Lemma omap_nil_eq {A B} (f : A → option B) : omap f [] = [].
Proof. done. Qed.

Ltac project_trace :=
  repeat first
    [ rewrite omap_app
    | rewrite omap_effects by done
    | rewrite omap_cons_match; cbv beta iota
    | rewrite omap_nil_eq ].

Section DriverProofs.
Context {item St : Type} (process : item → St → St * list effect).

Lemma process_batch_cons total g x batch s :
  process_batch process total g (x :: batch) s =
  ((process_batch process total (S g) batch (process x s).1).1,
   [Progress g total] ++ (Effect <$> (process x s).2) ++ [Progress (g + 1) total] ++
   (process_batch process total (S g) batch (process x s).1).2).
Proof.
  cbn [process_batch]. destruct (process x s) as [s1 effs]. cbn [fst snd].
  by destruct (process_batch process total (S g) batch s1).
Qed.

Lemma process_batch_trace total g batch s :
  chunk_sizes (process_batch process total g batch s).2 = [] ∧
  pauses (process_batch process total g batch s).2 = [] ∧
  climbs g (progress_counts (process_batch process total g batch s).2) (g + length batch).
Proof.
  revert g s. induction batch as [|x batch IH]; intros g s.
  - simpl. split_and!; [done..|lia].
  - rewrite process_batch_cons.
    destruct (IH (S g) (process x s).1) as (IH1 & IH2 & IH3).
    unfold chunk_sizes, pauses, progress_counts in *. cbn [snd].
    project_trace. rewrite IH1, IH2.
    split_and!; [done..|]. simpl. split; [lia|]. split; [lia|].
    replace (g + 1) with (S g) by lia.
    by replace (g + S (length batch)) with (S g + length batch) by lia.
Qed.

Lemma ceil_div_lt n k : k < JS.ceil_div n 50 ↔ 50 * k < n.
Proof.
  unfold JS.ceil_div. pose proof (Nat.div_mod_eq n 50) as Hn.
  pose proof (Nat.mod_upper_bound n 50 ltac:(done)) as Hr.
  set (q := n / 50) in *. set (r := n mod 50) in *. clearbody q r.
  destruct (r =? 0) eqn:Hr0.
  - apply Nat.eqb_eq in Hr0. lia.
  - apply Nat.eqb_neq in Hr0. lia.
Qed.

Lemma run_batch_trace items T acc k :
  (run_batch process items T acc k).2 =
  acc.2 ++ [Chunk (length (JS.slice (k * 50) ((k * 50 + 50) `min` length items) items));
            Progress (k * 50) (length items)] ++
  (process_batch process (length items) (k * 50)
     (JS.slice (k * 50) ((k * 50 + 50) `min` length items) items) acc.1).2 ++
  (if k <? T - 1
   then [Progress ((k * 50 + 50) `min` length items) (length items); Sleep 500]
   else []).
Proof.
  unfold run_batch, BATCH_SIZE.
  by destruct (process_batch process (length items) (k * 50) _ acc.1).
Qed.

Lemma run_batches_prefix items s k :
  let n := length items in
  let T := JS.ceil_div n 50 in
  k ≤ T →
  let tr := (foldl (run_batch process items T) (s, []) (seq 0 k)).2 in
  chunk_sizes tr = chunk_size n <$> seq 0 k ∧
  pauses tr = replicate (k `min` (T - 1)) 500 ∧
  climbs 0 (progress_counts tr) ((50 * k) `min` n).
Proof.
  intros n T. induction k as [|k IH]; intros Hk.
  - simpl. split_and!; [done..|]. lia.
  - rewrite seq_S, foldl_app. cbn [foldl Nat.add]. rewrite run_batch_trace.
    destruct IH as (IH1 & IH2 & IH3); [lia|].
    set (acc := foldl (run_batch process items T) (s, []) (seq 0 k)) in *.
    assert (Hlt : 50 * k < n) by (apply ceil_div_lt; fold T; lia).
    set (batch := JS.slice (k * 50) ((k * 50 + 50) `min` length items) items).
    assert (Hlen : length batch = chunk_size n k).
    { unfold batch, JS.slice, chunk_size. rewrite length_take, length_drop. fold n. lia. }
    pose proof (process_batch_trace (length items) (k * 50) batch acc.1) as (P1 & P2 & P3).
    unfold chunk_sizes, pauses, progress_counts in *.
    rewrite fmap_app. cbn [fmap list_fmap].
    destruct (k <? T - 1) eqn:Hk1; project_trace; rewrite IH1, IH2, P1, P2, ?app_nil_r, Hlen;
      (split_and!; [done| |]).
    + apply Nat.ltb_lt in Hk1.
      replace (S k `min` (T - 1)) with (S (k `min` (T - 1))) by lia.
      by rewrite replicate_S_end.
    + eapply climbs_app; [exact IH3|]. cbn [climbs app]. split; [lia|].
      eapply climbs_app; [exact P3|]. rewrite Hlen. unfold chunk_size. fold n.
      cbn [climbs app]. lia.
    + apply Nat.ltb_ge in Hk1.
      by replace (S k `min` (T - 1)) with (k `min` (T - 1)) by lia.
    + apply Nat.ltb_ge in Hk1.
      eapply climbs_app; [exact IH3|]. cbn [climbs app]. split; [lia|].
      replace ((50 * S k) `min` n) with (k * 50 + length batch); [exact P3|].
      rewrite Hlen. unfold chunk_size. lia.
Qed.

Lemma fmap_seq_const (f : nat → nat) (c a q : nat) :
  (∀ k, a ≤ k < a + q → f k = c) → f <$> seq a q = replicate q c.
Proof.
  revert a. induction q as [|q IH]; intros a Hf; [done|]. simpl.
  rewrite Hf by lia. f_equal. apply IH. intros k Hk. apply Hf. lia.
Qed.

Lemma chunk_size_list n :
  chunk_size n <$> seq 0 (JS.ceil_div n 50) =
  replicate (n / 50) 50 ++ (if n mod 50 =? 0 then [] else [n mod 50]).
Proof.
  unfold JS.ceil_div. pose proof (Nat.div_mod_eq n 50) as Hn.
  pose proof (Nat.mod_upper_bound n 50 ltac:(done)) as Hr.
  set (q := n / 50) in *. set (r := n mod 50) in *. clearbody q r.
  destruct (r =? 0) eqn:Hr0.
  - apply Nat.eqb_eq in Hr0. rewrite app_nil_r. apply fmap_seq_const.
    intros k Hk. unfold chunk_size. lia.
  - apply Nat.eqb_neq in Hr0. rewrite seq_S, fmap_app. simpl. f_equal.
    + apply fmap_seq_const. intros k Hk. unfold chunk_size. lia.
    + f_equal. unfold chunk_size. lia.
Qed.

(** On [n] items the driver announces chunks of 50 items and a last chunk
    of the remainder, ceil(n/50) chunks in all; it pauses 500 ms after
    every chunk but the last; the reported counts never decrease and end at
    [n]. For 120 items: chunks of 50, 50 and 20, and two pauses. *)
Lemma run_batches_counts (items : list item) (s : St) :
  let n := length items in
  let tr := (run_batches process items s).2 in
  chunk_sizes tr = replicate (n / 50) 50 ++ (if n mod 50 =? 0 then [] else [n mod 50]) ∧
  length (chunk_sizes tr) = JS.ceil_div n 50 ∧
  pauses tr = replicate (JS.ceil_div n 50 - 1) 500 ∧
  Sorted le (0 :: progress_counts tr) ∧
  last (0 :: progress_counts tr) = Some n ∧
  (n = 120 → chunk_sizes tr = [50; 50; 20] ∧ pauses tr = [500; 500]).
Proof.
  intros n tr.
  destruct (run_batches_prefix items s (JS.ceil_div n 50)) as (H1 & H2 & H3); [done|].
  fold n in H1, H2, H3. unfold run_batches in tr. unfold BATCH_SIZE in tr. fold n in tr.
  fold tr in H1, H2, H3.
  assert (Hmin : (50 * JS.ceil_div n 50) `min` n = n).
  { pose proof (proj1 (ceil_div_lt n (JS.ceil_div n 50))).
    destruct (decide (50 * JS.ceil_div n 50 < n)) as [Hlt|Hge]; [|lia].
    apply ceil_div_lt in Hlt. lia. }
  rewrite Hmin in H3. apply climbs_sorted in H3 as [H3 H4].
  rewrite chunk_size_list in H1.
  replace (JS.ceil_div n 50 `min` (JS.ceil_div n 50 - 1)) with (JS.ceil_div n 50 - 1) in H2 by lia.
  split_and!; [done| |done..|].
  - rewrite H1, length_app, length_replicate. unfold JS.ceil_div.
    destruct (n mod 50 =? 0); simpl; lia.
  - intros Hn. rewrite H1, H2, Hn. done.
Qed.

End DriverProofs.

(** The driver handles the items one after the other, in order: chunking
    changes neither the final state nor the effects. *)
Section DriverSequential.
Context {item St : Type} (process : item → St → St * list effect).

Lemma sequential_app l1 l2 s :
  sequential process (l1 ++ l2) s =
  ((sequential process l2 (sequential process l1 s).1).1,
   (sequential process l1 s).2 ++ (sequential process l2 (sequential process l1 s).1).2).
Proof.
  revert s. induction l1 as [|x l1 IH]; intros s; simpl.
  - by destruct (sequential process l2 s).
  - rewrite IH. simpl. by rewrite app_assoc.
Qed.

Lemma effects_of_effects (effs : list effect) : effects (Effect <$> effs) = effs.
Proof. induction effs as [|e effs IH]; [done|]. unfold effects in *. cbn. by rewrite IH. Qed.

Lemma effects_app l1 l2 : effects (l1 ++ l2) = effects l1 ++ effects l2.
Proof. apply omap_app. Qed.

Lemma effects_cons e l :
  effects (e :: l) = match e with Effect x => x :: effects l | _ => effects l end.
Proof. by destruct e. Qed.

Lemma process_batch_sequential total g batch s :
  (process_batch process total g batch s).1 = (sequential process batch s).1 ∧
  effects (process_batch process total g batch s).2 = (sequential process batch s).2.
Proof.
  revert g s. induction batch as [|x batch IH]; intros g s; [done|].
  rewrite process_batch_cons. destruct (IH (S g) (process x s).1) as [IH1 IH2].
  cbn [fst snd sequential]. split; [done|].
  rewrite !effects_app, !effects_cons, IH2, effects_of_effects. done.
Qed.

Lemma run_batch_fst items T acc k :
  (run_batch process items T acc k).1 =
  (process_batch process (length items) (k * 50)
     (JS.slice (k * 50) ((k * 50 + 50) `min` length items) items) acc.1).1.
Proof.
  unfold run_batch, BATCH_SIZE.
  by destruct (process_batch process (length items) (k * 50) _ acc.1).
Qed.

Lemma run_batches_prefix_sequential items s k :
  let T := JS.ceil_div (length items) 50 in
  let acc := foldl (run_batch process items T) (s, []) (seq 0 k) in
  acc.1 = (sequential process (take (50 * k) items) s).1 ∧
  effects acc.2 = (sequential process (take (50 * k) items) s).2.
Proof.
  intros T. induction k as [|k IH]; cbv zeta.
  - done.
  - rewrite seq_S, foldl_app. cbn [foldl Nat.add].
    destruct IH as [IH1 IH2].
    set (acc := foldl (run_batch process items T) (s, []) (seq 0 k)) in *.
    rewrite run_batch_fst, run_batch_trace.
    set (batch := JS.slice (k * 50) ((k * 50 + 50) `min` length items) items).
    assert (Htake : take (50 * S k) items = take (50 * k) items ++ batch).
    { unfold batch, JS.slice.
      replace (50 * S k) with (50 * k + 50) by lia. rewrite <- take_take_drop.
      f_equal. replace (k * 50) with (50 * k) by lia.
      destruct (decide (50 * k + 50 ≤ length items)) as [Hle|Hgt].
      - f_equal. lia.
      - rewrite !take_ge; [done|rewrite length_drop; lia..]. }
    rewrite Htake, sequential_app.
    destruct (process_batch_sequential (length items) (k * 50) batch acc.1) as [P1 P2].
    cbn [fst snd]. rewrite P1, IH1. split; [done|].
    rewrite IH1 in P2. rewrite !effects_app, !effects_cons, IH2, P2.
    destruct (k <? T - 1); rewrite ?effects_cons; by rewrite app_nil_r.
Qed.

Lemma run_batches_sequential items s :
  (run_batches process items s).1 = (sequential process items s).1 ∧
  effects (run_batches process items s).2 = (sequential process items s).2.
Proof.
  pose proof (run_batches_prefix_sequential items s (JS.ceil_div (length items) 50)) as H.
  cbv zeta in H. unfold run_batches, BATCH_SIZE. rewrite take_ge in H; [done|].
  destruct (decide (50 * JS.ceil_div (length items) 50 < length items)) as [Hlt|]; [|lia].
  apply ceil_div_lt in Hlt. lia.
Qed.

End DriverSequential.

(** The run of the driver is the run of the chunks. *)
Section ChunkedProofs.
Context {item St : Type} (process : item → St → St * list effect).

Lemma process_batch_handled total g batch s :
  process_batch process total g batch s =
  ((sequential process batch s).1, handled process total g batch s).
Proof.
  revert g s. induction batch as [|x batch IH]; intros g s; [done|].
  rewrite process_batch_cons, IH. done.
Qed.

Lemma slice_chunk (items : list item) k :
  JS.slice (k * 50) ((k * 50 + 50) `min` length items) items = take 50 (drop (50 * k) items).
Proof.
  unfold JS.slice. replace (k * 50) with (50 * k) by lia.
  destruct (decide (50 * k + 50 ≤ length items)) as [Hle|Hgt].
  - f_equal. lia.
  - rewrite !take_ge; [done|rewrite length_drop; lia..].
Qed.

Lemma chunks_nil fuel : chunks fuel (@nil item) = [].
Proof. by destruct fuel. Qed.

Lemma chunks_cons fuel (l : list item) :
  l ≠ [] → chunks (S fuel) l = take 50 l :: chunks fuel (drop 50 l).
Proof. by destruct l. Qed.

Lemma chunks_empty fuel (l : list item) : chunks fuel l = [] ↔ fuel = 0 ∨ l = [].
Proof. destruct fuel, l; simpl; split; try done; try tauto; intros [?|?]; done. Qed.

Lemma run_batches_from (items : list item) j :
  let n := length items in
  let T := JS.ceil_div n 50 in
  ∀ k fuel acc, j = T - k → k ≤ T → n - 50 * k ≤ fuel →
    (foldl (run_batch process items T) acc (seq k j)).2 =
    acc.2 ++ chunked process n (50 * k) (chunks fuel (drop (50 * k) items)) acc.1.
Proof.
  intros n T. induction j as [|j IH]; intros k fuel acc Hj Hk Hfuel.
  - assert (HkT : k = T) by lia.
    assert (Hge : n ≤ 50 * k).
    { destruct (decide (50 * k < n)) as [Hlt|]; [|lia]. apply ceil_div_lt in Hlt. fold T in Hlt. lia. }
    rewrite drop_ge by (fold n; lia). rewrite chunks_nil. simpl. by rewrite app_nil_r.
  - assert (Hlt : 50 * k < n) by (apply ceil_div_lt; fold T; lia).
    destruct fuel as [|fuel]; [lia|].
    cbn [seq foldl]. rewrite (IH (S k) fuel); [|lia|lia|lia].
    rewrite run_batch_fst, run_batch_trace, slice_chunk, process_batch_handled. cbn [fst snd].
    replace (k * 50) with (50 * k) by lia.
    set (m := drop (50 * k) items).
    assert (Hm : length m = n - 50 * k) by (unfold m; by rewrite length_drop).
    rewrite (chunks_cons fuel m) by (intros Hnil; rewrite Hnil in Hm; simpl in Hm; lia).
    assert (Hdrop : drop (50 * S k) items = drop 50 m).
    { unfold m. rewrite drop_drop. f_equal. lia. }
    rewrite Hdrop. cbn [chunked]. fold n.
    assert (Hlen : length (take 50 m) = 50 `min` (n - 50 * k)) by (rewrite length_take; lia).
    rewrite <- !app_assoc. f_equal. cbn [app]. do 2 f_equal. f_equal.
    destruct (k <? T - 1) eqn:Hk1.
    + apply Nat.ltb_lt in Hk1.
      assert (Hnext : 50 * S k < n) by (apply ceil_div_lt; fold T; lia).
      assert (Hrest : chunks fuel (drop 50 m) ≠ []).
      { rewrite chunks_empty. intros [->|Hnil]; [lia|].
        apply (f_equal length) in Hnil. rewrite length_drop in Hnil. simpl in Hnil. lia. }
      destruct (chunks fuel (drop 50 m)) as [|c rest] eqn:Hcs; [done|].
      rewrite Hlen. replace (50 * k + 50 `min` (n - 50 * k)) with (50 * S k) by lia.
      replace ((50 * k + 50) `min` n) with (50 * S k) by lia. done.
    + apply Nat.ltb_ge in Hk1.
      assert (Hnext : ¬ 50 * S k < n) by (rewrite <- ceil_div_lt; fold T; lia).
      assert (Hrest : chunks fuel (drop 50 m) = []).
      { apply chunks_empty. right. apply length_zero_iff_nil. rewrite length_drop. lia. }
      rewrite Hrest. done.
Qed.

Lemma chunks_concat fuel (l : list item) : length l ≤ fuel → concat (chunks fuel l) = l.
Proof.
  revert l. induction fuel as [|fuel IH]; intros l Hl.
  - destruct l; [done|simpl in Hl; lia].
  - destruct l as [|x l']; [done|]. rewrite chunks_cons by done. cbn [concat].
    rewrite IH; [apply take_drop|]. rewrite length_drop. lia.
Qed.

Lemma handled_chunk_sizes total g chunk s :
  chunk_sizes (handled process total g chunk s) = [].
Proof.
  revert g s. induction chunk as [|x chunk IH]; intros g s; [done|].
  unfold chunk_sizes in *. cbn [handled]. rewrite !omap_app, IH, omap_effects by done. done.
Qed.

Lemma chunked_chunk_sizes total g cs s :
  chunk_sizes (chunked process total g cs s) = length <$> cs.
Proof.
  revert g s. induction cs as [|c cs IH]; intros g s; [done|].
  cbn [chunked]. unfold chunk_sizes in *. rewrite !omap_app, IH.
  fold (chunk_sizes (handled process total g c s)). rewrite handled_chunk_sizes.
  by destruct cs.
Qed.

(** Claim C7. The driver cuts the [n] items into chunks of 50 and a last
    chunk of the remainder, ceil(n/50) chunks in all, and what is observed
    of its run is what is observed of these chunks handled one after the
    other: each chunk announced, its items handled in order, each between
    two progress reports, from the state the items before have left, with
    a pause of 500 ms after every chunk but the last. So the final state is
    that of the items handled one by one, there are ceil(n/50) - 1 pauses,
    and the reported counts never decrease and end at [n]. For 120 items:
    chunks of 50, 50 and 20, and two pauses. *)
Theorem run_batches_chunks (items : list item) (s : St) :
  let n := length items in
  let cs := chunks n items in
  let r := run_batches process items s in
  concat cs = items ∧
  length <$> cs = replicate (n / 50) 50 ++ (if n mod 50 =? 0 then [] else [n mod 50]) ∧
  length cs = JS.ceil_div n 50 ∧
  r.2 = chunked process n 0 cs s ∧
  r.1 = (sequential process items s).1 ∧
  chunk_sizes r.2 = length <$> cs ∧
  pauses r.2 = replicate (JS.ceil_div n 50 - 1) 500 ∧
  Sorted le (0 :: progress_counts r.2) ∧
  last (0 :: progress_counts r.2) = Some n ∧
  (n = 120 → length <$> cs = [50; 50; 20] ∧ pauses r.2 = [500; 500]).
Proof.
  intros n cs r.
  assert (Htr : r.2 = chunked process n 0 cs s).
  { pose proof (run_batches_from items (JS.ceil_div n 50) 0 n (s, [])) as H.
    cbv zeta in H. fold n in H. rewrite Nat.sub_0_r in H.
    specialize (H eq_refl ltac:(lia) ltac:(lia)). exact H. }
  destruct (run_batches_counts process items s) as (C1 & C2 & C3 & C4 & C5 & C6).
  fold n r in C1, C2, C3, C4, C5, C6.
  assert (Hsizes : chunk_sizes r.2 = length <$> cs) by (by rewrite Htr, chunked_chunk_sizes).
  split_and!; try done.
  - apply chunks_concat. done.
  - by rewrite <- Hsizes.
  - by rewrite <- C2, Hsizes, length_fmap.
  - apply run_batches_sequential.
  - intros Hn. rewrite <- Hsizes. by apply C6.
Qed.

End ChunkedProofs.

(** ** The rebuild *)

Lemma Effect_elem_effects (e : effect) (tr : list event) :
  Effect e ∈ tr ↔ e ∈ effects tr.
Proof.
  unfold effects. rewrite list_elem_of_omap. split.
  - intros H. by exists (Effect e).
  - intros (ev & Hev & Heq). destruct ev; simplify_eq. done.
Qed.

Lemma snd_imap_pair {A} (l : list A) : snd <$> imap pair l = l.
Proof.
  apply list_eq. intros i. rewrite list_lookup_fmap, list_lookup_imap.
  by destruct (l !! i).
Qed.

Section RebuildProofs.
Context {W : Type}.
Context (fetchAllChats : character → W → fetched_chats * W).
Context (fetchFullChatData : character → string → W → fetched * W).
Context (registerBranchWithPlugin : branch → W → bool * W).
Context (dateNow : W → Z).

Lemma collect_emit_inv evs w (st : collect_state (W := W)) :
  (∀ b, Effect (Register b) ∉ evs) → collect_inv st →
  collect_inv (collect_emit evs 1 w st).
Proof.
  intros Hevs [H1 H2 H3 H4]. split; simpl; [done..|].
  intros b [?|?]%elem_of_app; [by eapply H4|by eapply Hevs].
Qed.

Ltac no_register :=
  let b := fresh in let H := fresh in
  intros b H; repeat (apply elem_of_cons in H as [H|H]; [discriminate H|]);
  by apply elem_of_nil in H.

Lemma collect_step_spec ch total st ic :
  collect_inv st →
  let st' := collect_step fetchFullChatData dateNow ch total st ic in
  collect_inv st' ∧
  length (branchDataList st') + collect_skipped st' =
    S (length (branchDataList st) + collect_skipped st) ∧
  collect_skipped st + (if is_checkpoint_file ic.2 then 1 else 0) ≤ collect_skipped st'.
Proof.
  intros Hinv. destruct ic as [i c]. unfold collect_step, is_checkpoint_file. cbn [snd].
  destruct (isCheckpointChat (JS.strip_jsonl (file_name c))) eqn:Hcp.
  { split_and!; [apply collect_emit_inv; [no_register|done]|simpl; lia..]. }
  destruct (fetchFullChatData ch _ (collect_world st)) as [full w].
  destruct full as [| |[md|]];
    try (split_and!; [apply collect_emit_inv; [no_register|done]|simpl; lia..]).
  destruct (meta_uuid md) as [u|];
    [|split_and!; [apply collect_emit_inv; [no_register|done]|simpl; lia..]].
  destruct (JS.str_truthy u);
    [|split_and!; [apply collect_emit_inv; [no_register|done]|simpl; lia..]].
  destruct (uuidToChatName st !! u) as [existing|] eqn:Hlk;
    [split_and!; [apply collect_emit_inv; [no_register|done]|simpl; lia..]|].
  destruct Hinv as [H1 H2 H3 H4]. split_and!; [split|..]; simpl.
  - intros b [Hb|Hb]%elem_of_app; [by apply H1|].
    apply list_elem_of_singleton in Hb as ->. done.
  - rewrite fmap_app. apply NoDup_app. split_and!; [done| |apply NoDup_singleton].
    intros x Hx ->%list_elem_of_singleton. simpl in Hx.
    apply H3 in Hx. rewrite Hlk in Hx. by destruct Hx.
  - intros x. rewrite fmap_app, elem_of_app. simpl. rewrite list_elem_of_singleton.
    rewrite <- H3. destruct (decide (u = x)) as [->|Hne].
    + rewrite lookup_insert_eq. split; [by right|by eexists].
    + rewrite lookup_insert_ne by done. split; [by left|]. by intros [?|?].
  - intros b [?|Hb]%elem_of_app; [by eapply H4|].
    apply list_elem_of_singleton in Hb. discriminate Hb.
  - rewrite length_app. simpl. lia.
  - lia.
Qed.

Lemma collect_fold_spec ch total l st :
  collect_inv st →
  let st' := foldl (collect_step fetchFullChatData dateNow ch total) st l in
  collect_inv st' ∧
  length (branchDataList st') + collect_skipped st' =
    length (branchDataList st) + collect_skipped st + length l ∧
  collect_skipped st +
    length (filter (λ c, is_checkpoint_file c = true) (snd <$> l)) ≤ collect_skipped st'.
Proof.
  revert st. induction l as [|ic l IH]; intros st Hinv; cbv zeta.
  - simpl. split_and!; [done|lia|lia].
  - cbn [foldl]. destruct (collect_step_spec ch total st ic Hinv) as (S1 & S2 & S3).
    destruct (IH _ S1) as (I1 & I2 & I3). split_and!; [done| |].
    + rewrite I2, S2. simpl. lia.
    + rewrite fmap_cons, filter_cons. destruct (is_checkpoint_file ic.2) eqn:Hcp.
      * rewrite decide_True by done. simpl. lia.
      * rewrite decide_False by congruence. lia.
Qed.

(** The registration loop, item by item. *)
Lemma register_sequential items w p s :
  (sequential (register_item registerBranchWithPlugin) items (w, (p, s))).1.2.1 +
  (sequential (register_item registerBranchWithPlugin) items (w, (p, s))).1.2.2
    = p + s + length items ∧
  s ≤ (sequential (register_item registerBranchWithPlugin) items (w, (p, s))).1.2.2 ∧
  (∀ b, Register b ∈ (sequential (register_item registerBranchWithPlugin) items (w, (p, s))).2 →
        b ∈ items).
Proof.
  revert w p s. induction items as [|x items IH]; intros w p s.
  - simpl. split_and!; [lia|lia|]. intros b Hb. by apply elem_of_nil in Hb.
  - cbn [sequential].
    assert (Hstep : register_item registerBranchWithPlugin x (w, (p, s)) =
      if (registerBranchWithPlugin x w).1
      then (((registerBranchWithPlugin x w).2, (S p, s)), [Register x])
      else (((registerBranchWithPlugin x w).2, (p, S s)),
            [Register x; Log (ErrorRegistering (chat_name x))])).
    { unfold register_item. by destruct (registerBranchWithPlugin x w) as [[] w']. }
    rewrite Hstep. destruct ((registerBranchWithPlugin x w).1); cbn [fst snd].
    + destruct (IH (registerBranchWithPlugin x w).2 (S p) s) as (I1 & I3 & I2).
      split_and!; [rewrite I1; simpl; lia|lia|].
      intros b [Hb|Hb]%elem_of_app.
      * apply list_elem_of_singleton in Hb. simplify_eq. by left.
      * right. by apply I2.
    + destruct (IH (registerBranchWithPlugin x w).2 p (S s)) as (I1 & I3 & I2).
      split_and!; [rewrite I1; simpl; lia|lia|].
      intros b [Hb|Hb]%elem_of_app.
      * apply elem_of_cons in Hb as [Hb|Hb]; [simplify_eq; by left|].
        apply list_elem_of_singleton in Hb. discriminate Hb.
      * right. by apply I2.
Qed.

Lemma Log_not_Register (l : list console) b : Effect (Register b) ∉ (Effect ∘ Log <$> l).
Proof. intros (c & Hc & _)%list_elem_of_fmap. discriminate Hc. Qed.

(** Claim C8, as the code has it. [rebuildStorageFromChats] returns on every
    host; it registers no chat whose name marks a checkpoint; the skipped
    count covers every checkpoint chat (together with the other chats it
    did not register), and processed plus skipped is the number of chats. *)
Theorem rebuildStorageFromChats_skips_checkpoints (ch : character) (w : W) :
  ∃ res tr w',
    rebuildStorageFromChats fetchAllChats fetchFullChatData registerBranchWithPlugin
      dateNow ch w = Some (res, tr, w') ∧
    (∀ b, Effect (Register b) ∈ tr → isCheckpointChat (chat_name b) = false) ∧
    (∀ chats w0, fetchAllChats ch w = (Chats chats, w0) →
       length (filter (λ c, is_checkpoint_file c = true) chats) ≤ skippedCount res ∧
       processedCount res + skippedCount res = length chats).
Proof.
  unfold rebuildStorageFromChats.
  destruct (fetchAllChats ch w) as [[msg|chats] w0].
  { eexists _, _, _. split_and!; [done| |done]. no_register. }
  destruct chats as [|c0 chats0].
  { eexists _, _, _. split_and!; [done|no_register|].
    intros chats w1 ?. simplify_eq. done. }
  cbv beta iota.
  assert (Hch : ∃ chats, chats = c0 :: chats0) by by eexists.
  destruct Hch as [chats Hch]. rewrite <- !Hch.
  set (st0 := CollectState [] ∅ 0 _ w0).
  assert (Hinv0 : collect_inv st0).
  { split; simpl.
    - intros b Hb. by apply elem_of_nil in Hb.
    - apply NoDup_nil_2.
    - intros u. rewrite lookup_empty. split; [by intros [? ?]|]. intros Hu. by apply elem_of_nil in Hu.
    - no_register. }
  destruct (collect_fold_spec ch (length chats) (imap pair chats) st0 Hinv0) as (Hinv & Hcount & Hcp).
  rewrite snd_imap_pair in Hcp. rewrite length_imap in Hcount.
  cbn [branchDataList collect_skipped st0 length] in Hcount, Hcp.
  set (st := foldl _ st0 (imap pair chats)) in *.
  pose proof (validate_loop (uuidToChatName st) (branchDataList st) (ValidateState [] 0 [])) as Hval.
  unfold validateAndFixBranches. rewrite Hval. cbn [validated app].
  set (validatedBranches := map _ (branchDataList st)).
  assert (Huuid : uuid <$> validatedBranches = uuid <$> branchDataList st).
  { unfold validatedBranches. generalize (branchDataList st). intros l.
    induction l as [|b l IH]; [done|]. cbn. rewrite <- IH. f_equal.
    by destruct (orphaned _ b). }
  assert (Hnames : ∀ b, b ∈ validatedBranches → isCheckpointChat (chat_name b) = false).
  { intros b Hb. unfold validatedBranches in Hb. apply list_elem_of_In, in_map_iff in Hb as (b0 & <- & Hb0).
    apply list_elem_of_In in Hb0. apply (ci_names _ Hinv) in Hb0.
    by destruct (orphaned _ b0). }
  destruct (sortBranchesForRegistration_run validatedBranches) as (ss & Hsort & Hsinv & Hall).
  rewrite Hsort. cbn [mbind option_bind].
  assert (Hperm : sorted ss ≡ₚ validatedBranches).
  { apply sorted_permutation; [|done..]. rewrite Huuid. apply (ci_nodup _ Hinv). }
  destruct (run_batches_sequential (register_item registerBranchWithPlugin) (sorted ss)
              (collect_world st, (0, collect_skipped st))) as [Hstate Heffs].
  destruct (register_sequential (sorted ss) (collect_world st) 0 (collect_skipped st))
    as (Hsum & Hmono & Hreg).
  rewrite <- Hstate in Hsum, Hmono. rewrite <- Heffs in Hreg.
  destruct (run_batches _ (sorted ss) _) as [[w1 [processed skipped]] tr].
  cbn [fst snd] in Hsum, Hmono, Hreg.
  eexists _, _, _. split_and!; [done| |].
  - intros b Hb.
    repeat match type of Hb with
    | _ ∈ _ ++ _ => apply elem_of_app in Hb as [Hb|Hb]
    | _ ∈ _ :: _ => apply elem_of_cons in Hb as [Hb|Hb]; [discriminate Hb|]
    end;
    try (by destruct (ci_trace _ Hinv b));
    try (by destruct (Log_not_Register _ b Hb)).
    apply Hnames. rewrite <- Hperm. apply Hreg. by apply Effect_elem_effects.
  - intros chats' w' Heq.
    assert (chats' = chats) as -> by (by simplify_eq).
    clear Heq Hch.
    cbn [processedCount skippedCount].
    assert (length (sorted ss) = length (branchDataList st)) as Hlen.
    { rewrite Hperm. unfold validatedBranches. by rewrite length_map. }
    lia.
Qed.

End RebuildProofs.

(** Claim C8, counterexample. [migrateAllChats] registers a checkpoint chat
    and counts it as a success; [rebuildStorageFromChats] reports the same
    counts for a checkpoint chat as for a chat skipped for having no uuid. *)
Lemma bulk_operations_treat_checkpoints_alike :
  isCheckpointChat (chat_name checkpoint_branch) = true ∧
  Effect (Register checkpoint_branch) ∈ (host_migrate "main - Checkpoint #1.jsonl").1.2 ∧
  successCount (host_migrate "main - Checkpoint #1.jsonl").1.1 = 1 ∧
  is_checkpoint_file (ChatData "main - Checkpoint #1.jsonl" None) = true ∧
  is_checkpoint_file (ChatData "plain.jsonl" None) = false ∧
  fst ∘ fst <$> host_rebuild "main - Checkpoint #1.jsonl" = Some (RebuildResult 0 1 None) ∧
  fst ∘ fst <$> host_rebuild "plain.jsonl" = Some (RebuildResult 0 1 None).
Proof.
  split_and!; [done| |done..].
  apply (bool_decide_unpack _). by vm_compute.
Qed.

(** ** The current-node search *)

Lemma first_node_filter (test : nat → bool) (P : nat → Prop) `{!∀ n, Decision (P n)}
    (m : JS.ordered_map nat) :
  (∀ n, test n = true ↔ P n) →
  first_node test m = head (filter P (snd <$> m)).
Proof.
  intros Htest. induction m as [|[k n] m IH]; [done|]. simpl.
  rewrite filter_cons. destruct (test n) eqn:Ht.
  - rewrite decide_True by by apply Htest. done.
  - rewrite decide_False; [done|]. rewrite <- Htest. congruence.
Qed.

Lemma option_union_None_l {A} (o : option A) : None ∪ o = o.
Proof. by destruct o. Qed.

Lemma option_union_None {A} (o1 o2 : option A) :
  o1 ∪ o2 = None → o1 = None ∧ o2 = None.
Proof. by destruct o1, o2. Qed.

Lemma option_union_Some_l {A} (x : A) (o : option A) : Some x ∪ o = Some x.
Proof. by destruct o. Qed.

Lemma find_by_name_spec st :
  find_by_name st =
  match head (filter (exact_name st) (candidates st)) with
  | Some n => inl (set_currentNode (Some n) st)
  | None => inr st
  end.
Proof.
  unfold find_by_name, candidates.
  by rewrite (first_node_filter _ (exact_name st)) by (intros; apply bool_decide_eq_true).
Qed.

Lemma find_ignoring_case_spec st :
  currentNode st = None →
  find_ignoring_case st =
  match head (filter (same_ignoring_case st) (candidates st)) with
  | Some n => inl (set_currentNode (Some n) st)
  | None => inr st
  end.
Proof.
  intros Hc. unfold find_ignoring_case, candidates. rewrite bool_decide_eq_true_2 by done.
  by rewrite (first_node_filter _ (same_ignoring_case st))
    by (intros; apply bool_decide_eq_true).
Qed.

Lemma find_partial_spec st :
  currentNode st = None →
  find_partial st =
  match head (filter (substring_either_way st) (candidates st)) with
  | Some n => set_currentNode (Some n) st
  | None => st
  end.
Proof.
  intros Hc. unfold find_partial, candidates. rewrite bool_decide_eq_true_2 by done.
  by rewrite (first_node_filter _ (substring_either_way st))
    by (intros; unfold substring_either_way; rewrite orb_true_iff; done).
Qed.

Lemma find_fallback_spec st :
  currentNode (find_fallback st) = currentNode st ∪ head (candidates st) ∧
  heap (find_fallback st) = heap st ∧ nodeMap (find_fallback st) = nodeMap st ∧
  allTreeRoots (find_fallback st) = allTreeRoots st ∧
  treeRoots (find_fallback st) = treeRoots st.
Proof.
  unfold find_fallback, candidates. case_bool_decide as Hc.
  - destruct (nodeMap st) as [|[k n] m] eqn:Hm; simpl; by rewrite ?Hc, ?Hm.
  - destruct (currentNode st); [|done]. by rewrite option_union_Some_l.
Qed.

(** The stages after the identifier lookup, from a state with no node
    selected. *)
Lemma find_by_name_onwards st :
  currentNode st = None →
  let r := match find_by_name st with
           | inl done => done
           | inr st => match find_ignoring_case st with
                       | inl done => done
                       | inr st => find_fallback (find_partial st)
                       end
           end in
  currentNode r =
    head (filter (exact_name st) (candidates st)) ∪
    head (filter (same_ignoring_case st) (candidates st)) ∪
    head (filter (substring_either_way st) (candidates st)) ∪
    head (candidates st) ∧
  heap r = heap st ∧ nodeMap r = nodeMap st ∧
  allTreeRoots r = allTreeRoots st ∧ treeRoots r = treeRoots st.
Proof.
  intros H0. rewrite find_by_name_spec.
  destruct (head (filter (exact_name st) (candidates st))) as [n1|];
    [by rewrite !option_union_Some_l|rewrite option_union_None_l].
  rewrite find_ignoring_case_spec by done.
  destruct (head (filter (same_ignoring_case st) (candidates st))) as [n2|];
    [by rewrite !option_union_Some_l|rewrite option_union_None_l].
  cbv zeta.
  destruct (find_fallback_spec (find_partial st)) as (F1 & F2 & F3 & F4 & F5).
  rewrite F1, F2, F3, F4, F5. rewrite find_partial_spec by done.
  destruct (head (filter (substring_either_way st) (candidates st))) as [n3|]; [done|].
  by rewrite H0.
Qed.

(** [findCurrentNode] computes the fallback chain and changes nothing else. *)
Lemma findCurrentNode_chain (st : view) :
  currentNode (findCurrentNode st) = locate nonempty_uuid_match st ∧
  heap (findCurrentNode st) = heap st ∧
  nodeMap (findCurrentNode st) = nodeMap st ∧
  allTreeRoots (findCurrentNode st) = allTreeRoots st ∧
  treeRoots (findCurrentNode st) = treeRoots st.
Proof.
  set (st0 := set_currentNode None st).
  assert (Hloc : locate nonempty_uuid_match st = locate nonempty_uuid_match st0) by done.
  rewrite Hloc. unfold findCurrentNode. fold st0.
  assert (H0 : currentNode st0 = None) by done.
  change (heap st) with (heap st0). change (nodeMap st) with (nodeMap st0).
  change (allTreeRoots st) with (allTreeRoots st0).
  change (treeRoots st) with (treeRoots st0).
  clearbody st0. clear Hloc st.
  pose proof (find_by_name_onwards st0 H0) as Hrest. cbv zeta in Hrest.
  unfold locate, nonempty_uuid_match, find_by_uuid.
  destruct (currentChatUUID st0) as [u|]; simpl;
    [destruct (JS.str_truthy u);
      [destruct (JS.map_get u (nodeMap st0)) as [n|];
        [by rewrite !option_union_Some_l|]|]|];
    rewrite option_union_None_l; exact Hrest.
Qed.

(** On any view, [findCurrentNode] selects the first of: the node under the
    current identifier, when that identifier is not empty; the first node
    with the current name; the first node with that name up to case and
    surrounding blanks; the first node whose name contains, or is contained
    in, the current name up to case and blanks; the first node of the map.
    It selects none exactly when the map is empty, and changes nothing
    else. *)
Lemma findCurrentNode_locates (st : view) :
  currentNode (findCurrentNode st) = locate nonempty_uuid_match st ∧
  (currentNode (findCurrentNode st) = None ↔ nodeMap st = []) ∧
  heap (findCurrentNode st) = heap st ∧
  nodeMap (findCurrentNode st) = nodeMap st ∧
  allTreeRoots (findCurrentNode st) = allTreeRoots st ∧
  treeRoots (findCurrentNode st) = treeRoots st.
Proof.
  destruct (findCurrentNode_chain st) as (Hc & Hh & Hm & Ha & Ht). split_and!; try done.
  rewrite Hc. unfold locate, candidates. split.
  - intros Hnone. apply option_union_None in Hnone as [_ Hnone].
    by destruct (nodeMap st) as [|[k n] m].
  - intros Hnil. unfold nonempty_uuid_match. rewrite Hnil. simpl.
    destruct (currentChatUUID st) as [u|]; simpl; [by destruct (JS.str_truthy u)|done].
Qed.

Lemma uuid_match_nonempty (st : view) :
  currentChatUUID st ≠ Some "" → nonempty_uuid_match st = uuid_match st.
Proof.
  unfold nonempty_uuid_match, uuid_match. destruct (currentChatUUID st) as [u|]; [|done].
  intros Hu. simpl. unfold JS.str_truthy. rewrite bool_decide_eq_true_2; [done|].
  by intros ->.
Qed.

(** Claim C4. For a current identifier that is null or not empty, as the
    view stores it, [findCurrentNode] selects the current node by the
    fallback chain, the first stage that succeeds deciding: the node under
    the current identifier; the first node with the current name; the first
    node with that name up to case and surrounding blanks; the first node
    whose name contains, or is contained in, the current name; the first
    node of the map. It selects none exactly when the map is empty, and
    changes nothing else. *)
Theorem findCurrentNode_fallback_chain (st : view) :
  currentChatUUID st ≠ Some "" →
  currentNode (findCurrentNode st) = locate uuid_match st ∧
  (currentNode (findCurrentNode st) = None ↔ nodeMap st = []) ∧
  heap (findCurrentNode st) = heap st ∧
  nodeMap (findCurrentNode st) = nodeMap st ∧
  allTreeRoots (findCurrentNode st) = allTreeRoots st ∧
  treeRoots (findCurrentNode st) = treeRoots st.
Proof.
  intros Hu. destruct (findCurrentNode_locates st) as (Hc & Hrest).
  split; [|exact Hrest]. rewrite Hc. unfold locate. by rewrite uuid_match_nonempty.
Qed.

(** Claim C4, witness: the forest of two trees, the current chat being the
    branch of the first. *)
Lemma findCurrentNode_fallback_chain_witness :
  let st := buildNodeMapFromTree two_trees (new_view "branch" (Some "c1")) in
  currentNode (findCurrentNode st) = locate uuid_match st ∧
  (currentNode (findCurrentNode st) = None ↔ nodeMap st = []) ∧
  heap (findCurrentNode st) = heap st ∧
  nodeMap (findCurrentNode st) = nodeMap st ∧
  allTreeRoots (findCurrentNode st) = allTreeRoots st ∧
  treeRoots (findCurrentNode st) = treeRoots st.
Proof.
  apply (findCurrentNode_fallback_chain
           (buildNodeMapFromTree two_trees (new_view "branch" (Some "c1")))).
  by vm_compute.
Defined.

(** The hypothesis on the current identifier is not idle. When it is the
    empty string and a key of the map, the node under that key is passed
    over for the node with the current name. *)
Lemma findCurrentNode_skips_empty_uuid :
  locate uuid_match empty_uuid_view = Some 0 ∧
  currentNode (findCurrentNode empty_uuid_view) = Some 1.
Proof. by vm_compute. Qed.

Lemma candidates_elem st a : a ∈ candidates st → ∃ k, (k, a) ∈ nodeMap st.
Proof.
  unfold candidates. intros ([k a'] & -> & Hin)%list_elem_of_fmap. by exists k.
Qed.

Lemma head_filter_elem (P : nat → Prop) `{!∀ n, Decision (P n)} (l : list nat) a :
  head (filter P l) = Some a → a ∈ l.
Proof.
  intros Hhd. apply head_Some_elem_of in Hhd. by apply list_elem_of_filter in Hhd as [_ ?].
Qed.

(** ** The active tree *)

(** Induction on trees, with the hypothesis for every child. *)
Lemma tnode_ind' (P : tnode → Prop) :
  (∀ u name pu cs, Forall P cs → P (TNode u name pu cs)) → ∀ t, P t.
Proof.
  intros H. fix IH 1. intros [u name pu cs]. apply H.
  induction cs as [|c cs IHcs]; constructor; [apply IH|exact IHcs].
Qed.

Section Extend.
Context (base : nat) (parent : option nat) (blk cblk : list inode).
Let L := length blk.
Let blk' := alter (add_child (base + L)) 0 blk ++ cblk.

Lemma extend_lookup_0 nd0 : blk !! 0 = Some nd0 → blk' !! 0 = Some (add_child (base + L) nd0).
Proof.
  intros H. unfold blk'. rewrite lookup_app_l.
  - by rewrite list_lookup_alter_eq, H.
  - rewrite length_alter. by apply lookup_lt_Some in H.
Qed.

Lemma extend_lookup_old k cn : 0 < k → blk !! k = Some cn → blk' !! k = Some cn.
Proof.
  intros Hk H. unfold blk'. rewrite lookup_app_l.
  - rewrite list_lookup_alter_ne by lia. done.
  - rewrite length_alter. by apply lookup_lt_Some in H.
Qed.

Lemma extend_lookup_new k cn : cblk !! k = Some cn → blk' !! (L + k) = Some cn.
Proof.
  intros H. unfold blk'. rewrite lookup_app_r; rewrite length_alter; [|fold L; lia].
  fold L. by replace (L + k - L) with k by lia.
Qed.

Lemma extend_lookup_inv i nd :
  blk' !! i = Some nd →
  (i = 0 ∧ ∃ nd0, blk !! 0 = Some nd0 ∧ nd = add_child (base + L) nd0) ∨
  (0 < i < L ∧ blk !! i = Some nd) ∨
  (L ≤ i ∧ cblk !! (i - L) = Some nd).
Proof.
  unfold blk'. intros H. destruct (decide (i < L)) as [Hlt|Hge].
  - rewrite lookup_app_l in H by (by rewrite length_alter).
    destruct (decide (i = 0)) as [->|Hne].
    + left. split; [done|]. rewrite list_lookup_alter_eq in H.
      destruct (blk !! 0) as [nd0|]; simplify_eq/=. by exists nd0.
    + right. left. rewrite list_lookup_alter_ne in H by done. split; [lia|done].
  - right. right. rewrite lookup_app_r in H by (rewrite length_alter; fold L; lia).
    rewrite length_alter in H. split; [lia|done].
Qed.

Lemma block_extend :
  block base parent blk → block (base + L) (Some base) cblk → block base parent blk'.
Proof.
  intros [(nd0 & Hnd0 & Hpar0) Hch Hpa] [(cn0 & Hcn0 & Hcpar0) Hcch Hcpa].
  assert (HL : 0 < L) by (apply lookup_lt_Some in Hnd0; done).
  split.
  - exists (add_child (base + L) nd0). split; [by apply extend_lookup_0|done].
  - intros i nd c Hi Hc.
    destruct (extend_lookup_inv i nd Hi) as [(-> & nd0' & Hnd0' & ->)|[(Hi' & Hnd)|(Hi' & Hnd)]].
    + simplify_eq. simpl in Hc. apply elem_of_app in Hc as [Hc|Hc].
      * destruct (Hch 0 nd0 c Hnd0 Hc) as (k & cn & -> & Hk & Hcn & Hp).
        exists k, cn. split_and!; [done..|by apply extend_lookup_old|done].
      * apply list_elem_of_singleton in Hc as ->.
        exists L, cn0. split_and!; [done..| |by rewrite Nat.add_0_r].
        replace L with (L + 0) at 1 by lia. by apply extend_lookup_new.
    + destruct (Hch i nd c Hnd Hc) as (k & cn & -> & Hk & Hcn & Hp).
      exists k, cn. split_and!; [done..|apply extend_lookup_old; [lia|done]|done].
    + destruct (Hcch (i - L) nd c Hnd Hc) as (k & cn & -> & Hk & Hcn & Hp).
      exists (L + k), cn. split_and!; [lia|lia|by apply extend_lookup_new|].
      rewrite Hp. f_equal. lia.
  - intros k cn Hk Hcn.
    destruct (extend_lookup_inv k cn Hcn) as [(-> & _)|[(Hk' & Hnd)|(Hk' & Hnd)]]; [lia| |].
    + destruct (Hpa k cn Hk Hnd) as (i & nd & Hi & Hp & Hnd' & Hin).
      destruct (decide (i = 0)) as [->|Hne].
      * simplify_eq. exists 0, (add_child (base + L) nd0). split_and!; [done..| |].
        -- by apply extend_lookup_0.
        -- simpl. apply elem_of_app. by left.
      * exists i, nd. split_and!; [done..|apply extend_lookup_old; [lia|done]|done].
    + destruct (decide (k = L)) as [->|Hne].
      * rewrite Nat.sub_diag in Hnd. simplify_eq.
        exists 0, (add_child (base + L) nd0). split_and!; [done| | |].
        -- by rewrite Hcpar0, Nat.add_0_r.
        -- by apply extend_lookup_0.
        -- simpl. apply elem_of_app. right. by apply list_elem_of_singleton.
      * destruct (Hcpa (k - L) cn ltac:(lia) Hnd) as (i & nd & Hi & Hp & Hnd' & Hin).
        exists (L + i), nd. split_and!; [lia| |by apply extend_lookup_new|].
        -- rewrite Hp. f_equal. lia.
        -- by replace (base + k) with (base + L + (k - L)) by lia.
Qed.

End Extend.

Lemma push_child_alter a c h : push_child a c h = alter (add_child c) a h.
Proof. done. Qed.

Lemma fmap_data_alter f i (l : list inode) :
  (∀ nd, n_data (f nd) = n_data nd) → n_data <$> alter f i l = n_data <$> l.
Proof.
  intros Hf. revert i. induction l as [|x l IH]; intros [|i]; [done..| |].
  - cbn. by rewrite Hf.
  - cbn. f_equal. apply IH.
Qed.

Lemma Forall_matches_alter f i (l : list inode) :
  (∀ nd, node_matches nd → node_matches (f nd)) →
  Forall node_matches l → Forall node_matches (alter f i l).
Proof.
  intros Hf Hl. revert i. induction Hl as [|x l Hx Hl IH]; intros [|i]; cbn;
    try constructor; auto.
Qed.

Lemma map_set_elem {V} (k : string) (v : V) (m : JS.ordered_map V) kv :
  kv ∈ JS.map_set k v m → kv = (k, v) ∨ kv ∈ m.
Proof.
  induction m as [|[k' v'] m IH]; simpl.
  - intros ->%list_elem_of_singleton. by left.
  - destruct (decide (k' = k)) as [->|Hne].
    + intros [->|H]%elem_of_cons; [by left|right; by right].
    + intros [->|H]%elem_of_cons; [right; by left|].
      destruct (IH H) as [->|?]; [by left|right; by right].
Qed.

Lemma process_children_spec (cs : list tnode) (parent : option nat) h blk m :
  Forall processNode_spec cs →
  block (length h) parent blk →
  Forall node_matches blk →
  ∃ blk' m',
    foldl (λ s1 child,
             let '(c, s2) := processNode child (Some (length h)) s1 in
             (push_child (length h) c s2.1, s2.2)) (h ++ blk, m) cs
      = (h ++ blk', m') ∧
    block (length h) parent blk' ∧
    n_data <$> blk' = (n_data <$> blk) ++ (TreeData <$> flat_map preorder cs) ∧
    Forall node_matches blk' ∧
    (∀ kv, kv ∈ m' → kv ∈ m ∨ length h ≤ kv.2 < length h + length blk').
Proof.
  intros Hcs. revert blk m. induction Hcs as [|c cs Hc Hcs IH]; intros blk m Hblk Hmatch.
  - exists blk, m. simpl. split_and!; [done..|by rewrite app_nil_r|done|by left].
  - cbn [foldl].
    destruct (Hc (Some (length h)) (h ++ blk) m) as (cblk & m1 & Hrun & Hcblk & Hdata & Hcm & Hmap).
    rewrite Hrun. cbn [fst snd]. rewrite length_app in *.
    assert (Hlen : 0 < length blk).
    { destruct Hblk as [(nd0 & Hnd0 & _) _ _]. by apply lookup_lt_Some in Hnd0. }
    assert (Hpush : push_child (length h) (length h + length blk) ((h ++ blk) ++ cblk)
              = h ++ (alter (add_child (length h + length blk)) 0 blk ++ cblk)).
    { rewrite push_child_alter, <- app_assoc.
      pose proof (alter_app_r (add_child (length h + length blk)) h (blk ++ cblk) 0) as E.
      rewrite Nat.add_0_r in E. rewrite E. f_equal. by rewrite alter_app_l. }
    rewrite Hpush.
    destruct (IH (alter (add_child (length h + length blk)) 0 blk ++ cblk) m1)
      as (blk' & m' & Hfold & Hblk' & Hdata' & Hm' & Hmap').
    { by apply block_extend. }
    { apply Forall_app. split; [|done]. by apply Forall_matches_alter. }
    exists blk', m'. split_and!; [done..| |done|].
    + rewrite Hdata', fmap_app, fmap_data_alter by done. rewrite Hdata.
      cbn [flat_map]. by rewrite fmap_app, app_assoc.
    + intros kv Hkv. destruct (Hmap' kv Hkv) as [Hin|Hin]; [|by right].
      destruct (Hmap kv Hin) as [?|Hr]; [by left|right].
      assert (length (alter (add_child (length h + length blk)) 0 blk ++ cblk) ≤ length blk').
      { apply (f_equal length) in Hdata'. rewrite !length_fmap, length_app, !length_fmap in Hdata'.
        lia. }
      rewrite length_app, length_alter in *. lia.
Qed.

Lemma processNode_eq u name pu cs parent h m :
  processNode (TNode u name pu cs) parent (h, m) =
  (length h,
   foldl (λ s1 child,
            let '(c, s2) := processNode child (Some (length h)) s1 in
            (push_child (length h) c s2.1, s2.2))
         (h ++ [INode u name pu [] (TreeData (TNode u name pu cs)) parent],
          JS.map_set u (length h) m) cs).
Proof. done. Qed.

Lemma processNode_ok (node : tnode) : processNode_spec node.
Proof.
  induction node as [u name pu cs IH] using tnode_ind'. intros parent h m.
  set (nd := INode u name pu [] (TreeData (TNode u name pu cs)) parent).
  destruct (process_children_spec cs parent h [nd] (JS.map_set u (length h) m) IH)
    as (blk & m' & Hfold & Hblk & Hdata & Hmatch & Hmap).
  - split.
    + by exists nd.
    + intros [|i] nd' c Hi Hc; simplify_eq/=. by apply elem_of_nil in Hc.
    + intros [|k] cn Hk Hcn; [lia|done].
  - by repeat constructor.
  - exists blk, m'. split_and!; [|done..|].
    + rewrite processNode_eq. subst nd. by rewrite Hfold.
    + intros kv Hkv. destruct (Hmap kv Hkv) as [Hin|?]; [|by right].
      apply map_set_elem in Hin as [->|?]; [right|by left]. simpl.
      apply (f_equal length) in Hdata. rewrite !length_fmap, length_app in Hdata.
      simpl in Hdata. lia.
Qed.

Lemma root_of_unique h a r r' : root_of h a r → root_of h a r' → r = r'.
Proof.
  intros [Hrtc Hroot]. revert r'. induction Hrtc as [a|a b r Hab Hbr IH]; intros r' [Hrtc' Hroot'].
  - inversion Hrtc' as [|? b ? Hab Hbr']; subst; [done|].
    destruct Hroot as (nd & ? & ?), Hab as (nd' & ? & ?). simplify_eq.
  - inversion Hrtc' as [|? b' ? Hab' Hbr']; subst.
    + destruct Hroot' as (nd & ? & ?), Hab as (nd' & ? & ?). simplify_eq.
    + apply IH; [done|]. split; [|done].
      destruct Hab as (nd & ? & ?), Hab' as (nd' & ? & ?). by simplify_eq.
Qed.

(** A finished block somewhere in the heap. *)
Section Embedded.
Context (pre blk post : list inode).
Let H := pre ++ blk ++ post.
Let base := length pre.
Hypothesis Hblk : block base None blk.

Lemma embedded_lookup k : k < length blk → H !! (base + k) = blk !! k.
Proof.
  intros Hk. unfold H, base. rewrite lookup_app_r by lia.
  replace (length pre + k - length pre) with k by lia. by rewrite lookup_app_l.
Qed.

Lemma embedded_climb k fuel :
  k < length blk → k < fuel → climb H fuel (base + k) = Some base.
Proof.
  revert fuel. induction k as [k IH] using lt_wf_ind. intros fuel Hk Hf.
  destruct fuel as [|fuel]; [lia|]. simpl. rewrite embedded_lookup by done.
  destruct (lookup_lt_is_Some_2 blk k Hk) as [cn Hcn]. rewrite Hcn.
  destruct (decide (k = 0)) as [->|Hne].
  - destruct Hblk as [(nd0 & Hnd0 & Hp) _ _]. simplify_eq. rewrite Hp.
    by rewrite Nat.add_0_r.
  - destruct (blk_parents _ _ _ Hblk k cn ltac:(lia) Hcn) as (i & nd & Hi & Hp & Hnd & _).
    rewrite Hp. apply IH; [done| |lia]. by apply lookup_lt_Some in Hnd.
Qed.

Lemma embedded_root : is_root H base.
Proof.
  destruct Hblk as [(nd0 & Hnd0 & Hp) _ _]. exists nd0. split; [|done].
  rewrite <- (Nat.add_0_r base), embedded_lookup; [done|]. by apply lookup_lt_Some in Hnd0.
Qed.

Lemma embedded_root_of k : k < length blk → root_of H (base + k) base.
Proof.
  intros Hk. split; [|apply embedded_root].
  induction k as [k IH] using lt_wf_ind.
  destruct (decide (k = 0)) as [->|Hne]; [by rewrite Nat.add_0_r|].
  destruct (lookup_lt_is_Some_2 blk k Hk) as [cn Hcn].
  destruct (blk_parents _ _ _ Hblk k cn ltac:(lia) Hcn) as (i & nd & Hi & Hp & Hnd & _).
  eapply rtc_l; [|apply (IH i Hi); by apply lookup_lt_Some in Hnd].
  exists cn. by rewrite embedded_lookup.
Qed.

Lemma embedded_subtree_in n : in_subtree H base n → ∃ k, n = base + k ∧ k < length blk.
Proof.
  revert n. apply (rtc_ind_r (λ n, ∃ k, n = base + k ∧ k < length blk)).
  2: intros n c Hrc (nd & Hnd & Hc) IH.
  - exists 0. split; [lia|]. destruct Hblk as [(nd0 & Hnd0 & _) _ _].
    by apply lookup_lt_Some in Hnd0.
  - destruct IH as (i & -> & Hi). rewrite embedded_lookup in Hnd by done.
    destruct (blk_children _ _ _ Hblk i nd c Hnd Hc) as (k & cn & -> & _ & Hcn & _).
    exists k. split; [done|]. by apply lookup_lt_Some in Hcn.
Qed.

Lemma embedded_subtree k : k < length blk → in_subtree H base (base + k).
Proof.
  induction k as [k IH] using lt_wf_ind. intros Hk.
  destruct (decide (k = 0)) as [->|Hne]; [rewrite Nat.add_0_r; apply rtc_refl|].
  destruct (lookup_lt_is_Some_2 blk k Hk) as [cn Hcn].
  destruct (blk_parents _ _ _ Hblk k cn ltac:(lia) Hcn) as (i & nd & Hi & Hp & Hnd & Hin).
  assert (Hil : i < length blk) by (by apply lookup_lt_Some in Hnd).
  eapply rtc_r; [by apply IH|]. exists nd. by rewrite embedded_lookup.
Qed.

End Embedded.

Lemma forest_heap_length h0 roots h : forest_heap h0 roots h → length h0 ≤ length h.
Proof. induction 1; [done|]. rewrite length_app. lia. Qed.

Lemma forest_heap_cover h0 roots h n :
  forest_heap h0 roots h → length h0 ≤ n < length h →
  ∃ pre blk post, h = pre ++ blk ++ post ∧ length h0 ≤ length pre ∧
    length pre ∈ roots ∧ block (length pre) None blk ∧
    length pre ≤ n < length pre + length blk.
Proof.
  induction 1 as [|roots h blk Hf IH Hblk]; intros Hn; [lia|].
  destruct (decide (n < length h)) as [Hlt|Hge].
  - destruct IH as (pre & b & post & -> & Hpre & Hin & Hb & Hr); [lia|].
    exists pre, b, (post ++ blk). split_and!.
    + by rewrite <- !app_assoc.
    + done.
    + apply elem_of_app. by left.
    + done.
    + lia.
    + lia.
  - rewrite length_app in Hn. exists h, blk, []. split_and!; [by rewrite app_nil_r| | |done|lia|lia].
    + by eapply forest_heap_length.
    + apply elem_of_app. right. by apply list_elem_of_singleton.
Qed.

Lemma process_roots_spec (treeArray : list tnode) (h0 : list inode) :
  ∃ roots h m,
    process_roots treeArray (h0, []) = (roots, (h, m)) ∧
    forest_heap h0 roots h ∧
    n_data <$> drop (length h0) h = TreeData <$> flat_map preorder treeArray ∧
    Forall node_matches (drop (length h0) h) ∧
    (∀ kv, kv ∈ m → length h0 ≤ kv.2 < length h).
Proof.
  unfold process_roots.
  assert (Hgen : ∀ roots h (m : JS.ordered_map nat),
    forest_heap h0 roots h →
    Forall node_matches (drop (length h0) h) →
    (∀ kv, kv ∈ m → length h0 ≤ kv.2 < length h) →
    ∃ roots' h' m',
      foldl (λ acc root, let '(r, s') := processNode root None acc.2 in (acc.1 ++ [r], s'))
            (roots, (h, m)) treeArray = (roots', (h', m')) ∧
      forest_heap h0 roots' h' ∧
      n_data <$> drop (length h0) h' =
        (n_data <$> drop (length h0) h) ++ (TreeData <$> flat_map preorder treeArray) ∧
      Forall node_matches (drop (length h0) h') ∧
      (∀ kv, kv ∈ m' → length h0 ≤ kv.2 < length h')).
  { induction treeArray as [|t ts IH]; intros roots h m Hf Hmatch Hm.
    - exists roots, h, m. simpl. by rewrite app_nil_r.
    - cbn [foldl snd fst].
      destruct (processNode_ok t None h m) as (blk & m1 & Hrun & Hblk & Hdata & Hbm & Hmap).
      rewrite Hrun.
      pose proof (forest_heap_length _ _ _ Hf) as Hlen.
      destruct (IH (roots ++ [length h]) (h ++ blk) m1) as (roots' & h' & m' & Hfold & Hf' & Hd' & Hm' & Hmap').
      + by constructor.
      + rewrite drop_app_le by done. apply Forall_app. by split.
      + intros kv Hkv. rewrite length_app. destruct (Hmap kv Hkv) as [Hin|?]; [|lia].
        apply Hm in Hin. lia.
      + exists roots', h', m'. split_and!; [done..| |done|done].
        rewrite Hd', drop_app_le, fmap_app, Hdata by done.
        cbn [flat_map]. by rewrite fmap_app, app_assoc. }
  destruct (Hgen [] h0 []) as (roots & h & m & Hfold & Hf & Hd & Hm & Hmap).
  - constructor.
  - by rewrite drop_all.
  - intros kv Hkv. by apply elem_of_nil in Hkv.
  - exists roots, h, m. split_and!; [done..| |done|done].
    by rewrite Hd, drop_all.
Qed.

Lemma map_get_elem {V} (k : string) (m : JS.ordered_map V) v :
  JS.map_get k m = Some v → (k, v) ∈ m.
Proof.
  induction m as [|[k' v'] m IH]; simpl; [done|].
  destruct (decide (k' = k)) as [->|Hne].
  - intros. simplify_eq. by left.
  - intros H. right. by apply IH.
Qed.

(** [findCurrentNode] selects a node of the map. *)
Lemma findCurrentNode_in_map st a :
  currentNode (findCurrentNode st) = Some a → ∃ k, (k, a) ∈ nodeMap st.
Proof.
  destruct (findCurrentNode_chain st) as (-> & _). unfold locate.
  destruct (nonempty_uuid_match st) as [n|] eqn:Hu.
  { rewrite !option_union_Some_l. intros ?. simplify_eq.
    unfold nonempty_uuid_match in Hu. destruct (currentChatUUID st) as [u|]; [|done].
    simpl in Hu. destruct (JS.str_truthy u); [|done]. exists u. by apply map_get_elem. }
  rewrite option_union_None_l.
  destruct (head (filter (exact_name st) _)) as [n1|] eqn:H1.
  { rewrite !option_union_Some_l. intros ?. simplify_eq.
    by apply candidates_elem, (head_filter_elem (exact_name st)). }
  rewrite option_union_None_l.
  destruct (head (filter (same_ignoring_case st) _)) as [n2|] eqn:H2.
  { rewrite !option_union_Some_l. intros ?. simplify_eq.
    by apply candidates_elem, (head_filter_elem (same_ignoring_case st)). }
  rewrite option_union_None_l.
  destruct (head (filter (substring_either_way st) _)) as [n3|] eqn:H3.
  { rewrite !option_union_Some_l. intros ?. simplify_eq.
    by apply candidates_elem, (head_filter_elem (substring_either_way st)). }
  rewrite option_union_None_l. intros Hhd. by apply candidates_elem, head_Some_elem_of.
Qed.

Lemma buildNodeMapFromTree_forest treeArray st :
  ∃ roots,
    forest_heap (heap st) roots (heap (buildNodeMapFromTree treeArray st)) ∧
    n_data <$> drop (length (heap st)) (heap (buildNodeMapFromTree treeArray st))
      = TreeData <$> flat_map preorder treeArray ∧
    Forall node_matches (drop (length (heap st)) (heap (buildNodeMapFromTree treeArray st))) ∧
    (∀ kv, kv ∈ nodeMap (buildNodeMapFromTree treeArray st) →
       length (heap st) ≤ kv.2 < length (heap (buildNodeMapFromTree treeArray st))).
Proof.
  unfold buildNodeMapFromTree.
  destruct (process_roots_spec treeArray (heap st)) as (roots & h & m & -> & Hf & Hd & Hm & Hmap).
  by exists roots.
Qed.

(** Claim C5. After the forest is built from the tree records and a current
    node is found, [isolateActiveTree] returns; the displayed roots are the
    single root reached from the current node by parent links; a node is in
    the subtree of that root exactly when it is a node of the forest whose
    parent links lead to that root; the forest itself is left as it was. *)
Theorem isolateActiveTree_isolates (treeArray : list tnode) (st0 : view) (N : nat) :
  let st := findCurrentNode (buildNodeMapFromTree treeArray st0) in
  currentNode st = Some N →
  ∃ root st',
    isolateActiveTree st = Some st' ∧
    treeRoots st' = [root] ∧ currentRootNode st' = Some root ∧
    root_of (heap st) N root ∧
    (∀ n, in_subtree (heap st) root n ↔
          length (heap st0) ≤ n < length (heap st) ∧ root_of (heap st) n root) ∧
    heap st' = heap st ∧ allTreeRoots st' = allTreeRoots st ∧
    nodeMap st' = nodeMap st.
Proof.
  intros st HN.
  pose proof (findCurrentNode_in_map (buildNodeMapFromTree treeArray st0)) as Hin.
  destruct (findCurrentNode_chain (buildNodeMapFromTree treeArray st0))
    as (_ & Hheap & Hmap & _ & _).
  fold st in Hin, Hheap, Hmap.
  destruct (buildNodeMapFromTree_forest treeArray st0) as (roots & Hf & _ & _ & Hvals).
  rewrite <- Hheap in Hf, Hvals.
  destruct (Hin N HN) as [k Hk]. apply Hvals in Hk. simpl in Hk.
  clear Hin Hvals Hmap. clearbody st.
  destruct (forest_heap_cover _ _ _ N Hf Hk) as (pre & blk & post & HH & Hpre & _ & Hblk & HNr).
  set (root := length pre) in *.
  assert (Hclimb : climb (heap st) (S (length (heap st))) N = Some root).
  { rewrite HH. replace N with (root + (N - root)) by lia.
    apply embedded_climb; [done|lia|]. rewrite !length_app. lia. }
  exists root. eexists. unfold isolateActiveTree. rewrite HN. cbv beta iota.
  rewrite Hclimb. simpl.
  split_and!; [done..| | |done|done|done].
  - rewrite HH. replace N with (root + (N - root)) by lia.
    apply embedded_root_of; [done|lia].
  - intros n. split.
    + intros Hsub. rewrite HH in Hsub.
      apply embedded_subtree_in in Hsub as (i & -> & Hi); [|done].
      split; [|rewrite HH; by apply embedded_root_of].
      rewrite HH, !length_app. fold root. lia.
    + intros [Hn Hroot].
      destruct (forest_heap_cover _ _ _ n Hf Hn) as (pre' & blk' & post' & HH' & _ & _ & Hblk' & Hnr).
      assert (Hroot' : root_of (heap st) n (length pre')).
      { rewrite HH'. replace n with (length pre' + (n - length pre')) by lia.
        apply embedded_root_of; [done|lia]. }
      pose proof (root_of_unique _ _ _ _ Hroot Hroot') as Heq.
      rewrite HH'. replace n with (length pre' + (n - length pre')) by lia.
      rewrite Heq. apply embedded_subtree; [done|lia].
Qed.

(** Claim C5, witness: two trees, the current chat being the branch of the
    first. *)
Lemma isolateActiveTree_isolates_witness :
  let st := findCurrentNode (buildNodeMapFromTree two_trees (new_view "branch" (Some "c1"))) in
  ∃ root st',
    isolateActiveTree st = Some st' ∧
    treeRoots st' = [root] ∧ currentRootNode st' = Some root ∧
    root_of (heap st) 1 root ∧
    (∀ n, in_subtree (heap st) root n ↔
          length (heap (new_view "branch" (Some "c1"))) ≤ n < length (heap st) ∧
          root_of (heap st) n root) ∧
    heap st' = heap st ∧ allTreeRoots st' = allTreeRoots st ∧
    nodeMap st' = nodeMap st.
Proof.
  apply (isolateActiveTree_isolates two_trees (new_view "branch" (Some "c1")) 1).
  by vm_compute.
Defined.

(** ** Forest construction *)

Lemma node_record_alter f i (l : list inode) :
  (∀ nd, node_record (f nd) = node_record nd) →
  node_record <$> alter f i l = node_record <$> l.
Proof.
  intros Hf. revert i. induction l as [|x l IH]; intros [|i]; [done..| |].
  - cbn. by rewrite Hf.
  - cbn. f_equal. apply IH.
Qed.

Lemma legacy_create_fold chats h (m byName : JS.ordered_map nat) :
  ∃ m' byName',
    foldl legacy_create (h, m, byName) chats =
    (h ++ ((λ c, INode (legacy_id c) (cleanName c) (metadata_parent_uuid c) []
                       (LegacyData c) None) <$> chats), m', byName').
Proof.
  revert h m byName. induction chats as [|c chats IH]; intros h m byName.
  - exists m, byName. simpl. by rewrite app_nil_r.
  - cbn [foldl legacy_create].
    destruct (IH (h ++ [INode (legacy_id c) (cleanName c) (metadata_parent_uuid c) []
                              (LegacyData c) None])
                 (JS.map_set (legacy_id c) (length h) m)
                 (JS.map_set (cleanName c) (length h) byName)) as (m' & byName' & ->).
    exists m', byName'. by rewrite <- app_assoc.
Qed.

Lemma legacy_link_fold m nodes h roots :
  node_record <$> (foldl (legacy_link m) (h, roots) nodes).1 = node_record <$> h.
Proof.
  revert h roots. induction nodes as [|n nodes IH]; intros h roots; [done|].
  cbn [foldl]. unfold legacy_link at 2.
  destruct (h !! n ≫= n_parentId) as [pid|]; [|by rewrite IH].
  destruct (JS.str_truthy pid); [|by rewrite IH].
  destruct (JS.map_get pid m) as [parent|]; [|by rewrite IH].
  rewrite IH. unfold set_parent. rewrite node_record_alter by done.
  rewrite push_child_alter. by rewrite node_record_alter.
Qed.

Lemma buildGraphLegacy_heap chats st :
  node_record <$> heap (buildGraphLegacy chats st) =
  (node_record <$> heap st) ++
  ((λ c, (legacy_id c, cleanName c, LegacyData c)) <$> chats).
Proof.
  unfold buildGraphLegacy.
  destruct (legacy_create_fold chats (heap st) [] []) as (m & byName & Hcreate).
  destruct (foldl legacy_create _ chats) as [[h0 m0] byName0].
  injection Hcreate as -> -> ->.
  pose proof (legacy_link_fold m (snd <$> m)
    (heap st ++ ((λ c, INode (legacy_id c) (cleanName c) (metadata_parent_uuid c) []
                             (LegacyData c) None) <$> chats)) []) as Hlink.
  destruct (foldl (legacy_link m) _ (snd <$> m)) as [h' roots]. simpl in *.
  rewrite Hlink, fmap_app. f_equal. rewrite <- list_fmap_compose. done.
Qed.

Lemma tree_records (l : list inode) (ts : list tnode) :
  n_data <$> l = TreeData <$> ts → Forall node_matches l →
  node_record <$> l = (λ t, (t_uuid t, t_chat_name t, TreeData t)) <$> ts.
Proof.
  revert ts. induction l as [|nd l IH]; intros [|t ts] Hd Hm; try done.
  apply Forall_cons in Hm as [Hnd Hm]. cbn in Hd. injection Hd as Hd1 Hd2.
  cbn. f_equal; [|by apply IH].
  unfold node_record. unfold node_matches in Hnd. rewrite Hd1 in Hnd.
  destruct Hnd as [-> ->]. by rewrite Hd1.
Qed.

(** Claim C9, counterexample. A chat without identifier and a tree record
    with the empty identifier each get their node; no error is raised. *)
Lemma forest_construction_accepts_empty_identifier :
  JS.truthy (metadata_uuid unidentified_chat) = false ∧
  heap (buildGraphLegacy [unidentified_chat] (new_view "" None)) =
    [INode "legacy_old chat" "old chat" None [] (LegacyData unidentified_chat) None] ∧
  t_uuid unidentified_tree = "" ∧
  heap (buildNodeMapFromTree [unidentified_tree] (new_view "" None)) =
    [INode "" "old chat" None [] (TreeData unidentified_tree) None].
Proof. by vm_compute. Qed.

(** ** The name validator *)

(** Induction on trees, with the hypothesis for every child. *)
Lemma rnode_ind' (P : rnode → Prop) :
  (∀ id name cs, Forall P cs → P (RNode id name cs)) → ∀ t, P t.
Proof.
  intros H. fix IH 1. intros [id name cs]. apply H.
  induction cs as [|c cs IHcs]; constructor; [apply IH|exact IHcs].
Qed.

Lemma search_None s : search s = None ↔ ¬ has_invalid_char s.
Proof.
  unfold has_invalid_char. induction s as [|a s IH]; simpl.
  - split; [|done]. intros _ (a & Ha & _). by apply elem_of_nil in Ha.
  - destruct (invalid_char a) eqn:Ha.
    + split; [done|]. intros H. destruct H. exists a. split; [by left|done].
    + rewrite fmap_None, IH. split.
      * intros H (b & [->|Hb]%elem_of_cons & Hinv); [congruence|]. apply H. by exists b.
      * intros H (b & Hb & Hinv). apply H. exists b. split; [by right|done].
Qed.

Lemma existsb_elem {A} (f : A → bool) (l : list A) :
  existsb f l = true ↔ ∃ x, x ∈ l ∧ f x = true.
Proof.
  rewrite existsb_exists. split; intros (x & Hx & Hf); exists x; split; try done;
    by apply list_elem_of_In.
Qed.

Lemma checkNodeForDuplicate_spec node name ex :
  checkNodeForDuplicate node name ex = true ↔
  ∃ id, (id, name) ∈ labels node ∧ Some id ≠ ex.
Proof.
  induction node as [id nm cs IH] using rnode_ind'. cbn [checkNodeForDuplicate labels].
  destruct (bool_decide (Some id ≠ ex) && bool_decide (nm = name)) eqn:Hhere.
  - apply andb_true_iff in Hhere as [H1%bool_decide_eq_true H2%bool_decide_eq_true].
    split; [|done]. intros _. exists id. subst. split; [by left|done].
  - rewrite existsb_elem. split.
    + intros (c & Hc & Hdup). rewrite Forall_forall in IH.
      apply (IH c Hc) in Hdup as (i & Hi & Hne). exists i. split; [|done].
      right. apply list_elem_of_In, in_flat_map. exists c.
      split; by apply list_elem_of_In.
    + intros (i & [Heq|Hi]%elem_of_cons & Hne).
      * simplify_eq. apply andb_false_iff in Hhere as [H%bool_decide_eq_false|H%bool_decide_eq_false];
          by destruct H.
      * apply list_elem_of_In, in_flat_map in Hi as (c & Hc & Hi).
        apply list_elem_of_In in Hc, Hi. exists c. split; [done|].
        rewrite Forall_forall in IH. apply (IH c Hc). by exists i.
Qed.

Lemma hasDuplicateName_spec name roots ex :
  hasDuplicateName name roots ex = true ↔ name_taken name roots ex.
Proof.
  unfold hasDuplicateName, name_taken. rewrite existsb_elem. split.
  - intros (r & Hr & Hdup). apply checkNodeForDuplicate_spec in Hdup as (i & Hi & Hne).
    exists i. split; [|done]. apply list_elem_of_In, in_flat_map. exists r.
    split; by apply list_elem_of_In.
  - intros (i & Hi & Hne). apply list_elem_of_In, in_flat_map in Hi as (r & Hr & Hi).
    apply list_elem_of_In in Hr, Hi. exists r. split; [done|].
    apply checkNodeForDuplicate_spec. by exists i.
Qed.

Lemma length_zero_empty s : String.length s = 0 ↔ s = "".
Proof. by destruct s. Qed.

Lemma trim_empty : JS.trim "" = "".
Proof. done. Qed.

(** On a handler whose pattern is at rest ([lastIndex = 0]) the validator
    decides exactly the five conditions, and a failure carries a reason. *)
Lemma validateName_at_rest newName treeRoots excludeUuid :
  let name := JS.trim newName in
  let r := (validateName newName treeRoots excludeUuid (Handler 0)).1 in
  (valid r = true ↔
     name ≠ "" ∧ String.length name ≤ 255 ∧ ¬ has_invalid_char name ∧
     RESERVED_NAMES_test name = false ∧ ¬ name_taken name treeRoots excludeUuid) ∧
  (valid r = false → is_Some (error r)).
Proof.
  intros name r. unfold r, validateName. fold name.
  destruct (negb (JS.str_truthy newName) || (String.length name =? 0)) eqn:Hempty.
  { simpl. split; [|by eexists]. split; [done|]. intros (Hne & _). exfalso.
    apply orb_true_iff in Hempty as [He|He].
    - apply negb_true_iff, bool_decide_eq_false in He.
      assert (newName = "") as -> by (by destruct (decide (newName = ""))).
      by apply Hne.
    - apply Nat.eqb_eq, length_zero_empty in He. by apply Hne. }
  apply orb_false_iff in Hempty as [_ Hlen%Nat.eqb_neq].
  assert (Hne : name ≠ "") by (by rewrite <- length_zero_empty).
  unfold MAX_FILENAME_LENGTH. destruct (255 <? String.length name) eqn:Hlong.
  { simpl. split; [|by eexists]. apply Nat.ltb_lt in Hlong. split; [done|]. intros (_ & ? & _). lia. }
  apply Nat.ltb_ge in Hlong.
  unfold INVALID_CHARS_test. cbn [lastIndex string_drop].
  rewrite bool_decide_eq_false_2 by lia.
  assert (Hdrop : string_drop 0 name = name) by (by destruct name).
  rewrite ?Hdrop. destruct (search name) as [j|] eqn:Hsearch.
  { simpl. split; [|by eexists]. split; [done|]. intros (_ & _ & Hinv & _).
    apply search_None in Hinv. congruence. }
  apply search_None in Hsearch.
  destruct (RESERVED_NAMES_test name) eqn:Hres.
  { simpl. split; [|by eexists]. split; [done|]. by intros (_ & _ & _ & ? & _). }
  destruct (hasDuplicateName name treeRoots excludeUuid) eqn:Hdup.
  { simpl. split; [|by eexists]. split; [done|]. intros (_ & _ & _ & _ & Htaken).
    apply hasDuplicateName_spec in Hdup. by destruct Htaken. }
  simpl. split; [|done]. split; [|done]. intros _. split_and!; [done..|].
  rewrite <- hasDuplicateName_spec. congruence.
Qed.

(** Claim C6, evaluation. A name with a forbidden character is rejected by
    a handler whose pattern is at rest, which leaves the pattern after the
    match, and is accepted by the same call on the handler so left. *)
Lemma validateName_accepts_forbidden_char :
  has_invalid_char "a:b" ∧
  validateName "a:b" [] None (Handler 0) =
    (Validation false
       (Some ("Name contains invalid characters: < > : " +:+
              String (Ascii.ascii_of_nat 34) " / \ | ? *")), Handler 2) ∧
  validateName "a:b" [] None (Handler 2) = (Validation true None, Handler 0).
Proof.
  split_and!; [|done..]. exists (Ascii.ascii_of_nat 58). split; [|done]. right. by left.
Qed.

(** Claim C10, evaluation. Two successive calls with the same name, tree
    and excluded node: the first rejects the name, the second accepts it. *)
Lemma validateName_not_repeatable :
  let first := validateName "bad?name" [] None (Handler 0) in
  let second := validateName "bad?name" [] None first.2 in
  valid first.1 = false ∧ valid second.1 = true.
Proof. done. Qed.

(** ** The registration sequencer and the orphan repair, again *)

Lemma branchMap_of_snoc bs x :
  branchMap_of (bs ++ [x]) = <[uuid x := x]> (branchMap_of bs).
Proof. unfold branchMap_of. by rewrite foldl_app. Qed.

Lemma branchMap_of_last bs u : branchMap_of bs !! u = last_with bs u.
Proof.
  unfold last_with. induction bs as [|x bs IH] using rev_ind; [done|].
  rewrite branchMap_of_snoc, filter_app, filter_cons, filter_nil.
  destruct (decide (uuid x = u)) as [<-|Hne].
  - by rewrite lookup_insert_eq, last_snoc.
  - by rewrite lookup_insert_ne, app_nil_r.
Qed.

Lemma branchMap_of_dom bs u : is_Some (branchMap_of bs !! u) ↔ u ∈ uuid <$> bs.
Proof.
  induction bs as [|x bs IH] using rev_ind.
  - unfold branchMap_of. simpl. rewrite lookup_empty. split; [by intros [? ?]|].
    intros H. by apply elem_of_nil in H.
  - rewrite branchMap_of_snoc, fmap_app, elem_of_app. simpl.
    rewrite list_elem_of_singleton, <- IH.
    destruct (decide (uuid x = u)) as [<-|Hne].
    + rewrite lookup_insert_eq. split; [by right|by eexists].
    + rewrite lookup_insert_ne by done. split; [by left|]. by intros [?|?].
Qed.

(** On any input the sequencer returns one record per uuid of the input: the
    last one listed under that uuid. *)
Theorem sortBranchesForRegistration_one_per_uuid (bs : list branch) :
  ∃ out log, sortBranchesForRegistration bs = Some (out, log) ∧
    NoDup (uuid <$> out) ∧
    (∀ b, b ∈ out ↔ last_with bs (uuid b) = Some b) ∧
    (∀ u, u ∈ uuid <$> out ↔ u ∈ uuid <$> bs) ∧
    length out ≤ length bs.
Proof.
  destruct (sortBranchesForRegistration_run bs) as (st & Hrun & Hinv & Hall).
  exists (sorted st), (sort_out st). destruct Hinv as [Hnd Hmap Hvis _ _].
  assert (Hmem : ∀ b, b ∈ sorted st ↔ last_with bs (uuid b) = Some b).
  { intros b. rewrite <- branchMap_of_last. split; [apply Hmap|].
    intros Hb. pose proof Hb as Hin. apply branchMap_lookup in Hin as [Hin _].
    assert (Hv : uuid b ∈ visited st) by (apply Hall; [done|by rewrite Hb]).
    apply Hvis, list_elem_of_fmap in Hv as (b' & Hu & Hb').
    pose proof (Hmap b' Hb') as Hlk. rewrite <- Hu in Hlk. by simplify_eq. }
  assert (Hids : ∀ u, u ∈ uuid <$> sorted st ↔ u ∈ uuid <$> bs).
  { intros u. split.
    - intros (b & -> & Hb)%list_elem_of_fmap. apply Hmap, branchMap_lookup in Hb as [Hb _].
      apply list_elem_of_fmap. by exists b.
    - intros (b & -> & Hb)%list_elem_of_fmap. apply Hvis, Hall; [done|].
      apply branchMap_of_dom, list_elem_of_fmap. by exists b. }
  split_and!; [done..|].
  rewrite <- (length_fmap uuid (sorted st)), <- (length_fmap uuid bs).
  apply submseteq_length, NoDup_submseteq; [done|]. intros u. apply Hids.
Qed.

Lemma visit_fresh (m : gmap string branch) fuel b st :
  m !! uuid b = Some b → uuid b ∉ visited st → temp st = ∅ →
  (∀ p, parent_uuid b = Some p → p ≠ "" → p ∈ visited st ∨ m !! p = None) →
  ∃ st', visit m (S (S fuel)) (uuid b) st = Some st' ∧
    sorted st' = sorted st ++ [b] ∧ visited st' = {[uuid b]} ∪ visited st ∧
    temp st' = ∅ ∧
    (∀ c, c ∈ sort_out st' → c ∈ sort_out st ∨ is_not_found c).
Proof.
  intros Hb Hvis Htemp Hpar. cbn [visit].
  rewrite decide_False by done. rewrite decide_False by (rewrite Htemp; set_solver).
  rewrite Hb. cbn [mbind option_bind].
  assert (Hfin : ∀ st1, temp st1 = {[uuid b]} → visited st1 = visited st →
            sorted st1 = sorted st →
            (∀ c, c ∈ sort_out st1 → c ∈ sort_out st ∨ is_not_found c) →
            ∃ st', Some (finish (uuid b) b st1) = Some st' ∧
              sorted st' = sorted st ++ [b] ∧ visited st' = {[uuid b]} ∪ visited st ∧
              temp st' = ∅ ∧
              (∀ c, c ∈ sort_out st' → c ∈ sort_out st ∨ is_not_found c)).
  { intros st1 H1 H2 H3 H4. eexists. split; [done|]. simpl.
    rewrite H1, H2, H3. split_and!; [done..| |done]. set_solver. }
  assert (Htemp1 : temp (temp_add (uuid b) st) = {[uuid b]}).
  { simpl. rewrite Htemp. set_solver. }
  destruct (parent_uuid b) as [p|] eqn:Hp; [|apply Hfin; by auto].
  destruct (JS.str_truthy p) eqn:Ht; [|apply Hfin; by auto].
  apply bool_decide_eq_true in Ht.
  destruct (Hpar p eq_refl Ht) as [Hv|Hnone].
  - cbn [visit]. rewrite decide_True by done. apply Hfin; by auto.
  - cbn [visit]. destruct (decide (p ∈ visited (temp_add (uuid b) st))) as [Hv|Hv].
    { apply Hfin; by auto. }
    rewrite decide_False.
    2:{ rewrite Htemp1, elem_of_singleton. intros ->. congruence. }
    rewrite Hnone. apply Hfin; simpl; [by rewrite Htemp; set_solver|done..|].
    intros c [Hc|Hc]%elem_of_app; [by left|right].
    apply list_elem_of_singleton in Hc as ->. done.
Qed.

Lemma visit_all_ordered (m : gmap string branch) fuel l1 l2 st :
  NoDup (uuid <$> l1 ++ l2) →
  (∀ b, b ∈ l1 ++ l2 → m !! uuid b = Some b) →
  (∀ u, m !! u = None ∨ u ∈ uuid <$> l1 ++ l2) →
  present_parents_first (l1 ++ l2) →
  sorted st = l1 → (∀ u, u ∈ visited st ↔ u ∈ uuid <$> l1) → temp st = ∅ →
  ∃ st', visit_all m (S (S fuel)) l2 st = Some st' ∧ sorted st' = l1 ++ l2 ∧
    (∀ c, c ∈ sort_out st' → c ∈ sort_out st ∨ is_not_found c).
Proof.
  revert l1 st. induction l2 as [|b l2 IH]; intros l1 st Hnd Hm Hdom Hord Hs Hv Ht.
  - exists st. rewrite app_nil_r. split_and!; [done..|]. by left.
  - unfold visit_all. cbn [foldl mbind option_bind].
    assert (Hb : b ∈ l1 ++ b :: l2) by (apply elem_of_app; right; by left).
    assert (Hnotin : uuid b ∉ uuid <$> l1).
    { rewrite fmap_app, fmap_cons in Hnd. apply NoDup_app in Hnd as (_ & Hd & _).
      intros Hin. apply (Hd _ Hin). by left. }
    destruct (visit_fresh m fuel b st) as (st1 & Hrun & S1 & S2 & S3 & S4);
      [by apply Hm|by rewrite Hv|done| |].
    { intros p Hp Hne. destruct (Hdom p) as [?|Hin]; [by right|left].
      destruct (Hord (length l1) b p) as (i & Hi & Hlk); [|done..|].
      - by rewrite list_lookup_middle.
      - apply Hv. rewrite fmap_app, lookup_app_l in Hlk by (by rewrite length_fmap).
        by eapply list_elem_of_lookup_2. }
    rewrite Hrun.
    destruct (IH (l1 ++ [b]) st1) as (st' & Hrun' & R1 & R2).
    + by rewrite <- app_assoc.
    + by rewrite <- app_assoc.
    + by rewrite <- app_assoc.
    + by rewrite <- app_assoc.
    + by rewrite S1, Hs.
    + intros u. rewrite S2, elem_of_union, elem_of_singleton, Hv, fmap_app, elem_of_app.
      simpl. rewrite list_elem_of_singleton. tauto.
    + done.
    + exists st'. split_and!; [exact Hrun'|by rewrite R1, <- app_assoc|].
      intros c Hc. destruct (R2 c Hc) as [?|?]; [|by right]. by apply S4.
Qed.

Lemma sorted_input_unchanged (bs : list branch) :
  NoDup (uuid <$> bs) → present_parents_first bs →
  ∃ log, sortBranchesForRegistration bs = Some (bs, log) ∧
         ∀ c, c ∈ log → is_not_found c.
Proof.
  intros Hnd Hord. unfold sortBranchesForRegistration.
  destruct bs as [|b0 bs0] eqn:Hbs; [by exists []; split; [|intros c Hc; apply elem_of_nil in Hc]|].
  rewrite <- Hbs in *. assert (Hfuel : S (length bs) = S (S (length bs0))) by (by rewrite Hbs).
  rewrite Hfuel.
  destruct (visit_all_ordered (branchMap_of bs) (length bs0) [] bs (SortState ∅ ∅ [] []))
    as (st & -> & Hs & Hlog); simpl; try done.
  - intros b Hb. by apply branchMap_NoDup.
  - intros u. destruct (branchMap_of bs !! u) eqn:Hu; [right|by left].
    apply branchMap_of_dom. by rewrite Hu.
  - intros u. set_solver.
  - exists (sort_out st). simpl. rewrite Hs. split; [done|].
    intros c Hc. destruct (Hlog c Hc) as [Hin|?]; [|done]. by apply elem_of_nil in Hin.
Qed.

(** A list with distinct uuids that already has every parent it holds before
    the child is returned as it is, and nothing but missing parents is
    logged. *)
Theorem sortBranchesForRegistration_keeps_order (bs : list branch) :
  NoDup (uuid <$> bs) → present_parents_first bs →
  ∃ log, sortBranchesForRegistration bs = Some (bs, log) ∧
         ∀ c, c ∈ log → is_not_found c.
Proof. apply sorted_input_unchanged. Qed.

Lemma sortBranchesForRegistration_keeps_order_witness :
  ∃ log, sortBranchesForRegistration parent_first_input = Some (parent_first_input, log) ∧
         ∀ c, c ∈ log → is_not_found c.
Proof.
  apply (sortBranchesForRegistration_keeps_order parent_first_input).
  - by_compute.
  - intros [|[|j]] b p Hj Hp Hne _; simpl in Hj; [by simplify_eq| |done].
    exists 0. split; [lia|]. by simplify_eq.
Defined.

(** With distinct uuids, no cycle and resolving parents, the state reached by
    the sequencer has every non-empty parent first. *)
Lemma sorted_nonempty_parents_first bs st :
  NoDup (uuid <$> bs) → acyclic bs → parents_resolve bs →
  sort_inv (branchMap_of bs) st → sorted st ≡ₚ bs →
  nonempty_parents_first (sorted st).
Proof.
  intros Hnd Hacyc Hres Hinv Hperm j b p Hj Hp Hne.
  assert (Hb : b ∈ bs) by (rewrite <- Hperm; by eapply list_elem_of_lookup_2).
  destruct (Hres b p Hb Hp) as (pb & Hpb & Hu).
  pose proof (branchMap_NoDup bs pb Hnd Hpb) as Hlk. rewrite Hu in Hlk.
  destruct (inv_order _ _ Hinv (take j (sorted st)) b (drop (S j) (sorted st)) p)
    as [Hin|Hc]; [by rewrite take_drop_middle|done..|by rewrite Hlk| |].
  - apply list_elem_of_fmap in Hin as (pb' & Hu' & Hin).
    apply list_elem_of_lookup in Hin as [i Hi].
    apply lookup_take_Some in Hi as [Hi Hlt]. by exists i, pb'.
  - apply (inv_cycle _ _ Hinv) in Hc. apply on_cycle_parent_cycle in Hc as [l Hl].
    by destruct (Hacyc _ Hl).
Qed.

Lemma nonempty_parents_first_present out :
  nonempty_parents_first out → present_parents_first out.
Proof.
  intros H j b p Hj Hp Hne _. destruct (H j b p Hj Hp Hne) as (i & pb & Hi & Hlk & Hu).
  exists i. split; [done|]. by rewrite list_lookup_fmap, Hlk, <- Hu.
Qed.

(** With distinct uuids, no cycle and resolving parents, sorting the sorted
    list again returns it as it is. *)
Theorem sortBranchesForRegistration_idempotent (bs : list branch) :
  NoDup (uuid <$> bs) → acyclic bs → parents_resolve bs →
  ∃ out log log', sortBranchesForRegistration bs = Some (out, log) ∧
                  sortBranchesForRegistration out = Some (out, log').
Proof.
  intros Hnd Hacyc Hres.
  destruct (sortBranchesForRegistration_run bs) as (st & Hrun & Hinv & Hall).
  pose proof (sorted_permutation bs st Hnd Hinv Hall) as Hperm.
  pose proof (sorted_nonempty_parents_first bs st Hnd Hacyc Hres Hinv Hperm) as Hord.
  destruct (sorted_input_unchanged (sorted st)) as (log' & Hrun' & _).
  - by destruct Hinv.
  - by apply nonempty_parents_first_present.
  - by exists (sorted st), (sort_out st), log'.
Qed.

Lemma sortBranchesForRegistration_idempotent_witness :
  ∃ out log log', sortBranchesForRegistration child_first_input = Some (out, log) ∧
                  sortBranchesForRegistration out = Some (out, log').
Proof.
  apply (sortBranchesForRegistration_idempotent child_first_input).
  - by_compute.
  - intros cyc Hcyc.
    assert (∃ c, c ∈ cyc) as [c Hc].
    { destruct Hcyc as (c & rest & -> & _). exists c. by left. }
    destruct (parent_cycle_links _ _ c Hcyc Hc) as (p & Hl & Hp). no_link Hl.
    destruct (parent_cycle_links _ _ "r" Hcyc Hp) as (q & Hl & Hq). no_link Hl.
  - intros b p Hb Hp. inv_elem. eexists. split; [right; by left|done].
Defined.

Lemma orphaned_fix known b :
  orphaned known (if orphaned known b then with_parent_null b else b) = false.
Proof. by destruct (orphaned known b) eqn:H. Qed.

(** After the repair no record has a non-empty parent outside the universe,
    and a second repair with the same universe changes nothing and reports
    nothing. *)
Theorem validateAndFixBranches_idempotent (bs : list branch) (known : gmap string string) :
  let out := (validateAndFixBranches bs known).1 in
  (∀ b, b ∈ out → orphaned known b = false) ∧
  validateAndFixBranches out known = (out, []).
Proof.
  intros out. unfold out, validateAndFixBranches. rewrite !validate_loop. simpl.
  set (fix_ b := if orphaned known b then with_parent_null b else b).
  assert (Hfix : ∀ b, b ∈ map fix_ bs → orphaned known b = false).
  { intros b Hb. apply list_elem_of_In, in_map_iff in Hb as (b0 & <- & _).
    apply orphaned_fix. }
  split; [done|].
  assert (Hnone : filter (λ b, orphaned known b = true) (map fix_ bs) = []).
  { revert Hfix. generalize (map fix_ bs). intros l Hl.
    induction l as [|b l IH]; [done|]. rewrite filter_cons, decide_False.
    - apply IH. intros b' Hb'. apply Hl. by right.
    - rewrite (Hl b) by (by left). done. }
  rewrite Hnone. simpl. f_equal. clear Hfix Hnone.
  induction bs as [|b l IH]; [done|]. simpl. f_equal; [|exact IH].
  unfold fix_. by destruct (orphaned known b) eqn:H; [|rewrite H].
Qed.

(** ** The records the rebuild registers *)

Lemma registered_app l1 l2 : registered (l1 ++ l2) = registered l1 ++ registered l2.
Proof. apply omap_app. Qed.

Lemma registered_cons e l :
  registered (e :: l) =
  match e with Effect (Register b) => b :: registered l | _ => registered l end.
Proof. by destruct e as [| | |[| |]]. Qed.

Lemma registered_logs (l : list console) : registered (Effect ∘ Log <$> l) = [].
Proof. induction l as [|c l IH]; [done|]. exact IH. Qed.

Lemma registered_none tr : (∀ b, Effect (Register b) ∉ tr) → registered tr = [].
Proof.
  induction tr as [|e tr IH]; intros H; [done|].
  assert (Htl : registered tr = []) by (apply IH; intros b Hb; apply (H b); by right).
  destruct e as [| | |[b| |]]; try exact Htl. destruct (H b). by left.
Qed.

Lemma registered_effects tr :
  registered tr = omap (λ e, match e with Register b => Some b | _ => None end) (effects tr).
Proof.
  induction tr as [|e tr IH]; [done|].
  destruct e as [| | |[b| |]]; cbn; try exact IH. f_equal. exact IH.
Qed.

Lemma or_null_nonempty v p : or_null v = Some p → p ≠ "".
Proof.
  unfold or_null. destruct v as [s|]; simpl; [|done].
  unfold JS.str_truthy. case_bool_decide; [|done]. by intros [= ->].
Qed.

Lemma progress_ok_logs (l : list console) : Forall progress_ok (Effect ∘ Log <$> l).
Proof. induction l; by constructor. Qed.

Section Pipeline.
Context {W : Type}.
Context (fetchAllChats : character → W → fetched_chats * W).
Context (fetchFullChatData : character → string → W → fetched * W).
Context (registerBranchWithPlugin : branch → W → bool * W).
Context (dateNow : W → Z).

Lemma collect_emit_wf evs w (st : collect_state (W := W)) :
  Forall progress_ok evs → Forall quiet evs → collect_wf st →
  collect_wf (collect_emit evs 1 w st).
Proof.
  intros Hevs Hq [H1 H2 H3 H4]. split; simpl; [done..| |]; apply Forall_app; by split.
Qed.

Lemma collect_step_wf ch total st ic :
  ic.1 < total → collect_wf st →
  collect_wf (collect_step fetchFullChatData dateNow ch total st ic).
Proof.
  intros Hi Hwf. destruct ic as [i c]. simpl in Hi. unfold collect_step.
  assert (Hp : ∀ l, Forall progress_ok (Progress i total :: (Effect ∘ Log <$> l))).
  { intros l. constructor; [simpl; lia|apply progress_ok_logs]. }
  destruct (isCheckpointChat _);
    [apply collect_emit_wf; [apply (Hp [_])|by repeat constructor|done]|].
  destruct (fetchFullChatData ch _ (collect_world st)) as [full w].
  destruct full as [| |[md|]];
    try (apply collect_emit_wf;
         [first [apply (Hp [_])|apply (Hp [])]|by repeat constructor|done]).
  destruct (meta_uuid md) as [u|];
    [|apply collect_emit_wf; [apply (Hp [])|by repeat constructor|done]].
  destruct (JS.str_truthy u) eqn:Hu;
    [|apply collect_emit_wf; [apply (Hp [])|by repeat constructor|done]].
  destruct (uuidToChatName st !! u) as [existing|];
    [apply collect_emit_wf; [apply (Hp [_])|by repeat constructor|done]|].
  apply bool_decide_eq_true in Hu.
  destruct Hwf as [H1 H2 H3 H4]. split; simpl.
  - intros b [Hb|Hb]%elem_of_app; [by apply H1|].
    apply list_elem_of_singleton in Hb as ->. done.
  - intros b [Hb|Hb]%elem_of_app; [by apply H2|].
    apply list_elem_of_singleton in Hb as ->. simpl. intros Heq.
    by apply or_null_nonempty in Heq.
  - apply Forall_app. split; [done|]. apply (Hp []).
  - apply Forall_app. split; [done|]. by repeat constructor.
Qed.

Lemma collect_fold_wf ch total l st :
  Forall (λ ic, ic.1 < total) l → collect_wf st →
  collect_wf (foldl (collect_step fetchFullChatData dateNow ch total) st l).
Proof.
  revert st. induction l as [|ic l IH]; intros st Hl Hwf; [done|].
  apply Forall_cons in Hl as [Hi Hl]. simpl. apply IH; [done|].
  by apply collect_step_wf.
Qed.

Lemma imap_pair_bound {A} (l : list A) : Forall (λ ic, ic.1 < length l) (imap pair l).
Proof.
  apply Forall_forall. intros [i x] Hin. apply list_elem_of_lookup in Hin as [j Hj].
  rewrite list_lookup_imap in Hj. destruct (l !! j) eqn:Hl; simplify_eq/=.
  by apply lookup_lt_Some in Hl.
Qed.

(** The registration loop calls the plugin once per item, in order. *)
Lemma register_sequential_calls items s :
  omap (λ e, match e with Register b => Some b | _ => None end)
       (sequential (register_item registerBranchWithPlugin) items s).2 = items.
Proof.
  revert s. induction items as [|x items IH]; intros [w [p k]]; [done|].
  cbn [sequential snd]. rewrite omap_app, IH. unfold register_item.
  destruct (registerBranchWithPlugin x w) as [[] w']; done.
Qed.

Lemma register_sequential_quiet items s :
  Forall (λ e, quiet (Effect e))
         (sequential (register_item registerBranchWithPlugin) items s).2.
Proof.
  revert s. induction items as [|x items IH]; intros [w [p k]]; [by constructor|].
  cbn [sequential snd]. apply Forall_app. split; [|apply IH].
  unfold register_item. destruct (registerBranchWithPlugin x w) as [[] w'];
    by repeat constructor.
Qed.

End Pipeline.

Lemma quiet_effects tr : Forall (λ e, quiet (Effect e)) (effects tr) → Forall quiet tr.
Proof.
  induction tr as [|e tr IH]; intros H; [by constructor|].
  destruct e as [| | |x]; try (constructor; [done|by apply IH]).
  unfold effects in H. cbn in H. apply Forall_cons in H as [Hx H].
  constructor; [done|by apply IH].
Qed.

Lemma quiet_logs (l : list console) :
  Forall (λ c, match c with BranchNotFound _ => False | _ => True end) l →
  Forall quiet (Effect ∘ Log <$> l).
Proof. induction 1; by constructor. Qed.

Section DriverProgress.
Context {item St : Type} (process : item → St → St * list effect).

Lemma progress_ok_effects (effs : list effect) : Forall progress_ok (Effect <$> effs).
Proof. induction effs; by constructor. Qed.

Lemma process_batch_progress total g batch s :
  g + length batch ≤ total →
  Forall progress_ok (process_batch process total g batch s).2.
Proof.
  revert g s. induction batch as [|x batch IH]; intros g s Hg; [by constructor|].
  rewrite process_batch_cons. cbn [snd]. simpl in Hg.
  repeat (apply Forall_app; split); try apply progress_ok_effects.
  - constructor; [simpl; lia|done].
  - constructor; [simpl; lia|done].
  - apply IH. lia.
Qed.

Lemma run_batches_progress items s : Forall progress_ok (run_batches process items s).2.
Proof.
  unfold run_batches, BATCH_SIZE. set (T := JS.ceil_div (length items) 50).
  assert (Hgen : ∀ k, k ≤ T →
            Forall progress_ok (foldl (run_batch process items T) (s, []) (seq 0 k)).2).
  { induction k as [|k IH]; intros Hk; [by constructor|].
    rewrite seq_S, foldl_app. cbn [foldl Nat.add]. rewrite run_batch_trace.
    assert (Hlt : 50 * k < length items) by (apply ceil_div_lt; fold T; lia).
    repeat (apply Forall_app; split).
    - apply IH. lia.
    - repeat constructor. simpl. lia.
    - apply process_batch_progress. unfold JS.slice.
      rewrite length_take, length_drop. lia.
    - destruct (k <? T - 1); repeat constructor. simpl. lia. }
  by apply Hgen.
Qed.

End DriverProgress.

(** What [visit] writes to the console: a cycle warning, or a missing-branch
    warning for a uuid that is not in the map and is the one visited or the
    non-empty parent of a record of the map. *)
Lemma visit_log (m : gmap string branch) fuel u st st' :
  visit m fuel u st = Some st' →
  ∀ c, c ∈ sort_out st' →
    c ∈ sort_out st ∨ (∃ x, c = CircularDependency x) ∨
    ∃ x, c = BranchNotFound x ∧ m !! x = None ∧
         (x = u ∨ ∃ y b, m !! y = Some b ∧ parent_uuid b = Some x ∧ x ≠ "").
Proof.
  revert u st st'. induction fuel as [|fuel IH]; intros u st st' Hv c Hc; [done|].
  simpl in Hv.
  destruct (decide (u ∈ visited st)); [simplify_eq; by left|].
  destruct (decide (u ∈ temp st)).
  { simplify_eq. simpl in Hc. apply elem_of_app in Hc as [?|Hc]; [by left|].
    apply list_elem_of_singleton in Hc. right. left. by eexists. }
  destruct (m !! u) as [b|] eqn:Hb.
  2:{ simplify_eq. simpl in Hc. apply elem_of_app in Hc as [?|Hc]; [by left|].
      apply list_elem_of_singleton in Hc. right. right. exists u. by split_and!; [|  |left]. }
  destruct (parent_uuid b) as [p|] eqn:Hp; simpl in Hv.
  - destruct (JS.str_truthy p) eqn:Ht; simpl in Hv.
    + destruct (visit m fuel p (temp_add u st)) as [st2|] eqn:Hrec; simplify_eq/=.
      destruct (IH _ _ _ Hrec c Hc) as [?|[?|(x & -> & Hx & Hwho)]]; [by left|by right; left|].
      right. right. exists x. split_and!; [done..|].
      destruct Hwho as [->|?]; [|by right]. right. exists u, b.
      split_and!; [done..|]. by apply bool_decide_eq_true in Ht.
    + simplify_eq/=. by left.
  - simplify_eq/=. by left.
Qed.

Lemma visit_all_log (m : gmap string branch) fuel bs st st' :
  visit_all m fuel bs st = Some st' →
  ∀ c, c ∈ sort_out st' →
    c ∈ sort_out st ∨ (∃ x, c = CircularDependency x) ∨
    ∃ x, c = BranchNotFound x ∧ m !! x = None ∧
         (x ∈ uuid <$> bs ∨ ∃ y b, m !! y = Some b ∧ parent_uuid b = Some x ∧ x ≠ "").
Proof.
  unfold visit_all. revert st. induction bs as [|b bs IH]; intros st Hv c Hc.
  - simpl in Hv. simplify_eq. by left.
  - cbn [foldl mbind option_bind] in Hv.
    destruct (visit m fuel (uuid b) st) as [st1|] eqn:H1.
    2:{ exfalso. clear -Hv. induction bs as [|x bs IH]; [done|]. by apply IH. }
    destruct (IH st1 Hv c Hc) as [Hin|[?|(x & -> & Hx & Hwho)]]; [|by right; left|].
    + destruct (visit_log _ _ _ _ _ H1 c Hin) as [?|[?|(x & -> & Hx & Hwho)]];
        [by left|by right; left|].
      right. right. exists x. split_and!; [done..|].
      destruct Hwho as [->|?]; [left; by left|by right].
    + right. right. exists x. split_and!; [done..|].
      destruct Hwho as [?|?]; [left; by right|by right].
Qed.

(** A cycle of parent links only depends on which records are listed. *)
Lemma parent_cycle_perm bs bs' cyc : bs ≡ₚ bs' → parent_cycle bs cyc → parent_cycle bs' cyc.
Proof.
  intros Hperm (c & rest & -> & Hch & Hwrap).
  assert (Hlink : ∀ x y, parent_link bs x y → parent_link bs' x y).
  { intros x y (b & Hb & ? & ?). exists b. by rewrite <- Hperm. }
  exists c, rest. split_and!; [done| |by apply Hlink]. by eapply chain_mono.
Qed.

Lemma parents_first_nil : parents_first [].
Proof. intros j b p Hj. rewrite lookup_nil in Hj. discriminate Hj. Qed.

Section PipelineTheorems.
Context {W : Type}.
Context (fetchAllChats : character → W → fetched_chats * W).
Context (fetchFullChatData : character → string → W → fetched * W).
Context (uuidv4 : W → string * W).
Context (migrateChatMetadata : string → string → W → bool * W).
Context (registerBranchWithPlugin : branch → W → bool * W).
Context (dateNow : W → Z).

(** The rebuild hands the plugin records with distinct, non-empty uuids whose
    parent is null or the non-empty uuid of a record it hands over (which
    may be the record itself); when these parent links have no cycle every
    record follows its parent; and the sequencer never misses a branch. *)
Theorem rebuildStorageFromChats_registers_in_order (ch : character) (w : W) :
  ∃ res tr w',
    rebuildStorageFromChats fetchAllChats fetchFullChatData registerBranchWithPlugin
      dateNow ch w = Some (res, tr, w') ∧
    NoDup (uuid <$> registered tr) ∧
    Forall (λ b, uuid b ≠ "" ∧
                 ∀ p, parent_uuid b = Some p → p ≠ "" ∧ p ∈ uuid <$> registered tr)
           (registered tr) ∧
    (acyclic (registered tr) → parents_first (registered tr)) ∧
    Forall quiet tr.
Proof.
  unfold rebuildStorageFromChats.
  destruct (fetchAllChats ch w) as [[msg|chats] w0].
  { eexists _, _, _. split; [done|]. cbn.
    split_and!; [constructor|constructor| |by repeat constructor].
    intros _. apply parents_first_nil. }
  destruct chats as [|c0 chats0].
  { eexists _, _, _. split; [done|]. cbn.
    split_and!; [constructor|constructor| |by repeat constructor].
    intros _. apply parents_first_nil. }
  cbv beta iota.
  assert (Hch : ∃ chats, chats = c0 :: chats0) by by eexists.
  destruct Hch as [chats Hch]. rewrite <- !Hch.
  set (st0 := CollectState [] ∅ 0 _ w0).
  assert (Hinv0 : collect_inv st0).
  { split; simpl.
    - intros b Hb. by apply elem_of_nil in Hb.
    - apply NoDup_nil_2.
    - intros u. rewrite lookup_empty. split; [by intros [? ?]|]. intros Hu. by apply elem_of_nil in Hu.
    - intros b H. repeat (apply elem_of_cons in H as [H|H]; [discriminate H|]).
      by apply elem_of_nil in H. }
  assert (Hwf0 : collect_wf st0).
  { split; simpl; [intros b Hb; by apply elem_of_nil in Hb..| |by repeat constructor].
    repeat (apply Forall_cons; split; [simpl; lia|]). constructor. }
  destruct (collect_fold_spec fetchFullChatData dateNow ch (length chats) (imap pair chats) st0 Hinv0)
    as (Hinv & _ & _).
  pose proof (collect_fold_wf fetchFullChatData dateNow ch (length chats) (imap pair chats) st0
                (imap_pair_bound chats) Hwf0) as Hwf.
  set (st := foldl _ st0 (imap pair chats)) in *.
  pose proof (validate_loop (uuidToChatName st) (branchDataList st) (ValidateState [] 0 [])) as Hval.
  unfold validateAndFixBranches. rewrite Hval. cbn [validated app validate_out orphanedCount].
  set (validatedBranches := map _ (branchDataList st)).
  set (vlog := if bool_decide _ then _ else _).
  assert (Huuid : uuid <$> validatedBranches = uuid <$> branchDataList st).
  { unfold validatedBranches. generalize (branchDataList st). intros l.
    induction l as [|b l IH]; [done|]. cbn. rewrite <- IH. f_equal.
    by destruct (orphaned _ b). }
  assert (Hvalid : ∀ b, b ∈ validatedBranches →
            uuid b ≠ "" ∧ ∀ p, parent_uuid b = Some p →
              p ≠ "" ∧ p ∈ uuid <$> validatedBranches).
  { intros b Hb. unfold validatedBranches in Hb.
    apply list_elem_of_In, in_map_iff in Hb as (b0 & <- & Hb0). apply list_elem_of_In in Hb0.
    pose proof (cw_uuid _ Hwf b0 Hb0) as Hu. pose proof (cw_parent _ Hwf b0 Hb0) as Hp.
    destruct (orphaned (uuidToChatName st) b0) eqn:Ho; [by split|].
    split; [done|]. intros p Hpar. unfold orphaned in Ho. rewrite Hpar in Ho.
    assert (Hne : p ≠ "") by (intros ->; by rewrite Hpar in Hp).
    split; [done|]. rewrite Huuid. apply (ci_map _ Hinv).
    unfold JS.str_truthy in Ho. rewrite bool_decide_eq_true_2 in Ho by done.
    simpl in Ho. apply negb_false_iff, bool_decide_eq_true in Ho. done. }
  destruct (sortBranchesForRegistration_run validatedBranches) as (ss & Hsort & Hsinv & Hall).
  assert (Hlog : ∀ c, c ∈ sort_out ss → (∃ x, c = CircularDependency x) ∨
            ∃ x, c = BranchNotFound x ∧ branchMap_of validatedBranches !! x = None ∧
              (x ∈ uuid <$> validatedBranches ∨
               ∃ y b, branchMap_of validatedBranches !! y = Some b ∧
                      parent_uuid b = Some x ∧ x ≠ "")).
  { pose proof Hsort as Hsort'. unfold sortBranchesForRegistration in Hsort'.
    destruct (visit_all _ _ validatedBranches _) as [ss'|] eqn:Hva; [|done].
    simpl in Hsort'. injection Hsort' as Hsorted Hout. intros c Hc. rewrite <- Hout in Hc.
    destruct (visit_all_log _ _ _ _ _ Hva c Hc) as [Hin|[?|?]]; [|by left|by right].
    by apply elem_of_nil in Hin. }
  rewrite Hsort. cbn [mbind option_bind].
  assert (Hnd : NoDup (uuid <$> validatedBranches)) by (rewrite Huuid; apply (ci_nodup _ Hinv)).
  assert (Hperm : sorted ss ≡ₚ validatedBranches) by (by apply sorted_permutation).
  destruct (run_batches_sequential (register_item registerBranchWithPlugin) (sorted ss)
              (collect_world st, (0, collect_skipped st))) as [_ Heffs].
  pose proof (register_sequential_quiet registerBranchWithPlugin (sorted ss)
                (collect_world st, (0, collect_skipped st))) as Hquiet.
  rewrite <- Heffs in Hquiet. apply quiet_effects in Hquiet.
  pose proof (register_sequential_calls registerBranchWithPlugin (sorted ss)
                (collect_world st, (0, collect_skipped st))) as Hcalls.
  rewrite <- Heffs in Hcalls.
  pose proof (run_batches_progress (register_item registerBranchWithPlugin) (sorted ss)
                (collect_world st, (0, collect_skipped st))) as Hprog.
  destruct (run_batches _ (sorted ss) _) as [[w1 [processed skipped]] tr].
  cbn [fst snd] in Hcalls, Hprog, Hquiet.
  eexists _, _, _. split; [done|].
  match goal with |- context [registered ?t] =>
    assert (Hregs : registered t = sorted ss); [|set (trace := t) in *] end.
  { repeat first [rewrite registered_app | rewrite registered_cons | rewrite registered_logs].
    rewrite (registered_none (collect_trace st)) by apply (ci_trace _ Hinv).
    by rewrite (registered_effects tr), Hcalls. }
  rewrite Hregs.
  split_and!.
  - rewrite Hperm. done.
  - apply Forall_forall. intros b Hb. rewrite Hperm in Hb.
    destruct (Hvalid b Hb) as [Hu Hp]. split; [done|].
    intros p Hpar. destruct (Hp p Hpar) as [? ?]. split; [done|]. by rewrite Hperm.
  - intros Hacyc.
    assert (Hnpf : nonempty_parents_first (sorted ss)).
    { apply (sorted_nonempty_parents_first validatedBranches); try done.
      - intros cyc Hcyc. apply (Hacyc cyc). by apply (parent_cycle_perm validatedBranches).
      - intros b p Hb Hp. destruct (Hvalid b Hb) as [_ Hres].
        destruct (Hres p Hp) as [_ (pb & -> & Hpb)%list_elem_of_fmap]. by exists pb. }
    intros j b p Hj Hp. apply (Hnpf j b p Hj Hp).
    assert (Hb : b ∈ validatedBranches) by (rewrite <- Hperm; by eapply list_elem_of_lookup_2).
    destruct (Hvalid b Hb) as [_ Hres]. by destruct (Hres p Hp).
  - unfold trace.
    repeat first [apply Forall_app; split | apply Forall_cons; split]; try done.
    + apply (cw_quiet _ Hwf).
    + apply quiet_logs. unfold vlog. case_bool_decide.
      * apply Forall_app. split; [|by repeat constructor].
        apply Forall_forall. intros c Hc. simpl in Hc.
        apply list_elem_of_In, in_map_iff in Hc as (b & <- & _). done.
      * apply Forall_forall. intros c Hc. simpl in Hc.
        apply list_elem_of_In, in_map_iff in Hc as (b & <- & _). done.
    + apply quiet_logs, Forall_forall. intros c Hc.
      destruct (Hlog c Hc) as [[x ->]|(x & -> & Hx & Hwho)]; [done|].
      exfalso. destruct Hwho as [Hin|(y & b & Hy & Hp & Hne)].
      * apply branchMap_of_dom in Hin. rewrite Hx in Hin. by destruct Hin.
      * apply branchMap_lookup in Hy as [Hb _]. destruct (Hvalid b Hb) as [_ Hres].
        destruct (Hres x Hp) as [_ Hin]. apply branchMap_of_dom in Hin.
        rewrite Hx in Hin. by destruct Hin.
Qed.

(** No progress report of a bulk operation counts beyond its total, so the
    progress bar never overflows. *)
Theorem bulk_operations_progress_bounded (ch : character) (w : W) :
  (∃ res tr w',
     rebuildStorageFromChats fetchAllChats fetchFullChatData registerBranchWithPlugin
       dateNow ch w = Some (res, tr, w') ∧ Forall progress_ok tr) ∧
  Forall progress_ok
    (migrateAllChats fetchAllChats fetchFullChatData uuidv4 migrateChatMetadata
       registerBranchWithPlugin dateNow ch w).1.2.
Proof.
  split.
  - unfold rebuildStorageFromChats.
    destruct (fetchAllChats ch w) as [[msg|chats] w0];
      [eexists _, _, _; split; [done|by repeat constructor]|].
    destruct chats as [|c0 chats0];
      [eexists _, _, _; split; [done|by repeat constructor]|].
    cbv beta iota.
    assert (Hch : ∃ chats, chats = c0 :: chats0) by by eexists.
    destruct Hch as [chats Hch]. rewrite <- !Hch.
    set (st0 := CollectState [] ∅ 0 _ w0).
    assert (Hwf0 : collect_wf st0).
    { split; simpl; [intros b Hb; by apply elem_of_nil in Hb..| |by repeat constructor].
      repeat (apply Forall_cons; split; [simpl; lia|]). constructor. }
    pose proof (collect_fold_wf fetchFullChatData dateNow ch (length chats) (imap pair chats) st0
                  (imap_pair_bound chats) Hwf0) as Hwf.
    set (st := foldl _ st0 (imap pair chats)) in *.
    destruct (validateAndFixBranches _ _) as [validatedBranches vlog].
    destruct (sortBranchesForRegistration_run validatedBranches) as (ss & -> & _).
    cbn [mbind option_bind].
    pose proof (run_batches_progress (register_item registerBranchWithPlugin) (sorted ss)
                  (collect_world st, (0, collect_skipped st))) as Hprog.
    destruct (run_batches _ (sorted ss) _) as [[w1 [processed skipped]] tr].
    eexists _, _, _. split; [done|].
    repeat first [apply Forall_app; split | apply Forall_cons; split];
      try done; try apply progress_ok_logs; try (simpl; lia).
    apply (cw_progress _ Hwf).
  - unfold migrateAllChats.
    destruct (fetchAllChats ch w) as [[msg|chats] w0]; [by repeat constructor|].
    destruct chats as [|c0 chats0]; [by repeat constructor|].
    pose proof (run_batches_progress
                  (migrate_item fetchFullChatData uuidv4 migrateChatMetadata
                     registerBranchWithPlugin dateNow ch) (c0 :: chats0) (w0, (0, 0))) as Hprog.
    destruct (run_batches _ (c0 :: chats0) _) as [[w1 [success errors]] tr].
    cbn [fst snd].
    repeat first [apply Forall_app; split | apply Forall_cons; split];
      try done; simpl; lia.
Qed.

End PipelineTheorems.

(** ** The migration *)

Lemma saved_effects tr : saved tr = saves (effects tr).
Proof.
  induction tr as [|e tr IH]; [done|].
  destruct e as [| | |[|a n|]]; cbn; try exact IH. f_equal. exact IH.
Qed.

Lemma saved_app l1 l2 : saved (l1 ++ l2) = saved l1 ++ saved l2.
Proof. apply omap_app. Qed.

Lemma saved_cons e l :
  saved (e :: l) =
  match e with Effect (Save a n) => (a, n) :: saved l | _ => saved l end.
Proof. by destruct e as [| | |[| |]]. Qed.

Section MigratorProofs.
Context {W : Type}.
Context (fetchAllChats : character → W → fetched_chats * W).
Context (fetchFullChatData : character → string → W → fetched * W).
Context (uuidv4 : W → string * W).
Context (migrateChatMetadata : string → string → W → bool * W).
Context (registerBranchWithPlugin : branch → W → bool * W).
Context (dateNow : W → Z).

Abbreviation migrate_item' :=
  (migrate_item fetchFullChatData uuidv4 migrateChatMetadata registerBranchWithPlugin dateNow).
Abbreviation migrate_checked' :=
  (migrate_checked fetchFullChatData uuidv4 migrateChatMetadata registerBranchWithPlugin dateNow).

(** One chat: at most one save, one registration and one outcome, and a
    success only after both calls. *)
Lemma migrate_checked_step ch c name needs w (counts : nat * nat) :
  let r := migrate_checked' ch c name needs w counts in
  r.1.2.1 + r.1.2.2 ≤ counts.1 + counts.2 + 1 ∧
  counts.1 ≤ r.1.2.1 ∧ counts.2 ≤ r.1.2.2 ∧
  length (registrations r.2) ≤ 1 ∧ length (saves r.2) ≤ 1 ∧
  r.1.2.1 - counts.1 ≤ length (registrations r.2) ∧
  r.1.2.1 - counts.1 ≤ length (saves r.2) ∧
  (needs = false → saves r.2 = []).
Proof.
  destruct counts as [s e]. unfold migrate_checked, failed. cbn [fst snd].
  destruct (fetchFullChatData ch name w) as [full w2].
  destruct needs.
  - destruct full as [| |md]; [cbn; split_and!; (done || lia)..|].
    destruct (match or_null (md ≫= meta_uuid) with Some u => (u, w2) | None => uuidv4 w2 end)
      as [u w3].
    destruct (migrateChatMetadata (avatar ch) name w3) as [[] w4];
      [|cbn; split_and!; (done || lia)].
    destruct (registerBranchWithPlugin _ w4) as [[] w5]; cbn; split_and!; (done || lia).
  - destruct full as [| |[md|]]; [cbn; split_and!; (done || lia)..| |cbn; split_and!; (done || lia)].
    destruct (or_null (meta_uuid md)) as [u|]; [|cbn; split_and!; (done || lia)].
    destruct (registerBranchWithPlugin _ w2) as [[] w3]; cbn; split_and!; (done || lia).
Qed.

Lemma migrate_item_step ch c (s : W * (nat * nat)) :
  let r := migrate_item' ch c s in
  r.1.2.1 + r.1.2.2 ≤ s.2.1 + s.2.2 + 1 ∧
  s.2.1 ≤ r.1.2.1 ∧ s.2.2 ≤ r.1.2.2 ∧
  length (registrations r.2) ≤ 1 ∧ length (saves r.2) ≤ 1 ∧
  r.1.2.1 - s.2.1 ≤ length (registrations r.2) ∧
  r.1.2.1 - s.2.1 ≤ length (saves r.2).
Proof.
  unfold migrate_item.
  assert (Hcheck : ∀ r, (chatNeedsMigration fetchFullChatData ch (JS.strip_jsonl (file_name c)) s.1) = r →
            registrations r.2 = [] ∧ saves r.2 = []).
  { intros r <-. unfold chatNeedsMigration.
    destruct (fetchFullChatData ch _ s.1) as [[| |[md|]] w']; done. }
  destruct (chatNeedsMigration _ _ _ _) as [[needs w1] checked].
  destruct (Hcheck _ eq_refl) as [Hr Hs]. cbn [snd] in Hr, Hs.
  pose proof (migrate_checked_step ch c (JS.strip_jsonl (file_name c)) needs w1 s.2) as H.
  destruct (migrate_checked' ch c _ needs w1 s.2) as [s' effs]. cbn [fst snd] in *.
  unfold registrations, saves in *. rewrite !omap_app, Hr, Hs. cbn [app].
  destruct H as (?&?&?&?&?&?&?&?). split_and!; done.
Qed.

Lemma migrate_sequential ch items (s : W * (nat * nat)) :
  let r := sequential (migrate_item' ch) items s in
  r.1.2.1 + r.1.2.2 ≤ s.2.1 + s.2.2 + length items ∧
  s.2.1 ≤ r.1.2.1 ∧
  length (registrations r.2) ≤ length items ∧ length (saves r.2) ≤ length items ∧
  r.1.2.1 - s.2.1 ≤ length (registrations r.2) ∧
  r.1.2.1 - s.2.1 ≤ length (saves r.2).
Proof.
  revert s. induction items as [|x items IH]; intros s; cbv zeta.
  - simpl. split_and!; lia.
  - cbn [sequential fst snd length].
    pose proof (migrate_item_step ch x s) as Hx. cbv zeta in Hx.
    specialize (IH (migrate_item' ch x s).1). cbv zeta in IH.
    unfold registrations, saves in *. rewrite !omap_app, !length_app.
    destruct Hx as (?&?&?&?&?&?&?), IH as (?&?&?&?&?&?). split_and!; lia.
Qed.

(** The migration reports at most one outcome per chat, saves and registers
    each chat at most once, and counts a success only for a chat it has both
    saved and registered; when the chat list cannot be fetched it touches
    nothing and reports the error. *)
Theorem migrateAllChats_counts (ch : character) (w : W) :
  let r := migrateAllChats fetchAllChats fetchFullChatData uuidv4 migrateChatMetadata
             registerBranchWithPlugin dateNow ch w in
  match fetchAllChats ch w with
  | (Chats chats, _) =>
      successCount r.1.1 + errorCount r.1.1 ≤ length chats ∧
      successCount r.1.1 ≤ length (registered r.1.2) ∧
      successCount r.1.1 ≤ length (saved r.1.2) ∧
      length (registered r.1.2) ≤ length chats ∧
      length (saved r.1.2) ≤ length chats ∧
      migrate_error r.1.1 = None
  | (ChatsThrow msg, _) =>
      r.1.1 = MigrateResult 0 0 (Some msg) ∧ registered r.1.2 = [] ∧ saved r.1.2 = []
  end.
Proof.
  cbv zeta. unfold migrateAllChats.
  destruct (fetchAllChats ch w) as [[msg|chats] w0]; [done|].
  destruct chats as [|c0 chats0]; [cbn; split_and!; (done || lia)|].
  destruct (run_batches_sequential (migrate_item' ch) (c0 :: chats0) (w0, (0, 0)))
    as [Hstate Heffs].
  pose proof (migrate_sequential ch (c0 :: chats0) (w0, (0, 0))) as Hseq.
  cbv zeta in Hseq. rewrite <- Hstate, <- Heffs in Hseq.
  destruct (run_batches _ (c0 :: chats0) _) as [[w1 [success errors]] tr].
  cbn [fst snd successCount errorCount migrate_error] in *.
  rewrite !registered_app, !saved_app.
  repeat rewrite registered_cons. repeat rewrite saved_cons. cbn [app registered saved omap].
  change (registered []) with (@nil branch). change (saved []) with (@nil (string * string)).
  cbn [app]. rewrite registered_effects, saved_effects.
  unfold registrations, saves in *. simpl length in *.
  destruct Hseq as (?&?&?&?&?&?). split_and!; (done || lia).
Qed.

(** A chat that already carries both identifiers is not written back. A
    chat is registered under its own name, under the uuid of its first entry
    when it has one, with the root defaulting to the uuid, and never when
    it cannot be read. *)
Theorem migrate_item_conservative (ch : character) (c : chatData) (s : W * (nat * nat)) :
  let name := JS.strip_jsonl (file_name c) in
  let effs := (migrate_item' ch c s).2 in
  let first := fetchFullChatData ch name s.1 in
  let second := fetchFullChatData ch name first.2 in
  (match first.1 with
   | FirstEntry (Some md) =>
       if JS.truthy (meta_uuid md) && JS.truthy (meta_root_uuid md)
       then saves effs = [] else True
   | _ => True
   end) ∧
  Forall (λ b, match second.1 with
               | FirstEntry md =>
                   chat_name b = name ∧ character_id b = avatar ch ∧
                   branch_point b = None ∧
                   (∀ u, or_null (md ≫= meta_uuid) = Some u → uuid b = u) ∧
                   root_uuid b = default (uuid b) (or_null (md ≫= meta_root_uuid))
               | _ => False
               end)
         (registrations effs).
Proof.
  cbv zeta. unfold migrate_item, chatNeedsMigration.
  destruct (fetchFullChatData ch (JS.strip_jsonl (file_name c)) s.1) as [full1 w1].
  cbn [fst snd].
  set (name := JS.strip_jsonl (file_name c)).
  assert (Hregs : ∀ needs,
    Forall (λ b, match (fetchFullChatData ch name w1).1 with
                 | FirstEntry md =>
                     chat_name b = name ∧ character_id b = avatar ch ∧
                     branch_point b = None ∧
                     (∀ u, or_null (md ≫= meta_uuid) = Some u → uuid b = u) ∧
                     root_uuid b = default (uuid b) (or_null (md ≫= meta_root_uuid))
                 | _ => False
                 end)
           (registrations (migrate_checked' ch c name needs w1 s.2).2)).
  { intros needs. unfold migrate_checked, failed.
    destruct (fetchFullChatData ch name w1) as [full w2].
    cbn [fst snd]. destruct needs.
    - destruct full as [| |md]; [by constructor..|].
      destruct (or_null (md ≫= meta_uuid)) as [u|] eqn:Hu.
      + destruct (migrateChatMetadata (avatar ch) name w2) as [[] w4]; [|by constructor].
        destruct (registerBranchWithPlugin _ w4) as [[] w5]; cbn;
          (constructor; [|done]); split_and!; try done; by intros ? [= <-].
      + destruct (uuidv4 w2) as [u w3].
        destruct (migrateChatMetadata (avatar ch) name w3) as [[] w4]; [|by constructor].
        destruct (registerBranchWithPlugin _ w4) as [[] w5]; cbn;
          (constructor; [|done]); split_and!; done.
    - destruct full as [| |[md|]]; [by constructor..| |by constructor].
      cbn [mbind option_bind].
      destruct (or_null (meta_uuid md)) as [u|] eqn:Hu; [|by constructor].
      destruct (registerBranchWithPlugin _ w2) as [[] w3]; cbn;
        (constructor; [|done]); split_and!; try done; by intros ? [= <-]. }
  assert (Hsave : saves (migrate_checked' ch c name false w1 s.2).2 = []).
  { pose proof (migrate_checked_step ch c name false w1 s.2) as H. cbv zeta in H.
    destruct H as (_&_&_&_&_&_&_&H). by apply H. }
  destruct full1 as [| |[md|]]; cbn [fst snd];
    try (destruct (migrate_checked' ch c name true w1 s.2) as [s' effs] eqn:E;
         split; [done|]; cbn [snd registrations omap app];
         specialize (Hregs true); by rewrite E in Hregs).
  destruct (JS.truthy (meta_uuid md) && JS.truthy (meta_root_uuid md)) eqn:Hboth.
  - apply andb_true_iff in Hboth as [-> ->]. cbn [negb orb].
    specialize (Hregs false).
    destruct (migrate_checked' ch c name false w1 s.2) as [s' effs]. cbn [snd app] in *.
    by split.
  - specialize (Hregs (negb (JS.truthy (meta_uuid md)) || negb (JS.truthy (meta_root_uuid md)))).
    destruct (migrate_checked' ch c name _ w1 s.2) as [s' effs]. cbn [snd app] in *.
    by split.
Qed.

End MigratorProofs.

(** ** The node map and the roots *)

Lemma map_set_keys {V} (k : string) (v : V) (m : JS.ordered_map V) x :
  x ∈ (JS.map_set k v m).*1 ↔ x = k ∨ x ∈ m.*1.
Proof.
  induction m as [|[k' v'] m IH]; simpl.
  - rewrite list_elem_of_singleton. split; [by left|]. intros [?|H]; [done|].
    by apply elem_of_nil in H.
  - destruct (decide (k' = k)) as [->|Hne]; simpl.
    + rewrite !elem_of_cons. tauto.
    + rewrite !elem_of_cons, IH. tauto.
Qed.

Lemma map_get_Some_keys {V} (k : string) (m : JS.ordered_map V) :
  is_Some (JS.map_get k m) ↔ k ∈ m.*1.
Proof.
  induction m as [|[k' v'] m IH]; simpl.
  - split; [by intros [? ?]|]. intros H. by apply elem_of_nil in H.
  - destruct (decide (k' = k)) as [->|Hne].
    + split; [intros _; by left|by eexists].
    + rewrite IH, elem_of_cons. split; [by right|]. by intros [?|?].
Qed.

Lemma id_of_app_l h blk a : a < length h → id_of (h ++ blk) a = id_of h a.
Proof. intros Ha. unfold id_of. by rewrite lookup_app_l. Qed.

Lemma id_of_Some_lt h a k : id_of h a = Some k → a < length h.
Proof.
  unfold id_of. destruct (h !! a) eqn:H; [|done]. intros _. by apply lookup_lt_Some in H.
Qed.

Lemma id_of_push_child h a c x : id_of (push_child a c h) x = id_of h x.
Proof.
  unfold id_of, push_child. destruct (decide (a = x)) as [->|Hne].
  - rewrite list_lookup_alter_eq. by destruct (h !! x).
  - by rewrite list_lookup_alter_ne.
Qed.

Lemma keyed_push_child h m a c : keyed h m → keyed (push_child a c h) m.
Proof. intros H k x Hin. rewrite id_of_push_child. by apply H. Qed.

Lemma process_children_keys (cs : list tnode) (a : nat) h m :
  Forall processNode_keys cs → keyed h m → a < length h →
  let r := foldl (λ s1 child,
                    let '(c, s2) := processNode child (Some a) s1 in
                    (push_child a c s2.1, s2.2)) (h, m) cs in
  keyed r.1 r.2 ∧
  (∀ k, k ∈ r.2.*1 ↔ k ∈ m.*1 ∨ k ∈ t_uuid <$> flat_map preorder cs) ∧
  (∀ x, x < length h → id_of r.1 x = id_of h x) ∧
  length h ≤ length r.1.
Proof.
  intros Hcs. revert h m. induction Hcs as [|c cs Hc Hcs IH]; intros h m Hk Ha; cbv zeta.
  - simpl. split_and!; [done| |done|done]. intros k. split; [by left|].
    intros [?|H]; [done|]. by apply elem_of_nil in H.
  - cbn [foldl]. destruct (Hc (Some a) h m Hk) as (K1 & K2 & K3 & K4 & K5).
    destruct (processNode c (Some a) (h, m)) as [x [h1 m1]]. cbn [fst snd] in *.
    destruct (IH (push_child a x h1) m1) as (I1 & I2 & I3 & I4).
    + by apply keyed_push_child.
    + unfold push_child. rewrite length_alter. lia.
    + cbv zeta in I1, I2, I3, I4. split_and!; [done| | |].
      * intros k. rewrite I2, K2. cbn [flat_map]. rewrite fmap_app, elem_of_app. tauto.
      * intros y Hy. rewrite I3 by (unfold push_child; rewrite length_alter; lia).
        rewrite id_of_push_child. by apply K3.
      * assert (length (push_child a x h1) = length h1)
          by (unfold push_child; apply length_alter). lia.
Qed.

Lemma processNode_keys_ok (node : tnode) : processNode_keys node.
Proof.
  induction node as [u name pu cs IH] using tnode_ind'. intros parent h m Hk. cbv zeta.
  rewrite processNode_eq. cbn [fst snd].
  set (nd := INode u name pu [] (TreeData (TNode u name pu cs)) parent).
  assert (Hk0 : keyed (h ++ [nd]) (JS.map_set u (length h) m)).
  { intros k a Hin. apply map_set_elem in Hin as [Heq|Hin].
    - simplify_eq. unfold id_of. by rewrite lookup_app_r, Nat.sub_diag by lia.
    - pose proof (Hk k a Hin) as Hid. rewrite id_of_app_l; [done|].
      by eapply id_of_Some_lt. }
  destruct (process_children_keys cs (length h) (h ++ [nd]) (JS.map_set u (length h) m) IH Hk0)
    as (P1 & P2 & P3 & P4).
  { rewrite length_app. simpl. lia. }
  cbv zeta in P1, P2, P3, P4. rewrite length_app in P3, P4. simpl in P3, P4.
  split_and!; [done| | | |].
  - intros k. rewrite P2, map_set_keys. cbn [preorder]. rewrite fmap_cons, elem_of_cons.
    simpl. tauto.
  - intros x Hx. rewrite P3 by lia. by apply id_of_app_l.
  - lia.
  - rewrite P3 by lia. unfold id_of. by rewrite lookup_app_r, Nat.sub_diag by lia.
Qed.

(** The same for all the trees: the roots, in order, bear the uuids of the
    top-level records. *)
Lemma process_roots_keys (treeArray : list tnode) (h0 : list inode) :
  let r := process_roots treeArray (h0, []) in
  keyed r.2.1 r.2.2 ∧
  (∀ k, k ∈ r.2.2.*1 ↔ k ∈ uuids_of treeArray) ∧
  id_of r.2.1 <$> r.1 = Some ∘ t_uuid <$> treeArray ∧
  (∀ k a, (k, a) ∈ r.2.2 → length h0 ≤ a).
Proof.
  unfold process_roots, uuids_of.
  assert (Hgen : ∀ (l : list tnode) roots h (m : JS.ordered_map nat) (done_ : list tnode),
    keyed h m → id_of h <$> roots = Some ∘ t_uuid <$> done_ →
    (∀ k a, (k, a) ∈ m → length h0 ≤ a) → length h0 ≤ length h →
    let r := foldl (λ acc root, let '(r, s') := processNode root None acc.2 in (acc.1 ++ [r], s'))
                   (roots, (h, m)) l in
    keyed r.2.1 r.2.2 ∧
    (∀ k, k ∈ r.2.2.*1 ↔ k ∈ m.*1 ∨ k ∈ t_uuid <$> flat_map preorder l) ∧
    id_of r.2.1 <$> r.1 = Some ∘ t_uuid <$> (done_ ++ l) ∧
    (∀ k a, (k, a) ∈ r.2.2 → length h0 ≤ a)).
  { induction l as [|t l IH]; intros roots h m done_ Hk Hids Hlow Hlen; cbv zeta.
    - simpl. rewrite app_nil_r. split_and!; [done| |done|done].
      intros k. split; [by left|]. intros [?|H]; [done|]. by apply elem_of_nil in H.
    - cbn [foldl fst snd].
      destruct (processNode_keys_ok t None h m Hk) as (K1 & K2 & K3 & K4 & K5).
      pose proof (processNode_ok t None h m) as (blk & m' & Hrun & _ & _ & _ & Hvals).
      rewrite Hrun in *. cbn [fst snd] in *.
      destruct (IH (roots ++ [length h]) (h ++ blk) m' (done_ ++ [t])) as (I1 & I2 & I3 & I4).
      + done.
      + rewrite !fmap_app. simpl. rewrite K5. f_equal.
        rewrite <- Hids. apply list_fmap_ext. intros i r Hr.
        assert (Hsome : is_Some (id_of h r)).
        { pose proof (f_equal (.!! i) Hids) as Hl.
          rewrite !list_lookup_fmap, Hr in Hl. simpl in Hl.
          destruct (done_ !! i) as [t'|]; simpl in Hl; [|done].
          injection Hl as ->. by eexists. }
        destruct Hsome as [k Hk']. apply K3. by eapply id_of_Some_lt.
      + intros k a Hin. destruct (Hvals (k, a) Hin) as [?|Hr]; [by eapply Hlow|].
        simpl in Hr. lia.
      + rewrite length_app. lia.
      + cbv zeta in I1, I2, I3, I4. split_and!; [done| |by rewrite <- app_assoc in I3|done].
        intros k. rewrite I2, K2. cbn [flat_map]. rewrite fmap_app, elem_of_app. tauto. }
  destruct (Hgen treeArray [] h0 [] []) as (G1 & G2 & G3 & G4); try done.
  - intros k a H. by apply elem_of_nil in H.
  - intros k a H. by apply elem_of_nil in H.
  - cbv zeta in *. split_and!; [done| |done|done].
    intros k. rewrite G2. split; [|by right]. intros [H|?]; [|done]. by apply elem_of_nil in H.
Qed.

Lemma omap_ext_in {A B} (f g : A → option B) (l : list A) :
  (∀ x, x ∈ l → f x = g x) → omap f l = omap g l.
Proof.
  induction l as [|x l IH]; intros H; [done|]. cbn.
  rewrite (H x) by (by left). rewrite IH; [done|]. intros y Hy. apply H. by right.
Qed.

(** The filter of [buildNodeMapFromTree], one root at a time: a root is kept
    unless an earlier root bears its id. *)
Lemma dedupe_roots_snoc h roots x :
  dedupe_roots h (roots ++ [x]) =
  dedupe_roots h roots ++ (if decide (id_of h x ∈ id_of h <$> roots) then [] else [x]).
Proof.
  unfold dedupe_roots. rewrite imap_app, omap_app. f_equal.
  - apply omap_ext_in. intros [i y] Hin. cbn [fst snd].
    apply list_elem_of_lookup in Hin as [j Hj]. rewrite list_lookup_imap in Hj.
    destruct (roots !! j) as [y'|] eqn:Hy; simplify_eq/=.
    assert (Hsome : is_Some (list_find (λ r, id_of h r = id_of h y) roots)).
    { eapply list_find_elem_of; [by eapply list_elem_of_lookup_2|done]. }
    destruct Hsome as [[k z] Hfind]. unfold findIndex_id.
    by rewrite (list_find_app_l _ _ _ _ _ Hfind), Hfind.
  - cbn. rewrite Nat.add_0_r. unfold findIndex_id.
    destruct (list_find (λ r, id_of h r = id_of h x) roots) as [[k z]|] eqn:Hfind.
    + rewrite (list_find_app_l _ _ _ _ _ Hfind). cbn.
      apply list_find_Some in Hfind as (Hk & Hz & _).
      rewrite bool_decide_eq_false_2.
      2:{ intros [= ->]. apply lookup_lt_Some in Hk. lia. }
      rewrite decide_True; [done|]. rewrite <- Hz. apply list_elem_of_fmap.
      exists z. split; [done|]. by eapply list_elem_of_lookup_2.
    + rewrite list_find_app_r by done. cbn. rewrite decide_True by done. cbn.
      rewrite bool_decide_eq_true_2 by done.
      rewrite decide_False; [done|]. apply list_find_None in Hfind.
      intros (z & Hz & Hin)%list_elem_of_fmap. rewrite Forall_forall in Hfind.
      by apply (Hfind z Hin).
Qed.

Lemma dedupe_roots_spec h roots :
  NoDup (id_of h <$> dedupe_roots h roots) ∧
  (∀ b, b ∈ id_of h <$> dedupe_roots h roots ↔ b ∈ id_of h <$> roots) ∧
  dedupe_roots h roots `sublist_of` roots ∧
  (NoDup (id_of h <$> roots) → dedupe_roots h roots = roots).
Proof.
  induction roots as [|x roots IH] using rev_ind.
  - unfold dedupe_roots. simpl. split_and!; [constructor|done|done|done].
  - destruct IH as (I1 & I2 & I3 & I4). rewrite dedupe_roots_snoc.
    destruct (decide (id_of h x ∈ id_of h <$> roots)) as [Hin|Hnot].
    + rewrite app_nil_r. split_and!; [done| | |].
      * intros b. rewrite I2, fmap_app, elem_of_app. simpl. rewrite list_elem_of_singleton.
        split; [by left|]. intros [? | ->]; done.
      * by apply sublist_inserts_r.
      * rewrite fmap_app. intros (_ & Hd & _)%NoDup_app. destruct (Hd _ Hin). by left.
    + split_and!.
      * rewrite fmap_app. apply NoDup_app. split_and!; [done| |apply NoDup_singleton].
        intros b Hb ->%list_elem_of_singleton. by apply Hnot, I2.
      * intros b. rewrite !fmap_app, !elem_of_app, I2. done.
      * by apply sublist_app.
      * rewrite fmap_app. intros (Hd & _)%NoDup_app. by rewrite I4.
Qed.

(** The root list built for the dropdown has no two roots with the same id,
    misses no uuid of a top-level record, and is all the roots, in order,
    when the top-level uuids are distinct. *)
Theorem buildNodeMapFromTree_roots (treeArray : list tnode) (st : view) :
  let st' := buildNodeMapFromTree treeArray st in
  treeRoots st' = allTreeRoots st' ∧
  NoDup (id_of (heap st') <$> allTreeRoots st') ∧
  (∀ u, Some u ∈ id_of (heap st') <$> allTreeRoots st' ↔ u ∈ t_uuid <$> treeArray) ∧
  (NoDup (t_uuid <$> treeArray) →
     id_of (heap st') <$> allTreeRoots st' = Some ∘ t_uuid <$> treeArray).
Proof.
  cbv zeta. unfold buildNodeMapFromTree.
  pose proof (process_roots_keys treeArray (heap st)) as (_ & _ & Hids & _).
  destruct (process_roots treeArray (heap st, [])) as [roots [h m]]. cbn [fst snd] in *.
  destruct (dedupe_roots_spec h roots) as (D1 & D2 & D3 & D4).
  split_and!; [done|done| |].
  - intros u. rewrite D2, Hids, list_fmap_compose.
    split.
    + intros (x & [= ->] & Hx)%list_elem_of_fmap. done.
    + intros Hu. apply list_elem_of_fmap. by exists u.
  - intros Hnd. rewrite D4; [done|]. rewrite Hids, list_fmap_compose.
    apply NoDup_fmap; [|done]. by intros ?? [= ->].
Qed.

Lemma nodeMap_entries (treeArray : list tnode) (st : view) (u : string) :
  let st' := buildNodeMapFromTree treeArray st in
  (is_Some (JS.map_get u (nodeMap st')) ↔ u ∈ uuids_of treeArray) ∧
  (∀ a, JS.map_get u (nodeMap st') = Some a →
     length (heap st) ≤ a ∧
     ∃ nd t, heap st' !! a = Some nd ∧ n_id nd = u ∧ n_data nd = TreeData t ∧
             t ∈ flat_map preorder treeArray ∧ t_uuid t = u ∧
             n_name nd = t_chat_name t).
Proof.
  cbv zeta.
  destruct (buildNodeMapFromTree_forest treeArray st) as (roots & _ & Hdata & Hmatch & Hvals).
  revert Hdata Hmatch Hvals. unfold buildNodeMapFromTree.
  pose proof (process_roots_keys treeArray (heap st)) as (Hkeyed & Hkeys & _ & Hlow).
  destruct (process_roots treeArray (heap st, [])) as [rs [h m]]. cbn [fst snd heap nodeMap] in *.
  intros Hdata Hmatch Hvals. split.
  - by rewrite map_get_Some_keys, Hkeys.
  - intros a Ha. apply map_get_elem in Ha.
    pose proof (Hlow _ _ Ha) as Hge. split; [done|].
    pose proof (Hkeyed _ _ Ha) as Hid. unfold id_of in Hid.
    destruct (h !! a) as [nd|] eqn:Hnd; [|done]. simpl in Hid. injection Hid as Hid.
    assert (Hdrop : drop (length (heap st)) h !! (a - length (heap st)) = Some nd).
    { rewrite lookup_drop. by replace (length (heap st) + (a - length (heap st))) with a by lia. }
    pose proof (f_equal (.!! (a - length (heap st))) Hdata) as Hrec.
    rewrite !list_lookup_fmap, Hdrop in Hrec. simpl in Hrec.
    destruct (flat_map preorder treeArray !! (a - length (heap st))) as [t|] eqn:Ht; [|done].
    injection Hrec as Hrec.
    rewrite Forall_forall in Hmatch. pose proof (Hmatch nd) as Hm.
    unfold node_matches in Hm. rewrite Hrec in Hm.
    destruct Hm as [Hm1 Hm2]; [by eapply list_elem_of_lookup_2|].
    exists nd, t. split_and!; [done..|by eapply list_elem_of_lookup_2|congruence|done].
Qed.

(** Looking a uuid up in [nodeMap] after the build: a node is found exactly
    for the uuids of the records of the forest, and it is a node made in this
    build from a record with that uuid. *)
Theorem buildNodeMapFromTree_lookup (treeArray : list tnode) (st : view) (u : string) :
  let st' := buildNodeMapFromTree treeArray st in
  (is_Some (JS.map_get u (nodeMap st')) ↔ u ∈ uuids_of treeArray) ∧
  (∀ a, JS.map_get u (nodeMap st') = Some a →
     length (heap st) ≤ a ∧
     ∃ nd t, heap st' !! a = Some nd ∧ n_id nd = u ∧ n_data nd = TreeData t ∧
             t ∈ flat_map preorder treeArray ∧ t_uuid t = u ∧
             n_name nd = t_chat_name t).
Proof. apply nodeMap_entries. Qed.

(** When the uuid of the current chat is the uuid of a record of the forest,
    the node selected bears that uuid, whatever the chat names are. *)
Theorem findCurrentNode_by_uuid (treeArray : list tnode) (st : view) (u : string) :
  currentChatUUID st = Some u → u ≠ "" → u ∈ uuids_of treeArray →
  let st' := findCurrentNode (buildNodeMapFromTree treeArray st) in
  ∃ a nd, currentNode st' = Some a ∧ heap st' !! a = Some nd ∧ n_id nd = u.
Proof.
  intros Hu Hne Hin. cbv zeta.
  destruct (findCurrentNode_chain (buildNodeMapFromTree treeArray st)) as (-> & -> & _).
  destruct (nodeMap_entries treeArray st u) as [Hsome Hnode]. cbv zeta in *.
  apply Hsome in Hin as [a Ha]. destruct (Hnode a Ha) as (_ & nd & t & Hnd & Hid & _).
  exists a, nd. split_and!; [|done..].
  unfold locate, nonempty_uuid_match.
  assert (Hcur : currentChatUUID (buildNodeMapFromTree treeArray st) = Some u).
  { unfold buildNodeMapFromTree. by destruct (process_roots _ _) as [? [? ?]]. }
  rewrite Hcur. simpl. unfold JS.str_truthy. rewrite bool_decide_eq_true_2 by done.
  rewrite Ha. by rewrite !option_union_Some_l.
Qed.

Lemma findCurrentNode_by_uuid_witness :
  let st' := findCurrentNode (buildNodeMapFromTree two_trees (new_view "branch" (Some "c1"))) in
  ∃ a nd, currentNode st' = Some a ∧ heap st' !! a = Some nd ∧ n_id nd = "c1".
Proof.
  apply (findCurrentNode_by_uuid two_trees (new_view "branch" (Some "c1")) "c1").
  - reflexivity.
  - done.
  - by_compute.
Defined.

(** ** Searching the tree of the plugin *)

Lemma first_result_app {A B} (f : A → option B) l1 l2 :
  first_result f (l1 ++ l2) = first_result f l1 ∪ first_result f l2.
Proof.
  induction l1 as [|x l1 IH]; simpl; [by destruct (first_result f l2)|].
  destruct (f x); [|done]. by destruct (first_result f l2).
Qed.

Lemma delete_in_node_spec chatName node :
  delete_in_node chatName node = t_uuid <$> head (named chatName [node]).
Proof.
  unfold named. simpl. rewrite app_nil_r.
  induction node as [u name pu cs IH] using tnode_ind'.
  cbn [delete_in_node preorder]. rewrite filter_cons. cbn [t_chat_name].
  case_bool_decide as Hn.
  - by rewrite decide_True.
  - rewrite decide_False by done.
    induction IH as [|c cs Hc _ IHcs]; [done|].
    cbn [first_result flat_map]. rewrite filter_app, Hc.
    destruct (filter _ (preorder c)) as [|t l]; [exact IHcs|done].
Qed.

Lemma findAndDelete_first (chatName : string) (nodes : list tnode) :
  findAndDelete chatName nodes = t_uuid <$> head (named chatName nodes).
Proof.
  unfold findAndDelete, named. induction nodes as [|n nodes IH]; [done|].
  cbn [first_result flat_map]. rewrite filter_app, delete_in_node_spec.
  unfold named. simpl. rewrite app_nil_r.
  destruct (filter _ (preorder n)) as [|t l]; [exact IH|done].
Qed.

Lemma chat_in_node_spec chatName node :
  chat_in_node chatName node = true ↔ ∃ t, t ∈ preorder node ∧ t_chat_name t = chatName.
Proof.
  induction node as [u name pu cs IH] using tnode_ind'.
  cbn [chat_in_node preorder]. rewrite orb_true_iff, bool_decide_eq_true, existsb_exists.
  split.
  - intros [<-|(c & Hc & Hin)].
    + eexists. split; [by left|done].
    + rewrite Forall_forall in IH. apply list_elem_of_In in Hc.
      apply (IH c Hc) in Hin as (t & Ht & Hname).
      exists t. split; [|done]. right. apply list_elem_of_In, in_flat_map.
      exists c. split; by apply list_elem_of_In.
  - intros (t & [->|Ht]%elem_of_cons & Hname); [by left|right].
    apply list_elem_of_In, in_flat_map in Ht as (c & Hc & Ht).
    exists c. split; [done|]. rewrite Forall_forall in IH.
    apply (IH c); [by apply list_elem_of_In|]. exists t. split; [by apply list_elem_of_In|done].
Qed.

(** A chat is reported to exist exactly when the character is there and the
    name is in its chat list or, the plugin answering with a tree, is the name
    of a record of that tree. *)
Theorem verifyChatExists_spec (character : option (option (list chat_item)))
    (fetchTree : tree_response) (chatName : string) :
  verifyChatExists character fetchTree chatName = true ↔
  ∃ chat_items, character = Some chat_items ∧
    ((∃ chat, chat ∈ default [] chat_items ∧ chatFile chat = Some chatName) ∨
     (∃ tree t, fetchTree = Response true (BodyTree tree) ∧ t ∈ flat_map preorder tree ∧
                t_chat_name t = chatName)).
Proof.
  unfold verifyChatExists. destruct character as [items|].
  2:{ split; [done|]. by intros (? & ? & _). }
  assert (Hitems : existsb (λ chat, bool_decide (chatFile chat = Some chatName))
                     (default [] items) = true ↔
                   ∃ chat, chat ∈ default [] items ∧ chatFile chat = Some chatName).
  { rewrite existsb_exists. split; intros (chat & Hin & Hf); exists chat;
      rewrite list_elem_of_In, bool_decide_eq_true in *; done. }
  assert (Htree : ∀ tree, findChatInTree chatName tree = true ↔
                   ∃ t, t ∈ flat_map preorder tree ∧ t_chat_name t = chatName).
  { intros tree. unfold findChatInTree. rewrite existsb_exists. split.
    - intros (n & Hn & Hin). apply chat_in_node_spec in Hin as (t & Ht & Hname).
      exists t. split; [|done]. apply list_elem_of_In, in_flat_map. exists n.
      split; [done|by apply list_elem_of_In].
    - intros (t & Ht & Hname). apply list_elem_of_In, in_flat_map in Ht as (n & Hn & Ht).
      exists n. split; [done|]. apply chat_in_node_spec. exists t.
      split; [by apply list_elem_of_In|done]. }
  destruct (existsb _ (default [] items)) eqn:Hex.
  - split; [|done]. intros _. exists items. split; [done|]. left. by apply Hitems.
  - split.
    + destruct fetchTree as [|[] [| |tree]]; try done. intros Hfind.
      apply Htree in Hfind as (t & Ht & Hname). exists items. split; [done|].
      right. by exists tree, t.
    + intros (items' & [= <-] & [Hit|(tree & t & -> & Ht & Hname)]).
      * apply Hitems in Hit. congruence.
      * apply Htree. by exists t.
Qed.

(** When a chat is deleted, at most one [DELETE] request is sent: with
    cascade, for the first record of the plugin's tree, parent before
    children and earlier sibling first, that bears the name of the chat,
    whatever other records bear it; and none for a group chat, with the
    extension disabled or the plugin not running, without a character or
    its avatar, without a tree, or when that record has an empty uuid. *)
Theorem on_chat_deleted_requests (selected_group enabled pluginRunning : bool)
    (character : option (option string)) (fetchTree : tree_response)
    (chatName : string) :
  let requests :=
    on_chat_deleted selected_group enabled pluginRunning character fetchTree chatName in
  length requests ≤ 1 ∧
  ∀ uuid cascade,
    DeleteBranch uuid cascade ∈ requests ↔
    cascade = true ∧ selected_group = false ∧ enabled = true ∧ pluginRunning = true ∧
    ∃ avatar ok tree t,
      character = Some (Some avatar) ∧ avatar ≠ "" ∧
      fetchTree = Response ok (BodyTree tree) ∧
      head (named chatName tree) = Some t ∧ t_uuid t = uuid ∧ uuid ≠ "".
Proof.
  cbv zeta. unfold on_chat_deleted, deleteBranchFromPlugin.
  destruct selected_group.
  { split; [simpl; lia|]. intros u c. split; [by intros ?%elem_of_nil|]. by intros (_ & ? & _). }
  destruct enabled; cbn [negb orb].
  2:{ split; [simpl; lia|]. intros u c. split; [by intros ?%elem_of_nil|]. by intros (_ & _ & ? & _). }
  destruct character as [[avatar|]|];
    [|split; [simpl; lia|]; intros u c; split; [by intros ?%elem_of_nil|];
      by intros (_ & _ & _ & _ & ? & ? & ? & ? & ? & _)..].
  cbn [JS.truthy]. unfold JS.str_truthy.
  case_bool_decide as Hav; cbn [negb].
  2:{ split; [simpl; lia|]. intros u c. split; [by intros ?%elem_of_nil|].
      intros (_ & _ & _ & _ & ? & ? & ? & ? & ? & ? & _). simplify_eq; try by destruct Hav. }
  destruct fetchTree as [|ok [| |tree]];
    [split; [simpl; lia|]; intros u c; split; [by intros ?%elem_of_nil|];
      by intros (_ & _ & _ & _ & ? & ? & ? & ? & _ & _ & ? & _)..|].
  rewrite findAndDelete_first.
  destruct (head (named chatName tree)) as [t|] eqn:Hhead; cbn [fmap option_fmap option_map].
  2:{ split; [simpl; lia|]. intros u c. split; [by intros ?%elem_of_nil|].
      intros (_ & _ & _ & _ & ? & ? & ? & ? & _ & _ & ? & ? & _). simplify_eq. }
  destruct pluginRunning; cbn [negb orb].
  2:{ split; [simpl; lia|]. intros u c. split; [by intros ?%elem_of_nil|].
      by intros (_ & _ & _ & ? & _). }
  case_bool_decide as Hu; cbn [negb].
  - split; [simpl; lia|]. intros u c. rewrite list_elem_of_singleton. split.
    + intros [= -> ->]. split_and!; try done. by exists avatar, ok, tree, t.
    + intros (-> & _ & _ & _ & ? & ? & ? & t' & _ & _ & ? & ? & <- & _). simplify_eq. done.
  - split; [simpl; lia|]. intros u c. split; [by intros ?%elem_of_nil|].
    intros (_ & _ & _ & _ & ? & ? & ? & t' & _ & _ & ? & ? & <- & Hne).
    simplify_eq; try by destruct Hu.
Qed.

(** ** The expanded set *)

Section EmbeddedPath.
Context (pre blk post : list inode).
Let H := pre ++ blk ++ post.
Let base := length pre.
Hypothesis Hblk : block base None blk.

Lemma embedded_at k : k < length blk → H !! (base + k) = blk !! k.
Proof. apply embedded_lookup. Qed.

Lemma embedded_parent k cn p :
  blk !! k = Some cn → parent_of H (base + k) p →
  ∃ i nd, p = base + i ∧ i < k ∧ blk !! i = Some nd ∧ base + k ∈ n_children nd.
Proof.
  intros Hcn (nd & Hnd & Hp).
  assert (Hk : k < length blk) by (by apply lookup_lt_Some in Hcn).
  rewrite embedded_at in Hnd by done.
  assert (nd = cn) as -> by congruence. clear Hnd.
  destruct (decide (k = 0)) as [->|Hne].
  - destruct Hblk as [(nd0 & Hnd0 & Hp0) _ _]. congruence.
  - destruct (blk_parents _ _ _ Hblk k cn ltac:(lia) Hcn) as (i & ndp & Hi & Hp' & Hndp & Hin).
    exists i, ndp. split_and!; try done. congruence.
Qed.

Lemma embedded_ancestors k p :
  k < length blk → tc (parent_of H) (base + k) p →
  ∃ i, p = base + i ∧ i < k.
Proof.
  intros Hk Htc. remember (base + k) as a eqn:Ha. revert k Hk Ha.
  induction Htc as [a p Hp|a q p Hp Htc IH]; intros k Hk ->.
  - destruct (lookup_lt_is_Some_2 blk k Hk) as [cn Hcn].
    destruct (embedded_parent k cn p Hcn Hp) as (i & _ & -> & Hi & _). by exists i.
  - destruct (lookup_lt_is_Some_2 blk k Hk) as [cn Hcn].
    destruct (embedded_parent k cn q Hcn Hp) as (i & nd & -> & Hi & Hnd & _).
    destruct (IH i) as (j & -> & Hj); [by apply lookup_lt_Some in Hnd|done|].
    exists j. split; [done|lia].
Qed.

Lemma embedded_expand k fuel (E : gset string) :
  k < length blk → k < fuel →
  ∃ E', expand_path H fuel (base + k) E = Some E' ∧
        ∀ x, x ∈ E' ↔ x ∈ E ∨ ∃ p, tc (parent_of H) (base + k) p ∧ id_of H p = Some x.
Proof.
  revert fuel E. induction k as [k IH] using lt_wf_ind. intros fuel E Hk Hf.
  destruct fuel as [|fuel]; [lia|]. simpl.
  rewrite embedded_at by done.
  destruct (lookup_lt_is_Some_2 blk k Hk) as [cn Hcn]. rewrite Hcn.
  destruct (decide (k = 0)) as [->|Hne].
  - destruct Hblk as [(nd0 & Hnd0 & Hp) _ _]. simplify_eq. rewrite Hp.
    exists E. split; [done|]. intros x. split; [by left|].
    intros [?|(p & Htc & _)]; [done|].
    apply embedded_ancestors in Htc as (i & _ & Hi); [lia|done].
  - destruct (blk_parents _ _ _ Hblk k cn ltac:(lia) Hcn) as (i & nd & Hi & Hp & Hnd & _).
    assert (Hil : i < length blk) by (by apply lookup_lt_Some in Hnd).
    rewrite Hp. unfold id_of at 1. rewrite embedded_at by done. rewrite Hnd. simpl.
    destruct (IH i Hi fuel ({[n_id nd]} ∪ E) Hil ltac:(lia)) as (E' & -> & HE').
    exists E'. split; [done|]. intros x. rewrite HE', elem_of_union, elem_of_singleton.
    assert (Hpar : parent_of H (base + k) (base + i)).
    { exists cn. split; [|done]. by rewrite embedded_at. }
    assert (Hid : id_of H (base + i) = Some (n_id nd)).
    { unfold id_of. rewrite embedded_at by done. by rewrite Hnd. }
    split.
    + intros [[->|?]|(p & Htc & Hx)]; [|by left|].
      * right. exists (base + i). split; [by apply tc_once|done].
      * right. exists p. split; [|done]. by eapply tc_l.
    + intros [?|(p & Htc & Hx)]; [by left; right|].
      assert (Hdet : ∀ q, parent_of H (base + k) q → q = base + i).
      { intros q (nd' & Hnd' & Hq). destruct Hpar as (nd'' & Hnd'' & Hq''). congruence. }
      inversion Htc as [? ? Hstep|? q ? Hstep Hrest]; subst.
      * apply Hdet in Hstep as ->. left; left. congruence.
      * apply Hdet in Hstep as ->. right. by exists p.
Qed.

End EmbeddedPath.

(** A forest built from tree records in which a current node was found:
    the heap splits around the block of the tree that holds the node. *)
Lemma built_forest_split treeArray st0 N :
  let st := findCurrentNode (buildNodeMapFromTree treeArray st0) in
  currentNode st = Some N →
  ∃ pre blk post,
    heap st = pre ++ blk ++ post ∧ length (heap st0) ≤ length pre ∧
    block (length pre) None blk ∧
    length pre ≤ N < length pre + length blk.
Proof.
  intros st HN.
  pose proof (findCurrentNode_in_map (buildNodeMapFromTree treeArray st0)) as Hin.
  destruct (findCurrentNode_chain (buildNodeMapFromTree treeArray st0))
    as (_ & Hheap & Hmap & _ & _).
  fold st in Hin, Hheap, Hmap.
  destruct (buildNodeMapFromTree_forest treeArray st0) as (roots & Hf & _ & _ & Hvals).
  rewrite <- Hheap in Hf, Hvals.
  destruct (Hin N HN) as [k Hk]. apply Hvals in Hk. simpl in Hk.
  destruct (forest_heap_cover _ _ _ N Hf Hk) as (pre & blk & post & HH & Hpre & _ & Hblk & HNr).
  by exists pre, blk, post.
Qed.

(** After the forest is built and the current node found, [expandActivePath]
    returns, and the expanded set has gained exactly the identifiers of the
    proper ancestors of the current node; the rename state is untouched.
    Without a current node nothing changes. *)
Theorem expandActivePath_ancestors (treeArray : list tnode) (st0 : view) (u : ui) :
  let st := findCurrentNode (buildNodeMapFromTree treeArray st0) in
  ∃ u', expandActivePath st u = Some u' ∧
        isRenaming u' = isRenaming u ∧ renameNode u' = renameNode u ∧
        ∀ x, x ∈ expandedUUIDs u' ↔
             x ∈ expandedUUIDs u ∨
             ∃ N p, currentNode st = Some N ∧ tc (parent_of (heap st)) N p ∧
                    id_of (heap st) p = Some x.
Proof.
  intros st. unfold expandActivePath.
  destruct (currentNode st) as [N|] eqn:HN.
  2:{ exists u. split_and!; try done. intros x. split; [by left|].
      by intros [?|(? & ? & ? & _)]. }
  destruct (built_forest_split treeArray st0 N HN) as (pre & blk & post & HH & _ & Hblk & HNr).
  fold st in HH. rewrite HH.
  destruct (embedded_expand pre blk post Hblk (N - length pre)
              (S (length (pre ++ blk ++ post))) (expandedUUIDs u)) as (E' & HE & HE').
  { lia. } { rewrite !length_app. lia. }
  replace (length pre + (N - length pre)) with N in HE, HE' by lia.
  rewrite HE. eexists. split_and!; try done. simpl. intros x. rewrite HE'. split.
  - intros [?|(p & ? & ?)]; [by left|]. right. by exists N, p.
  - intros [?|(N' & p & ? & ? & ?)]; [by left|]. simplify_eq. right. by exists p.
Qed.

(** With pairwise distinct uuids, every node made from a record is the one
    [nodeMap] holds under its identifier. *)
Lemma nodeMap_complete treeArray st a nd :
  let st' := buildNodeMapFromTree treeArray st in
  NoDup (uuids_of treeArray) →
  length (heap st) ≤ a → heap st' !! a = Some nd →
  JS.map_get (n_id nd) (nodeMap st') = Some a.
Proof.
  intros st' Hnd Hge Ha.
  destruct (buildNodeMapFromTree_forest treeArray st) as (roots & _ & Hdata & Hmatch & _).
  fold st' in Hdata, Hmatch.
  assert (Hpos : ∀ b ndb, length (heap st) ≤ b → heap st' !! b = Some ndb →
                  uuids_of treeArray !! (b - length (heap st)) = Some (n_id ndb)).
  { intros b ndb Hb Hlk.
    assert (Hdrop : drop (length (heap st)) (heap st') !! (b - length (heap st)) = Some ndb).
    { rewrite lookup_drop. by replace (length (heap st) + (b - length (heap st))) with b by lia. }
    pose proof (f_equal (.!! (b - length (heap st))) Hdata) as Hrec.
    rewrite !list_lookup_fmap, Hdrop in Hrec. simpl in Hrec.
    unfold uuids_of. rewrite list_lookup_fmap.
    destruct (flat_map preorder treeArray !! (b - length (heap st))) as [t|] eqn:Ht; [|done].
    injection Hrec as Hrec. simpl. f_equal.
    rewrite Forall_forall in Hmatch. pose proof (Hmatch ndb) as Hm.
    unfold node_matches in Hm. rewrite Hrec in Hm.
    destruct Hm as [Hm1 _]; [by eapply list_elem_of_lookup_2|done]. }
  pose proof (Hpos a nd Hge Ha) as Hu.
  destruct (nodeMap_entries treeArray st (n_id nd)) as [Hkeys Hent].
  fold st' in Hkeys, Hent.
  destruct (proj2 Hkeys) as [a' Ha']; [by eapply list_elem_of_lookup_2|].
  destruct (Hent a' Ha') as (Hge' & nd' & t' & Hlk' & Hid' & _).
  pose proof (Hpos a' nd' Hge' Hlk') as Hu'. rewrite Hid' in Hu'.
  pose proof (NoDup_lookup _ _ _ _ Hnd Hu Hu') as Heq.
  apply lookup_lt_Some in Ha, Hlk'.
  rewrite Ha'. f_equal. lia.
Qed.

Lemma expandAllNodes_elem st u x :
  x ∈ expandedUUIDs (expandAllNodes st u) ↔
  x ∈ expandedUUIDs u ∨
  ∃ k a nd, (k, a) ∈ nodeMap st ∧ heap st !! a = Some nd ∧
            n_children nd ≠ [] ∧ n_id nd = x.
Proof.
  unfold expandAllNodes. cbn [expandedUUIDs]. generalize (expandedUUIDs u) as E.
  induction (nodeMap st) as [|[k a] m IH]; intros E.
  - simpl. split; [by left|]. intros [Hx|(k & a & nd & Hin & _)]; [exact Hx|].
    by apply elem_of_nil in Hin.
  - cbn [fmap list_fmap foldl snd]. rewrite IH. clear IH.
    destruct (heap st !! a) as [nd|] eqn:Hnd.
    + destruct (0 <? length (n_children nd)) eqn:Hc.
      * rewrite elem_of_union, elem_of_singleton. split.
        -- intros [[->|?]|(k' & a' & nd' & ? & ? & ? & ?)]; [|by left|].
           ++ right. exists k, a, nd. split_and!; [by left|done| |done].
              apply Nat.ltb_lt in Hc. intros Hnil. rewrite Hnil in Hc. simpl in Hc. lia.
           ++ right. exists k', a', nd'. split_and!; [by right|done..].
        -- intros [?|(k' & a' & nd' & [?|?]%elem_of_cons & Hlk & Hne & Hid)]; [by left; right| |].
           ++ simplify_eq. by left; left.
           ++ right. by exists k', a', nd'.
      * split.
        -- intros [?|(k' & a' & nd' & ? & ? & ? & ?)]; [by left|].
           right. exists k', a', nd'. split_and!; [by right|done..].
        -- intros [?|(k' & a' & nd' & [?|?]%elem_of_cons & Hlk & Hne & Hid)]; [by left| |].
           ++ simplify_eq. apply Nat.ltb_ge in Hc.
              destruct (n_children _); [done|simpl in Hc; lia].
           ++ right. by exists k', a', nd'.
    + split.
      * intros [?|(k' & a' & nd' & ? & ? & ? & ?)]; [by left|].
        right. exists k', a', nd'. split_and!; [by right|done..].
      * intros [?|(k' & a' & nd' & [?|?]%elem_of_cons & Hlk & Hne & Hid)]; [by left| |].
        -- simplify_eq.
        -- right. by exists k', a', nd'.
Qed.

(** [expandAllNodes] adds to the expanded set exactly the identifiers of
    the nodes of [nodeMap] that have children, and leaves the rename state
    alone; so after [buildNodeMapFromTree], when the uuids of the records
    are pairwise distinct, every node made from a record that has children
    is expanded. *)
Theorem expandAllNodes_expands_parents (treeArray : list tnode) (st0 : view) (u : ui) :
  let st := buildNodeMapFromTree treeArray st0 in
  let u' := expandAllNodes st u in
  isRenaming u' = isRenaming u ∧ renameNode u' = renameNode u ∧
  (∀ x, x ∈ expandedUUIDs u' ↔
        x ∈ expandedUUIDs u ∨
        ∃ k a nd, (k, a) ∈ nodeMap st ∧ heap st !! a = Some nd ∧
                  n_children nd ≠ [] ∧ n_id nd = x) ∧
  (NoDup (uuids_of treeArray) →
   ∀ a nd, length (heap st0) ≤ a → heap st !! a = Some nd →
           n_children nd ≠ [] → n_id nd ∈ expandedUUIDs u').
Proof.
  intros st u'. split_and!; [done..| |].
  - intros x. apply expandAllNodes_elem.
  - intros Hnd a nd Ha Hlk Hc. apply expandAllNodes_elem. right.
    exists (n_id nd), a, nd. split_and!; [|done..].
    apply map_get_elem. by apply nodeMap_complete.
Qed.

(** ** Escaping *)

Lemma replace_all_substitute c b s :
  replace_all c b s = substitute (λ a, if Ascii.eqb a c then b else String a "") s.
Proof.
  induction s as [|a s IH]; [done|]. simpl. rewrite IH. by destruct (Ascii.eqb a c).
Qed.

Lemma append_assoc (x y z : string) : (x +:+ y) +:+ z = x +:+ (y +:+ z).
Proof.
  induction x as [|a x IH]; [done|].
  change (String a ((x +:+ y) +:+ z) = String a (x +:+ (y +:+ z))). by rewrite IH.
Qed.

Lemma append_cons a (x y : string) : String a x +:+ y = String a (x +:+ y).
Proof. done. Qed.

Lemma substitute_app f x y : substitute f (x +:+ y) = substitute f x +:+ substitute f y.
Proof.
  induction x as [|a x IH]; [done|]. rewrite append_cons. cbn [substitute].
  by rewrite IH, append_assoc.
Qed.

Lemma substitute_compose f g s :
  substitute g (substitute f s) = substitute (λ a, substitute g (f a)) s.
Proof.
  induction s as [|a s IH]; [done|]. cbn [substitute]. by rewrite substitute_app, IH.
Qed.

Lemma substitute_ext f g s : (∀ a, f a = g a) → substitute f s = substitute g s.
Proof. intros Hfg. induction s as [|a s IH]; [done|]. simpl. by rewrite Hfg, IH. Qed.

Lemma escapeHtml_substitute text : escapeHtml text = substitute entity text.
Proof.
  unfold escapeHtml. destruct text as [|a0 text0]; [done|].
  change (negb (JS.str_truthy (String a0 text0))) with false. cbv iota.
  generalize (String a0 text0) as text. clear. intros text.
  rewrite !replace_all_substitute, !substitute_compose.
  apply substitute_ext. intros a.
  destruct a as [[] [] [] [] [] [] [] []]; reflexivity.
Qed.

Lemma entity_chars a b :
  b ∈ String.list_ascii_of_string (entity a) → ¬ markup_char b.
Proof.
  unfold entity, markup_char, quot.
  destruct (Ascii.eqb_spec a amp) as [->|H1]; [|
  destruct (Ascii.eqb_spec a less) as [->|H2]; [|
  destruct (Ascii.eqb_spec a greater) as [->|H3]; [|
  destruct (Ascii.eqb_spec a (Ascii.ascii_of_nat 34)) as [->|H4]; [|
  destruct (Ascii.eqb_spec a apos) as [->|H5]]]]].
  1-5: simpl; rewrite !elem_of_cons, elem_of_nil;
       intros Hb [?|[?|[?|?]]]; subst; intuition discriminate.
  simpl. rewrite elem_of_cons, elem_of_nil. intros [->|[]] [?|[?|[?|?]]]; done.
Qed.

Lemma list_ascii_app x y :
  String.list_ascii_of_string (x +:+ y) =
  String.list_ascii_of_string x ++ String.list_ascii_of_string y.
Proof. induction x as [|a x IH]; [done|]. rewrite append_cons. simpl. by rewrite IH. Qed.

Lemma substitute_entity_inj s t :
  substitute entity s = substitute entity t → s = t.
Proof.
  revert t. induction s as [|a s IH]; intros [|b t] Heq.
  - done.
  - exfalso. simpl in Heq. unfold entity in Heq.
    repeat (destruct (Ascii.eqb b _); [discriminate|]). discriminate.
  - exfalso. simpl in Heq. unfold entity in Heq.
    repeat (destruct (Ascii.eqb a _); [discriminate|]). discriminate.
  - simpl in Heq. unfold entity in Heq.
    destruct (Ascii.eqb_spec a amp) as [->|A1];
    [|destruct (Ascii.eqb_spec a less) as [->|A2];
    [|destruct (Ascii.eqb_spec a greater) as [->|A3];
    [|destruct (Ascii.eqb_spec a quot) as [->|A4];
    [|destruct (Ascii.eqb_spec a apos) as [->|A5]]]]];
    (destruct (Ascii.eqb_spec b amp) as [->|B1];
    [|destruct (Ascii.eqb_spec b less) as [->|B2];
    [|destruct (Ascii.eqb_spec b greater) as [->|B3];
    [|destruct (Ascii.eqb_spec b quot) as [->|B4];
    [|destruct (Ascii.eqb_spec b apos) as [->|B5]]]]]);
    simpl in Heq; try discriminate;
    try (injection Heq as Heq; f_equal; by apply IH);
    try (injection Heq as ? Heq; subst; try done; f_equal; by apply IH).
Qed.

(** [escapeHtml] replaces each of the five characters by its entity and
    leaves every other character alone, in one pass over the text: the
    ampersands it writes are not escaped again. Hence its output holds no
    character that opens or closes markup or an attribute value, and two
    texts with the same output are the same text. *)
Theorem escapeHtml_entities (text : string) :
  escapeHtml text = substitute entity text ∧
  Forall (λ a, ¬ markup_char a) (String.list_ascii_of_string (escapeHtml text)) ∧
  (∀ other, escapeHtml other = escapeHtml text → other = text).
Proof.
  split_and!.
  - apply escapeHtml_substitute.
  - rewrite escapeHtml_substitute. induction text as [|a text IH]; [constructor|].
    simpl. rewrite list_ascii_app. apply Forall_app. split; [|done].
    apply Forall_forall. intros b. apply entity_chars.
  - intros other. rewrite !escapeHtml_substitute. apply substitute_entity_inj.
Qed.

(** ** Validation, attempt after attempt *)

Lemma search_Some_count s j :
  search s = Some j →
  j < String.length s ∧ invalid_chars (string_drop (S j) s) + 1 = invalid_chars s.
Proof.
  revert j. induction s as [|a s IH]; intros j; [done|]. simpl.
  destruct (invalid_char a) eqn:Ha.
  - intros [= <-]. split; [lia|]. destruct s; simpl; lia.
  - destruct (search s) as [j'|]; [|done]. simpl. intros [= <-].
    destruct (IH j' eq_refl) as [Hlt Hcnt]. split; [lia|]. done.
Qed.

Lemma search_None_count s : search s = None → invalid_chars s = 0.
Proof.
  induction s as [|a s IH]; [done|]. simpl. destruct (invalid_char a); [done|].
  destruct (search s); [done|]. intros _. by rewrite IH.
Qed.

Lemma string_drop_0 s : string_drop 0 s = s.
Proof. by destruct s. Qed.

Lemma string_drop_add i k s : string_drop (i + k) s = string_drop k (string_drop i s).
Proof.
  revert s. induction i as [|i IH]; intros s.
  - cbn [Nat.add]. by rewrite (string_drop_0 s).
  - destruct s as [|a s]; simpl; [by destruct k|]. apply IH.
Qed.

Lemma string_drop_length i s : String.length (string_drop i s) = String.length s - i.
Proof.
  revert s. induction i as [|i IH]; intros s.
  - simpl. destruct s; simpl; lia.
  - destruct s as [|a s]; simpl; [done|]. apply IH.
Qed.

Section Retry.
Context (newName : string) (treeRoots : list rnode) (excludeUuid : option string).
Let name := JS.trim newName.
Hypothesis Hne : name ≠ "".
Hypothesis Hlen : String.length name ≤ 255.
Hypothesis Hres : RESERVED_NAMES_test name = false.
Hypothesis Hfree : ¬ name_taken name treeRoots excludeUuid.

Lemma validateName_from h :
  lastIndex h ≤ String.length name →
  match search (string_drop (lastIndex h) name) with
  | Some j =>
      valid (validateName newName treeRoots excludeUuid h).1 = false ∧
      (validateName newName treeRoots excludeUuid h).2 = Handler (lastIndex h + j + 1)
  | None =>
      validateName newName treeRoots excludeUuid h = (Validation true None, Handler 0)
  end.
Proof.
  intros Hh. unfold validateName. fold name.
  assert (Hnew : JS.str_truthy newName = true).
  { apply bool_decide_eq_true. intros ->. by apply Hne. }
  rewrite Hnew. simpl negb. cbn [orb].
  assert (Hl0 : (String.length name =? 0) = false).
  { apply Nat.eqb_neq. intros H0. apply Hne. by destruct name. }
  rewrite Hl0. unfold MAX_FILENAME_LENGTH.
  assert (Hl1 : (255 <? String.length name) = false) by (apply Nat.ltb_ge; lia).
  rewrite Hl1. unfold INVALID_CHARS_test.
  rewrite bool_decide_eq_false_2 by lia.
  destruct (search (string_drop (lastIndex h) name)) as [j|]; [done|].
  rewrite Hres.
  destruct (hasDuplicateName name treeRoots excludeUuid) eqn:Hdup; [|done].
  apply hasDuplicateName_spec in Hdup. by destruct Hfree.
Qed.

Lemma retried_from c h :
  lastIndex h ≤ String.length name →
  invalid_chars (string_drop (lastIndex h) name) = c →
  (∀ i, i < c →
     valid (validateName newName treeRoots excludeUuid
              (retried i newName treeRoots excludeUuid h)).1 = false) ∧
  validateName newName treeRoots excludeUuid
    (retried c newName treeRoots excludeUuid h) = (Validation true None, Handler 0).
Proof.
  revert h. induction c as [|c IH]; intros h Hh Hc.
  - split; [lia|]. simpl. pose proof (validateName_from h Hh) as Hv.
    destruct (search _) as [j|] eqn:Hs; [|done].
    apply search_Some_count in Hs as [_ Hs]. lia.
  - pose proof (validateName_from h Hh) as Hv.
    destruct (search _) as [j|] eqn:Hs.
    2:{ apply search_None_count in Hs. lia. }
    destruct Hv as [Hv1 Hv2].
    apply search_Some_count in Hs as [Hj Hcnt].
    rewrite string_drop_length in Hj.
    destruct (IH (Handler (lastIndex h + j + 1))) as [IH1 IH2].
    { simpl. lia. }
    { simpl. replace (lastIndex h + j + 1) with (lastIndex h + S j) by lia.
      rewrite string_drop_add. lia. }
    split.
    + intros [|i] Hi; [done|]. simpl. rewrite Hv2. apply IH1. lia.
    + simpl. by rewrite Hv2.
Qed.

End Retry.

(** A name that breaks no rule but the one on characters is rejected as
    often as it has forbidden characters, and accepted at the next attempt:
    each rejection moves [lastIndex] past one more of them, and the accepting
    call leaves the pattern at rest. *)
Theorem validateName_accepts_on_retry (newName : string) (treeRoots : list rnode)
    (excludeUuid : option string) :
  let name := JS.trim newName in
  name ≠ "" → String.length name ≤ 255 → RESERVED_NAMES_test name = false →
  ¬ name_taken name treeRoots excludeUuid →
  (∀ i, i < invalid_chars name →
     valid (validateName newName treeRoots excludeUuid
              (retried i newName treeRoots excludeUuid (Handler 0))).1 = false) ∧
  validateName newName treeRoots excludeUuid
    (retried (invalid_chars name) newName treeRoots excludeUuid (Handler 0))
    = (Validation true None, Handler 0).
Proof.
  intros name Hne Hlen Hres Hfree.
  apply (retried_from newName treeRoots excludeUuid Hne Hlen Hres Hfree
           (invalid_chars name) (Handler 0)); cbn [lastIndex]; [lia|].
  by rewrite string_drop_0.
Qed.

Lemma validateName_accepts_on_retry_witness :
  (∀ i, i < 2 →
     valid (validateName "a:b?c" [] None (retried i "a:b?c" [] None (Handler 0))).1 = false) ∧
  validateName "a:b?c" [] None (retried 2 "a:b?c" [] None (Handler 0))
    = (Validation true None, Handler 0).
Proof.
  apply (validateName_accepts_on_retry "a:b?c" [] None).
  - done.
  - vm_compute. lia.
  - done.
  - intros (id & Hin & _). by apply elem_of_nil in Hin.
Defined.

(** ** The legacy graph *)

Lemma map_set_NoDup_keys {V} (k : string) (v : V) (m : JS.ordered_map V) :
  NoDup m.*1 → NoDup (JS.map_set k v m).*1.
Proof.
  induction m as [|[k' v'] m IH]; simpl; intros Hnd.
  - apply NoDup_singleton.
  - apply NoDup_cons in Hnd as [Hk Hnd]. destruct (decide (k' = k)) as [->|Hne]; simpl.
    + by apply NoDup_cons.
    + apply NoDup_cons. split; [|by apply IH].
      rewrite map_set_keys. intros [?|?]; [congruence|done].
Qed.

Lemma map_set_NoDup_values {V} (k : string) (v : V) (m : JS.ordered_map V) :
  v ∉ m.*2 → NoDup m.*2 → NoDup (JS.map_set k v m).*2.
Proof.
  induction m as [|[k' v'] m IH]; simpl; intros Hv Hnd.
  - apply NoDup_singleton.
  - apply NoDup_cons in Hnd as [Hk Hnd]. apply not_elem_of_cons in Hv as [Hv1 Hv2].
    destruct (decide (k' = k)) as [->|Hne]; simpl.
    + by apply NoDup_cons.
    + apply NoDup_cons. split; [|by apply IH].
      intros Hin. apply list_elem_of_fmap in Hin as ([k0 v0] & -> & Hin).
      apply map_set_elem in Hin as [?|Hin]; [simplify_eq; done|].
      apply Hk. apply list_elem_of_fmap. by exists (k0, v0).
Qed.

Lemma map_elem_get {V} (k : string) (v : V) (m : JS.ordered_map V) :
  NoDup m.*1 → (k, v) ∈ m → JS.map_get k m = Some v.
Proof.
  induction m as [|[k' v'] m IH]; simpl; intros Hnd Hin; [by apply elem_of_nil in Hin|].
  apply NoDup_cons in Hnd as [Hk Hnd].
  apply elem_of_cons in Hin as [?|Hin]; [simplify_eq; by rewrite decide_True|].
  destruct (decide (k' = k)) as [->|Hne]; [|by apply IH].
  destruct Hk. apply list_elem_of_fmap. by exists (k, v).
Qed.

Lemma legacy_create_ok chats h0 :
  ∃ m byName,
    foldl legacy_create (h0, [], []) chats =
      (h0 ++ ((λ c, INode (legacy_id c) (cleanName c) (metadata_parent_uuid c) []
                          (LegacyData c) None) <$> chats), m, byName) ∧
    legacy_map_ok (length h0)
      (h0 ++ ((λ c, INode (legacy_id c) (cleanName c) (metadata_parent_uuid c) []
                          (LegacyData c) None) <$> chats)) m ∧
    (∀ k, k ∈ m.*1 ↔ k ∈ legacy_id <$> chats).
Proof.
  induction chats as [|c chats IH] using rev_ind.
  - exists [], []. simpl. rewrite app_nil_r. split; [done|]. split; [|done].
    split_and!; [|constructor..]. intros k a Hin. by apply elem_of_nil in Hin.
  - destruct IH as (m & byName & Hfold & (Hent & Hk & Hv) & Hkeys).
    rewrite foldl_app, Hfold. cbn [foldl legacy_create].
    eexists _, _. rewrite fmap_app. cbn [fmap list_fmap]. rewrite app_assoc.
    split; [reflexivity|].
    set (h := h0 ++ _) in *. split; [split_and!|].
    + intros k a Hin. apply map_set_elem in Hin as [Heq|Hin].
      * injection Heq as -> ->. rewrite length_app. simpl. split; [unfold h; rewrite length_app; lia|].
        unfold id_of. by rewrite lookup_app_r, Nat.sub_diag by lia.
      * destruct (Hent k a Hin) as [Hr Hid]. rewrite length_app. split; [lia|].
        by rewrite id_of_app_l by lia.
    + by apply map_set_NoDup_keys.
    + apply map_set_NoDup_values; [|done]. intros Hin.
      apply list_elem_of_fmap in Hin as ([k a] & Heq & Hin). simpl in Heq. subst a.
      destruct (Hent k _ Hin) as [Hr _]. lia.
    + intros k. rewrite map_set_keys, Hkeys, fmap_app, elem_of_app. cbn [fmap list_fmap].
      rewrite list_elem_of_singleton. tauto.
Qed.

Lemma link_keys_alter f i (l : list inode) :
  (∀ nd, n_id (f nd) = n_id nd ∧ n_parentId (f nd) = n_parentId nd) →
  link_keys (alter f i l) = link_keys l.
Proof.
  intros Hf. unfold link_keys. revert i. induction l as [|x l IH]; intros [|i]; [done..| |].
  - cbn. destruct (Hf x) as [-> ->]. done.
  - cbn. f_equal. apply IH.
Qed.

Lemma legacy_target_keys h h' m a :
  link_keys h = link_keys h' → legacy_target h m a = legacy_target h' m a.
Proof.
  intros Hk. unfold legacy_target.
  assert (h !! a ≫= n_parentId = h' !! a ≫= n_parentId) as ->; [|done].
  pose proof (f_equal (.!! a) Hk) as Ha. unfold link_keys in Ha.
  rewrite !list_lookup_fmap in Ha.
  destruct (h !! a), (h' !! a); simpl in *; congruence.
Qed.

Lemma legacy_link_step m h roots node :
  legacy_link m (h, roots) node =
  match legacy_target h m node with
  | Some p => (set_parent node p (push_child p node h), roots)
  | None => (h, roots ++ [node])
  end.
Proof.
  unfold legacy_link, legacy_target.
  destruct (h !! node ≫= n_parentId) as [pid|]; [|done]. simpl.
  destruct (JS.str_truthy pid); [|done]. by destruct (JS.map_get pid m).
Qed.

Lemma children_set_parent a p h q :
  n_children <$> set_parent a p h !! q = n_children <$> h !! q.
Proof.
  unfold set_parent. rewrite list_lookup_alter. case_decide; [|done].
  subst. by destruct (h !! q).
Qed.

Lemma children_push_child p a h q :
  n_children <$> push_child p a h !! q =
  if decide (q = p) then (λ cs, cs ++ [a]) <$> (n_children <$> h !! q)
  else n_children <$> h !! q.
Proof.
  unfold push_child. rewrite list_lookup_alter.
  destruct (decide (q = p)) as [->|Hne].
  - rewrite decide_True by done. by destruct (h !! p).
  - by rewrite decide_False by done.
Qed.

Lemma parent_push_child p a h x :
  n_parent <$> push_child p a h !! x = n_parent <$> h !! x.
Proof.
  unfold push_child. rewrite list_lookup_alter. case_decide; [|done].
  subst. by destruct (h !! x).
Qed.

Lemma parent_set_parent a p h x :
  n_parent <$> set_parent a p h !! x =
  if decide (x = a) then (λ _, Some p) <$> h !! x else n_parent <$> h !! x.
Proof.
  unfold set_parent. rewrite list_lookup_alter.
  destruct (decide (x = a)) as [->|Hne].
  - rewrite decide_True by done. by destruct (h !! a).
  - by rewrite decide_False by done.
Qed.

Lemma child_of_children h q c :
  child_of h q c ↔ ∃ cs, n_children <$> h !! q = Some cs ∧ c ∈ cs.
Proof.
  unfold child_of. split.
  - intros (nd & -> & Hc). by exists (n_children nd).
  - intros (cs & Hcs & Hc). destruct (h !! q) as [nd|]; [|done].
    injection Hcs as <-. by exists nd.
Qed.

Lemma child_of_link h a p q c :
  child_of (set_parent a p (push_child p a h)) q c ↔
  child_of h q c ∨ (q = p ∧ c = a ∧ p < length h).
Proof.
  rewrite !child_of_children, children_set_parent, children_push_child.
  destruct (decide (q = p)) as [->|Hne].
  - destruct (h !! p) as [nd|] eqn:Hnd; simpl.
    + apply lookup_lt_Some in Hnd. split.
      * intros (cs & [= <-] & [Hc|Hc%list_elem_of_singleton]%elem_of_app).
        -- left. by eexists.
        -- by right.
      * intros [(cs & [= <-] & Hc)|(_ & -> & _)].
        -- eexists. split; [done|]. apply elem_of_app. by left.
        -- eexists. split; [done|]. apply elem_of_app. right. by left.
    + apply lookup_ge_None in Hnd. split.
      * by intros (? & ? & _).
      * intros [(? & ? & _)|(_ & _ & ?)]; [done|lia].
  - split; [by left|]. intros [?|(? & _)]; done.
Qed.

Lemma legacy_link_inv m base h1 todo :
  (∀ a p, legacy_target h1 m a = Some p → p < length h1) →
  ∀ linked h roots,
    legacy_inv m base h1 linked h roots →
    NoDup (linked ++ todo) →
    (∀ a, a ∈ todo → base ≤ a < length h1) →
    legacy_inv m base h1 (linked ++ todo)
      (foldl (legacy_link m) (h, roots) todo).1
      (foldl (legacy_link m) (h, roots) todo).2.
Proof.
  intros Htgt. induction todo as [|a todo IH]; intros linked h roots Hinv Hnd Hrange.
  - by rewrite app_nil_r.
  - cbn [foldl]. rewrite legacy_link_step.
    replace (linked ++ a :: todo) with ((linked ++ [a]) ++ todo) in * by by rewrite <- app_assoc.
    destruct Hinv as (Hkeys & Hlinked & Hrest & Hroots & Hchildren).
    assert (Hlen : length h = length h1).
    { apply (f_equal length) in Hkeys. unfold link_keys in Hkeys.
      by rewrite !length_fmap in Hkeys. }
    assert (Ha : a ∉ linked).
    { apply NoDup_app in Hnd as (Hnd & _). apply NoDup_app in Hnd as (_ & Hdis & _).
      intros Hin. apply (Hdis a Hin). by left. }
    destruct (Hrange a ltac:(by left)) as [Hab Hal].
    destruct (lookup_lt_is_Some_2 h a ltac:(lia)) as [nda Hnda].
    rewrite (legacy_target_keys h h1 m a Hkeys).
    destruct (legacy_target h1 m a) as [p|] eqn:Ht.
    + apply IH; [|done|intros x Hx; apply Hrange; by right].
      pose proof (Htgt a p Ht) as Hp.
      split_and!.
      * rewrite <- Hkeys. unfold set_parent. rewrite link_keys_alter by done.
        unfold push_child. by rewrite link_keys_alter.
      * intros x [Hx | ->%list_elem_of_singleton]%elem_of_app.
        -- destruct (Hlinked x Hx) as (nd & Hnd' & Hcase).
           assert (Hxa : x ≠ a) by congruence.
           assert (Hpar : n_parent <$> set_parent a p (push_child p a h) !! x = Some (n_parent nd)).
           { rewrite parent_set_parent, decide_False, parent_push_child by done. by rewrite Hnd'. }
           destruct (set_parent a p (push_child p a h) !! x) as [nd'|]; [|done].
           injection Hpar as Hpar. exists nd'. split; [done|]. rewrite Hpar.
           destruct (legacy_target h1 m x) as [px|]; [|done].
           destruct Hcase as [? ?]. split; [done|]. apply child_of_link. by left.
        -- assert (Hpar : n_parent <$> set_parent a p (push_child p a h) !! a = Some (Some p)).
           { rewrite parent_set_parent, decide_True by done.
             destruct (lookup_lt_is_Some_2 (push_child p a h) a) as [? ->]; [|done].
             unfold push_child. rewrite length_alter. lia. }
           destruct (set_parent a p (push_child p a h) !! a) as [nd'|]; [|done].
           injection Hpar as Hpar. exists nd'. split; [done|]. rewrite Ht.
           split; [done|]. apply child_of_link. right. split_and!; [done..|lia].
      * intros x nd Hx Hnot Hlk.
        assert (Hxa : x ≠ a).
        { intros ->. apply Hnot, elem_of_app. right. by left. }
        assert (Hpar : n_parent <$> set_parent a p (push_child p a h) !! x = Some (n_parent nd))
          by (by rewrite Hlk).
        rewrite parent_set_parent, decide_False, parent_push_child in Hpar by done.
        destruct (h !! x) as [nd0|] eqn:Hnd0; [|done]. injection Hpar as <-.
        apply (Hrest x nd0); [done| |done]. intros ?. apply Hnot, elem_of_app. by left.
      * intros r Hr. destruct (Hroots r Hr) as [? ?]. split; [|done].
        apply elem_of_app. by left.
      * intros q c Hq [Hc|(-> & -> & _)]%child_of_link.
        -- destruct (Hchildren q c Hq Hc) as [? ?]. split; [|done]. apply elem_of_app. by left.
        -- split; [|done]. apply elem_of_app. right. by left.
    + apply IH; [|done|intros x Hx; apply Hrange; by right].
      split_and!.
      * done.
      * intros x [Hx | ->%list_elem_of_singleton]%elem_of_app.
        -- destruct (Hlinked x Hx) as (nd & Hnd' & Hcase). exists nd. split; [done|].
           destruct (legacy_target h1 m x); [done|]. destruct Hcase as [? ?].
           split; [done|]. apply elem_of_app. by left.
        -- exists nda. split; [done|]. rewrite Ht. split; [by apply (Hrest a)|].
           apply elem_of_app. right. by left.
      * intros x nd Hx Hnot Hlk. apply (Hrest x nd); [done| |done].
        intros ?. apply Hnot, elem_of_app. by left.
      * intros r [Hr | ->%list_elem_of_singleton]%elem_of_app.
        -- destruct (Hroots r Hr) as [? ?]. split; [|done]. apply elem_of_app. by left.
        -- split; [|done]. apply elem_of_app. right. by left.
      * intros q c Hq Hc. destruct (Hchildren q c Hq Hc) as [? ?]. split; [|done].
        apply elem_of_app. by left.
Qed.

Lemma buildGraphLegacy_linked (chats : list legacy_chat) (st : view) :
  let st' := buildGraphLegacy chats st in
  (∀ k, is_Some (JS.map_get k (nodeMap st')) ↔ k ∈ legacy_id <$> chats) ∧
  ∀ k a, JS.map_get k (nodeMap st') = Some a →
    length (heap st) ≤ a ∧
    ∃ nd, heap st' !! a = Some nd ∧ n_id nd = k ∧
      match legacy_target (heap st') (nodeMap st') a with
      | Some p => n_parent nd = Some p ∧ child_of (heap st') p a ∧ a ∉ treeRoots st'
      | None => n_parent nd = None ∧ a ∈ treeRoots st' ∧
                ∀ p, length (heap st) ≤ p → ¬ child_of (heap st') p a
      end.
Proof.
  cbv zeta. unfold buildGraphLegacy.
  destruct (legacy_create_ok chats (heap st)) as (m & byName & -> & (Hent & Hk & Hv) & Hkeys).
  set (h1 := heap st ++ _) in *.
  assert (Htgt : ∀ a p, legacy_target h1 m a = Some p → length (heap st) ≤ p < length h1).
  { intros a p. unfold legacy_target. destruct (h1 !! a ≫= n_parentId) as [pid|]; [|done].
    simpl. destruct (JS.str_truthy pid); [|done]. intros Hget%map_get_elem.
    by destruct (Hent _ _ Hget). }
  assert (Hinit : legacy_inv m (length (heap st)) h1 [] h1 []).
  { split_and!; [done| | | |].
    - intros a Ha. by apply elem_of_nil in Ha.
    - intros a nd Ha _ Hnd. unfold h1 in Hnd. rewrite lookup_app_r in Hnd by done.
      rewrite list_lookup_fmap in Hnd. destruct (chats !! _); simpl in Hnd; by simplify_eq.
    - intros r Hr. by apply elem_of_nil in Hr.
    - intros p c Hp (nd & Hnd & Hc). unfold h1 in Hnd. rewrite lookup_app_r in Hnd by done.
      rewrite list_lookup_fmap in Hnd. destruct (chats !! _); simpl in Hnd; simplify_eq.
      simpl in Hc. by apply elem_of_nil in Hc. }
  pose proof (legacy_link_inv m (length (heap st)) h1 m.*2
                (λ a p H, proj2 (Htgt a p H)) [] h1 [] Hinit Hv) as Hfinal.
  destruct (foldl (legacy_link m) (h1, []) m.*2) as [h' roots].
  cbn [fst snd app heap nodeMap treeRoots] in *.
  destruct Hfinal as (Hkeys' & Hlinked & _ & Hroots & Hchildren).
  { intros a Ha. apply list_elem_of_fmap in Ha as ([k a'] & -> & Hin).
    by destruct (Hent _ _ Hin) as [? _]. }
  split; [intros k; by rewrite map_get_Some_keys, Hkeys|].
  intros k a Hget. apply map_get_elem in Hget.
  destruct (Hent k a Hget) as [Hr Hid]. split; [lia|].
  assert (Hin : a ∈ m.*2) by (apply list_elem_of_fmap; by exists (k, a)).
  destruct (Hlinked a Hin) as (nd & Hnd & Hcase). exists nd. split; [done|]. split.
  { pose proof (f_equal (.!! a) Hkeys') as Hka. unfold link_keys in Hka.
    rewrite !list_lookup_fmap, Hnd in Hka. unfold id_of in Hid.
    destruct (h1 !! a); simpl in *; congruence. }
  rewrite (legacy_target_keys h' h1 m a Hkeys').
  destruct (legacy_target h1 m a) as [p|] eqn:Ht.
  - destruct Hcase as [? ?]. split_and!; [done..|]. intros Hroot.
    destruct (Hroots a Hroot) as [_ ?]. congruence.
  - destruct Hcase as [? ?]. split_and!; [done..|]. intros p Hp Hc.
    destruct (Hchildren p a Hp Hc) as [_ ?]. congruence.
Qed.

(** After the legacy graph is built, every node of the map bears its key
    and is linked as its parent identifier says: when that identifier is
    non-empty and a key of the map, the node has the node under that key as
    parent, is one of its children and is not a root; otherwise it has no
    parent, is a root and is a child of no new node. The keys of the map are
    the identifiers of the chats. *)
Theorem buildGraphLegacy_links (chats : list legacy_chat) (st : view) :
  let st' := buildGraphLegacy chats st in
  (∀ k, is_Some (JS.map_get k (nodeMap st')) ↔ k ∈ legacy_id <$> chats) ∧
  ∀ k a, JS.map_get k (nodeMap st') = Some a →
    length (heap st) ≤ a ∧
    ∃ nd, heap st' !! a = Some nd ∧ n_id nd = k ∧
      match legacy_target (heap st') (nodeMap st') a with
      | Some p => n_parent nd = Some p ∧ child_of (heap st') p a ∧ a ∉ treeRoots st'
      | None => n_parent nd = None ∧ a ∈ treeRoots st' ∧
                ∀ p, length (heap st) ≤ p → ¬ child_of (heap st') p a
      end.
Proof. apply buildGraphLegacy_linked. Qed.

(** ** Forest construction, with the node map *)

(** Claim C9, as the code has it. Both constructions build one node for
    every input record, in order, whatever its identifier, and enter it in
    [nodeMap]: the legacy one under the uuid of the chat or, without one,
    under its name with a prefix, the node under that key being a root or a
    child of its parent; the tree one under the uuid of the record, with a
    root listed for the uuid of every top-level record. *)
Theorem forest_construction_builds_every_record :
  (∀ chats st,
     let st' := buildGraphLegacy chats st in
     node_record <$> drop (length (heap st)) (heap st') =
       (λ c, (legacy_id c, cleanName c, LegacyData c)) <$> chats ∧
     ∀ c, c ∈ chats →
       ∃ a nd, JS.map_get (legacy_id c) (nodeMap st') = Some a ∧
               length (heap st) ≤ a ∧ heap st' !! a = Some nd ∧
               n_id nd = legacy_id c ∧
               (a ∈ treeRoots st' ∨
                ∃ p, n_parent nd = Some p ∧ child_of (heap st') p a)) ∧
  (∀ treeArray st,
     let st' := buildNodeMapFromTree treeArray st in
     node_record <$> drop (length (heap st)) (heap st') =
       (λ t, (t_uuid t, t_chat_name t, TreeData t)) <$> flat_map preorder treeArray ∧
     (∀ t, t ∈ flat_map preorder treeArray →
        ∃ a nd, JS.map_get (t_uuid t) (nodeMap st') = Some a ∧
                length (heap st) ≤ a ∧ heap st' !! a = Some nd ∧
                n_id nd = t_uuid t) ∧
     (∀ t, t ∈ treeArray → Some (t_uuid t) ∈ id_of (heap st') <$> treeRoots st')).
Proof.
  split.
  - intros chats st st'. split.
    { unfold st'. rewrite fmap_drop, buildGraphLegacy_heap.
      rewrite <- (length_fmap node_record), drop_app_length. done. }
    intros c Hc.
    destruct (buildGraphLegacy_linked chats st) as [Hkeys Hent]. fold st' in Hkeys, Hent.
    destruct (proj2 (Hkeys (legacy_id c))) as [a Ha].
    { apply list_elem_of_fmap. by exists c. }
    destruct (Hent _ _ Ha) as (Hge & nd & Hnd & Hid & Hcase).
    exists a, nd. split_and!; [done..|].
    destruct (legacy_target (heap st') (nodeMap st') a) as [p|].
    + right. exists p. by destruct Hcase as (? & ? & _).
    + left. by destruct Hcase as (_ & ? & _).
  - intros treeArray st st'. split_and!.
    + destruct (buildNodeMapFromTree_forest treeArray st) as (roots & _ & Hd & Hm & _).
      by apply tree_records.
    + intros t Ht.
      destruct (nodeMap_entries treeArray st (t_uuid t)) as [Hkeys Hent].
      fold st' in Hkeys, Hent.
      destruct (proj2 Hkeys) as [a Ha].
      { unfold uuids_of. apply list_elem_of_fmap. by exists t. }
      destruct (Hent a Ha) as (Hge & nd & t' & Hnd & Hid & _).
      by exists a, nd.
    + intros t Ht. unfold st', buildNodeMapFromTree.
      pose proof (process_roots_keys treeArray (heap st)) as (_ & _ & Hids & _).
      destruct (process_roots treeArray (heap st, [])) as [roots [h m]]. cbn [fst snd] in *.
      cbn [heap treeRoots].
      destruct (dedupe_roots_spec h roots) as (_ & D2 & _).
      apply D2. rewrite Hids. apply list_elem_of_fmap. by exists t.
Qed.
